(** * Portfolio behaviour layer (script.js): a shallow embedding

    The script is seven small controllers wired to one document.  Each
    controller is embedded in a module of its own, over the part of the
    page it reads and writes; [Boot] composes the constructors the way the
    DOMContentLoaded handler does.

    Conventions.
    - A JavaScript string is the list of its UTF-16 code units ([jsstring]);
      [js "..."] turns an ASCII literal into one.
    - A method that can raise runs in the state-and-exception monad [M]:
      the state reached so far is kept when an exception is raised, as the
      DOM writes made before a [TypeError] stay made.
    - An element looked up with getElementById / querySelector is an
      [option]: [None] is JavaScript's [null].
    - The platform services (storage, media queries, intersection
      observers, timers, fetch) are taken with their documented contracts;
      storage reads and writes succeed. *)

From Stdlib Require Import ZArith NArith List Bool Lia String Ascii.
From stdpp Require Import gmap list.

Set Default Proof Using "Type".
Set Warnings "-clear-no-such-hyp".
Local Open Scope Z_scope.

(* ================================================================== *)
(** ** JavaScript strings and completions                              *)
(* ================================================================== *)

Abbreviation jsstring := (list N) (only parsing).

Fixpoint js (s : string) : list N :=
  match s with
  | EmptyString => []
  | String a r => N_of_ascii a :: js r
  end.

(** [ToBoolean] on a string: only the empty string is falsy. *)
Definition str_truthy (s : jsstring) : bool :=
  match s with [] => false | _ :: _ => true end.

(** [a === b] on strings. *)
Definition str_eqb (a b : jsstring) : bool := bool_decide (a = b).

Inductive exn : Type :=
  | TypeError          (* property access on null *)
  | SyntaxError        (* querySelector on an invalid selector *)
  | Error (msg : jsstring).

Inductive completion (A : Type) : Type :=
  | Normal (a : A)
  | Throw (e : exn).
Arguments Normal {A} a.
Arguments Throw {A} e.

(** State-and-exception monad: a method body over a state [St]. *)
Definition M (St A : Type) : Type := St -> St * completion A.

Definition ret {St A} (a : A) : M St A := fun s => (s, Normal a).
Definition throw {St A} (e : exn) : M St A := fun s => (s, Throw e).
Definition bind {St A B} (m : M St A) (k : A -> M St B) : M St B :=
  fun s => match m s with
           | (s', Normal a) => k a s'
           | (s', Throw e) => (s', Throw e)
           end.
Definition gets {St A} (f : St -> A) : M St A := fun s => (s, Normal (f s)).
Definition modify {St} (f : St -> St) : M St unit := fun s => (f s, Normal tt).
(** [try { m } catch { h }] *)
Definition catch {St A} (m : M St A) (h : exn -> M St A) : M St A :=
  fun s => match m s with
           | (s', Normal a) => (s', Normal a)
           | (s', Throw e) => h e s'
           end.

Notation "x <- c1 ;; c2" := (bind c1 (fun x => c2))
  (at level 100, c1 at next level, right associativity).
Notation "c1 ;;; c2" := (bind c1 (fun _ => c2))
  (at level 100, right associativity).

(** A DOMTokenList ([element.classList]) is an ordered set of tokens. *)
Module ClassList.
Definition t := list (list N).
Definition contains (c : t) (tok : jsstring) : bool :=
  bool_decide (tok ∈ c).
Definition add (c : t) (tok : jsstring) : t :=
  if contains c tok then c else c ++ [tok].
Definition remove (c : t) (tok : jsstring) : t :=
  filter (fun x => x <> tok) c.
Definition toggle (c : t) (tok : jsstring) : t :=
  if contains c tok then remove c tok else c ++ [tok].
End ClassList.

(* ================================================================== *)
(** ** THEME MANAGEMENT                                                *)
(* ================================================================== *)

Module ThemeManager.

Definition light : list N := js "light".
Definition dark : list N := js "dark".
Definition theme_key : list N := js "theme".

(** The toggle control: its aria-pressed attribute and the number of
    click listeners registered on it. *)
Record ToggleEl := {
  ariaPressed : option (list N);
  clickListeners : nat
}.

(** What the controller finds at construction. *)
Record Page := {
  p_localStorage : gmap (list N) (list N);
  p_dataTheme : option (list N);        (* <html data-theme> *)
  p_themeToggle : option ToggleEl;      (* getElementById("theme-toggle") *)
  p_prefersDark : bool                  (* matchMedia(...).matches *)
}.

(** The page together with the controller's own field [this.theme];
    [this.themeToggle] is a reference to the page's element and is
    modelled by that element itself. *)
Record State := {
  theme : list N;
  localStorage : gmap (list N) (list N);
  dataTheme : option (list N);
  themeToggle : option ToggleEl;
  prefersDark : bool
}.

Definition set_theme (v : jsstring) (s : State) : State :=
  {| theme := v; localStorage := localStorage s; dataTheme := dataTheme s;
     themeToggle := themeToggle s; prefersDark := prefersDark s |}.
Definition set_localStorage (m : gmap (list N) (list N)) (s : State) : State :=
  {| theme := theme s; localStorage := m; dataTheme := dataTheme s;
     themeToggle := themeToggle s; prefersDark := prefersDark s |}.
Definition set_dataTheme (v : option (list N)) (s : State) : State :=
  {| theme := theme s; localStorage := localStorage s; dataTheme := v;
     themeToggle := themeToggle s; prefersDark := prefersDark s |}.
Definition set_themeToggle (t : option ToggleEl) (s : State) : State :=
  {| theme := theme s; localStorage := localStorage s; dataTheme := dataTheme s;
     themeToggle := t; prefersDark := prefersDark s |}.

Definition of_bool (b : bool) : list N := if b then js "true" else js "false".

(** [this.themeToggle.setAttribute("aria-pressed", v)] *)
Definition toggle_setAttribute (v : jsstring) : M State unit :=
  fun s => match themeToggle s with
           | None => (s, Throw TypeError)
           | Some t =>
               (set_themeToggle
                  (Some {| ariaPressed := Some v;
                           clickListeners := clickListeners t |}) s,
                Normal tt)
           end.

(** [this.themeToggle.addEventListener("click", () => this.toggleTheme())] *)
Definition toggle_addEventListener : M State unit :=
  fun s => match themeToggle s with
           | None => (s, Throw TypeError)
           | Some t =>
               (set_themeToggle
                  (Some {| ariaPressed := ariaPressed t;
                           clickListeners := S (clickListeners t) |}) s,
                Normal tt)
           end.

Definition updateThemeToggle : M State unit :=
  th <- gets theme ;;
  let isPressed := str_eqb th dark in
  toggle_setAttribute (of_bool isPressed).

Definition applyTheme (th : jsstring) : M State unit :=
  modify (set_dataTheme (Some th)) ;;;
  updateThemeToggle.

Definition setTheme (th : jsstring) : M State unit :=
  modify (set_theme th) ;;;
  applyTheme th ;;;
  modify (fun s => set_localStorage (<[theme_key := th]> (localStorage s)) s).

Definition toggleTheme : M State unit :=
  th <- gets theme ;;
  let th' := if str_eqb th light then dark else light in
  modify (set_theme th') ;;;
  setTheme th'.

Definition init : M State unit :=
  th <- gets theme ;;
  applyTheme th ;;;
  toggle_addEventListener ;;;
  th <- gets theme ;;
  dk <- gets prefersDark ;;
  if str_eqb th light && dk then setTheme dark else ret tt.

(** [localStorage.getItem("theme") || "light"] *)
Definition stored_or_light (m : gmap (list N) (list N)) : list N :=
  match m !! theme_key with
  | Some v => if str_truthy v then v else light
  | None => light
  end.

(** [new ThemeManager()] *)
Definition construct (p : Page) : State * completion unit :=
  init {| theme := stored_or_light (p_localStorage p);
          localStorage := p_localStorage p;
          dataTheme := p_dataTheme p;
          themeToggle := p_themeToggle p;
          prefersDark := p_prefersDark p |}.

(** States the controller goes through: constructed, then toggled [n]
    times. *)
Inductive reachable (p : Page) : nat -> State -> Prop :=
  | reach_init s :
      construct p = (s, Normal tt) -> reachable p 0 s
  | reach_toggle n s s' :
      reachable p n s -> toggleTheme s = (s', Normal tt) ->
      reachable p (S n) s'.

(** The effective theme the way the specification words it: the stored
    value when there is one, else the OS preference. *)
Definition spec_effective (stored : option (list N)) (osDark : bool) : list N :=
  match stored with
  | Some v => v
  | None => if osDark then dark else light
  end.

(** A page with a toggle control, a given storage content and OS flag. *)
Definition page_with (stored : option (list N)) (osDark : bool) : Page :=
  {| p_localStorage :=
       match stored with Some v => {[ theme_key := v ]} | None => ∅ end;
     p_dataTheme := None;
     p_themeToggle := Some {| ariaPressed := None; clickListeners := 0 |};
     p_prefersDark := osDark |}.

(** The other theme, as toggleTheme picks it. *)
Definition flip (th : list N) : list N :=
  if str_eqb th light then dark else light.

(** The storage slot has been written, or already agreed with the theme,
    by the time the controller has been constructed and toggled [n]
    times: some toggle happened, or the OS fallback fired at startup, or
    a non-empty value was found in storage. *)
Definition slot_in_sync (p : Page) (n : nat) : Prop :=
  (0 < n)%nat \/ p_prefersDark p = true \/
  exists v, p_localStorage p !! theme_key = Some v /\ v <> [].

(** The state a fresh visit (nothing stored, OS not dark) starts in. *)
Definition fresh_light : State := fst (construct (page_with None false)).

(** [k] clicks on the toggle control, one after the other. *)
Fixpoint toggles (k : nat) : M State unit :=
  match k with
  | O => ret tt
  | S k' => toggleTheme ;;; toggles k'
  end.

End ThemeManager.

(* ================================================================== *)
(** ** NAVIGATION MANAGEMENT                                           *)
(* ================================================================== *)

Module NavigationManager.

Definition active : list N := js "active".
Definition scrolled : list N := js "scrolled".
Definition mobile_open : list N := js "mobile-open".

(** Layout of an element as the script reads it.  Offsets are whole CSS
    pixels; [window.scrollY] is taken to be one too, so that
    [scrollY + 100] is exact. *)
Record Box := { offsetTop : Z; offsetHeight : Z }.

(** The element lookups of the document.  [select] is the platform's
    selector engine on a non-empty selector: it raises [SyntaxError] on
    an invalid one and yields [null] when nothing matches. *)
Record Document := {
  getElementById : list N -> option Box;
  select : list N -> completion (option Box)
}.

(** [document.querySelector(sel)]: the empty selector is invalid. *)
Definition querySelector (d : Document) (sel : jsstring)
  : completion (option Box) :=
  match sel with
  | [] => Throw SyntaxError
  | _ :: _ => select d sel
  end.

Inductive LinkListener := OnClickNav | OnClickClose.
Inductive ScrollListener := OnScrollHeader | OnScrollActive.

(** An element of [querySelectorAll(".nav-link")].  By the document
    contract every navigation link has an href attribute. *)
Record NavLink := {
  href : list N;
  classList : ClassList.t;
  listeners : list LinkListener
}.

Record MobileToggle := {
  ariaExpanded : option (list N);
  mt_listeners : nat
}.

Record State := {
  doc : Document;
  scrollY : Z;                            (* window.scrollY *)
  header : option ClassList.t;            (* querySelector(".header") *)
  navLinks : list NavLink;
  mobileToggle : option MobileToggle;     (* getElementById("mobile-toggle") *)
  navMenu : option ClassList.t;           (* querySelector(".nav-links") *)
  scrollListeners : list ScrollListener;  (* on window *)
  defaultPrevented : bool;                (* of the event being dispatched *)
  scrolledTo : list (list N)              (* scrollIntoView calls, by selector *)
}.

Definition set_scrollY (v : Z) (s : State) : State :=
  {| doc := doc s; scrollY := v; header := header s; navLinks := navLinks s;
     mobileToggle := mobileToggle s; navMenu := navMenu s;
     scrollListeners := scrollListeners s;
     defaultPrevented := defaultPrevented s; scrolledTo := scrolledTo s |}.
Definition set_header (v : option ClassList.t) (s : State) : State :=
  {| doc := doc s; scrollY := scrollY s; header := v; navLinks := navLinks s;
     mobileToggle := mobileToggle s; navMenu := navMenu s;
     scrollListeners := scrollListeners s;
     defaultPrevented := defaultPrevented s; scrolledTo := scrolledTo s |}.
Definition set_navLinks (v : list NavLink) (s : State) : State :=
  {| doc := doc s; scrollY := scrollY s; header := header s; navLinks := v;
     mobileToggle := mobileToggle s; navMenu := navMenu s;
     scrollListeners := scrollListeners s;
     defaultPrevented := defaultPrevented s; scrolledTo := scrolledTo s |}.
Definition set_mobileToggle (v : option MobileToggle) (s : State) : State :=
  {| doc := doc s; scrollY := scrollY s; header := header s;
     navLinks := navLinks s; mobileToggle := v; navMenu := navMenu s;
     scrollListeners := scrollListeners s;
     defaultPrevented := defaultPrevented s; scrolledTo := scrolledTo s |}.
Definition set_navMenu (v : option ClassList.t) (s : State) : State :=
  {| doc := doc s; scrollY := scrollY s; header := header s;
     navLinks := navLinks s; mobileToggle := mobileToggle s; navMenu := v;
     scrollListeners := scrollListeners s;
     defaultPrevented := defaultPrevented s; scrolledTo := scrolledTo s |}.
Definition set_scrollListeners (v : list ScrollListener) (s : State) : State :=
  {| doc := doc s; scrollY := scrollY s; header := header s;
     navLinks := navLinks s; mobileToggle := mobileToggle s;
     navMenu := navMenu s; scrollListeners := v;
     defaultPrevented := defaultPrevented s; scrolledTo := scrolledTo s |}.
Definition set_defaultPrevented (v : bool) (s : State) : State :=
  {| doc := doc s; scrollY := scrollY s; header := header s;
     navLinks := navLinks s; mobileToggle := mobileToggle s;
     navMenu := navMenu s; scrollListeners := scrollListeners s;
     defaultPrevented := v; scrolledTo := scrolledTo s |}.
Definition set_scrolledTo (v : list (list N)) (s : State) : State :=
  {| doc := doc s; scrollY := scrollY s; header := header s;
     navLinks := navLinks s; mobileToggle := mobileToggle s;
     navMenu := navMenu s; scrollListeners := scrollListeners s;
     defaultPrevented := defaultPrevented s; scrolledTo := v |}.

Definition set_classList (c : ClassList.t) (l : NavLink) : NavLink :=
  {| href := href l; classList := c; listeners := listeners l |}.
Definition add_listener (h : LinkListener) (l : NavLink) : NavLink :=
  {| href := href l; classList := classList l;
     listeners := listeners l ++ [h] |}.

(** [scrollPos >= offsetTop && scrollPos < offsetTop + offsetHeight] *)
Definition contains_pos (b : Box) (scrollPos : Z) : bool :=
  (offsetTop b <=? scrollPos) && (scrollPos <? offsetTop b + offsetHeight b).

(** Body of the forEach callback in the scroll branch of
    updateActiveLink. *)
Definition mark_by_scroll (d : Document) (scrollPos : Z) (link : NavLink)
  : NavLink :=
  let c := ClassList.remove (classList link) active in
  let targetId := tail (href link) in            (* substring(1) *)
  match getElementById d targetId with
  | Some targetSection =>
      if contains_pos targetSection scrollPos
      then set_classList (ClassList.add c active) link
      else set_classList c link
  | None => set_classList c link
  end.

(** Body of the forEach callback in the href branch. *)
Definition mark_by_href (h : jsstring) (link : NavLink) : NavLink :=
  let c := ClassList.remove (classList link) active in
  if str_eqb (href link) h
  then set_classList (ClassList.add c active) link
  else set_classList c link.

(** [updateActiveLink(href = null)]; [!href] holds for [null] and for
    the empty string.  Each callback touches its own link only, so the
    loop is a map over the link list. *)
Definition updateActiveLink (h : option (list N)) : M State unit :=
  match h with
  | Some (c :: r) =>
      modify (fun s => set_navLinks (mark_by_href (c :: r) <$> navLinks s) s)
  | _ =>
      modify (fun s =>
        let scrollPos := scrollY s + 100 in
        set_navLinks (mark_by_scroll (doc s) scrollPos <$> navLinks s) s)
  end.

(** [handleNavClick(e)] for a click whose [currentTarget] is the link
    at index [i] (an index outside the list is no event at all). *)
Definition handleNavClick (i : nat) : M State unit :=
  fun s =>
    match navLinks s !! i with
    | None => (s, Normal tt)
    | Some link =>
        (modify (set_defaultPrevented true) ;;;
         let h := href link in
         target <- (fun s => (s, querySelector (doc s) h)) ;;
         match target with
         | Some _ =>
             modify (fun s => set_scrolledTo (scrolledTo s ++ [h]) s) ;;;
             updateActiveLink (Some h)
         | None => ret tt
         end) s
    end.

Definition toggleMobileMenu : M State unit :=
  fun s =>
    match mobileToggle s with
    | None => (s, Throw TypeError)
    | Some t =>
        let isExpanded :=
          match ariaExpanded t with
          | Some v => str_eqb v (js "true")
          | None => false
          end in
        let s1 := set_mobileToggle
                    (Some {| ariaExpanded :=
                               Some (if negb isExpanded then js "true"
                                     else js "false");
                             mt_listeners := mt_listeners t |}) s in
        match navMenu s1 with
        | None => (s1, Throw TypeError)
        | Some c =>
            (set_navMenu (Some (ClassList.toggle c mobile_open)) s1, Normal tt)
        end
    end.

Definition closeMobileMenu : M State unit :=
  fun s =>
    match mobileToggle s with
    | None => (s, Throw TypeError)
    | Some t =>
        let s1 := set_mobileToggle
                    (Some {| ariaExpanded := Some (js "false");
                             mt_listeners := mt_listeners t |}) s in
        match navMenu s1 with
        | None => (s1, Throw TypeError)
        | Some c =>
            (set_navMenu (Some (ClassList.remove c mobile_open)) s1, Normal tt)
        end
    end.

Definition updateHeaderOnScroll : M State unit :=
  fun s =>
    match header s with
    | None => (s, Throw TypeError)
    | Some c =>
        if 50 <? scrollY s
        then (set_header (Some (ClassList.add c scrolled)) s, Normal tt)
        else (set_header (Some (ClassList.remove c scrolled)) s, Normal tt)
    end.

Definition init : M State unit :=
  modify (fun s => set_navLinks (add_listener OnClickNav <$> navLinks s) s) ;;;
  (fun s => match mobileToggle s with
            | None => (s, Throw TypeError)
            | Some t =>
                (set_mobileToggle
                   (Some {| ariaExpanded := ariaExpanded t;
                            mt_listeners := S (mt_listeners t) |}) s,
                 Normal tt)
            end) ;;;
  modify (fun s => set_navLinks (add_listener OnClickClose <$> navLinks s) s) ;;;
  modify (fun s => set_scrollListeners (scrollListeners s ++ [OnScrollHeader]) s) ;;;
  modify (fun s => set_scrollListeners (scrollListeners s ++ [OnScrollActive]) s).

(** [new NavigationManager()]: the four lookups are the fields of the
    state; the constructor then runs [init]. *)
Definition construct (s : State) : State * completion unit := init s.

(** Event dispatch: the listeners run in registration order; an
    exception raised by one is reported and does not stop the next. *)
Fixpoint dispatch (hs : list (M State unit)) (s : State) : State * list exn :=
  match hs with
  | [] => (s, [])
  | h :: r =>
      match h s with
      | (s', Normal _) => dispatch r s'
      | (s', Throw e) => let '(s'', es) := dispatch r s' in (s'', e :: es)
      end
  end.

Definition link_handler (i : nat) (l : LinkListener) : M State unit :=
  match l with
  | OnClickNav => handleNavClick i
  | OnClickClose => closeMobileMenu
  end.

Definition scroll_handler (l : ScrollListener) : M State unit :=
  match l with
  | OnScrollHeader => updateHeaderOnScroll
  | OnScrollActive => updateActiveLink None
  end.

(** A click on the link at index [i]. *)
Definition click_link (i : nat) (s : State) : State * list exn :=
  match navLinks s !! i with
  | None => (s, [])
  | Some link =>
      dispatch (map (link_handler i) (listeners link))
               (set_defaultPrevented false s)
  end.

(** A scroll event after the viewport moved to offset [y]. *)
Definition scroll_to (y : Z) (s : State) : State * list exn :=
  dispatch (map scroll_handler (scrollListeners s)) (set_scrollY y s).

(** The link carries the active class. *)
Definition is_active (l : NavLink) : bool :=
  ClassList.contains (classList l) active.

(** The link's target section exists and contains the probe point. *)
Definition target_contains (d : Document) (p : Z) (l : NavLink) : bool :=
  match getElementById d (tail (href l)) with
  | Some b => contains_pos b p
  | None => false
  end.

(** A sample document that knows its elements by id and understands
    the selectors [#id]. *)
Definition lookup_id (els : list (list N * Box)) (id : jsstring) : option Box :=
  match id with
  | [] => None
  | _ :: _ => snd <$> List.find (fun e => str_eqb (fst e) id) els
  end.

Definition doc_of (els : list (list N * Box)) : Document :=
  {| getElementById := lookup_id els;
     select := fun sel =>
       match sel with
       | 35%N :: c :: r => Normal (lookup_id els (c :: r))
       | _ => Throw SyntaxError
       end |}.

Definition plain_link (h : jsstring) : NavLink :=
  {| href := h; classList := [js "nav-link"]; listeners := [] |}.

Definition about_box : Box := {| offsetTop := 0; offsetHeight := 1000 |}.
Definition skills_box : Box := {| offsetTop := 50; offsetHeight := 1000 |}.

Definition page_of (els : list (list N * Box)) (links : list NavLink) (y : Z)
  : State :=
  {| doc := doc_of els; scrollY := y; header := Some [js "header"];
     navLinks := links;
     mobileToggle := Some {| ariaExpanded := Some (js "false");
                             mt_listeners := 0 |};
     navMenu := Some [js "nav-links"];
     scrollListeners := []; defaultPrevented := false; scrolledTo := [] |}.

(** The class list updateHeaderOnScroll gives a header whose class list
    is [c], at scroll offset [y]. *)
Definition header_classes (c : ClassList.t) (y : Z) : ClassList.t :=
  if 50 <? y then ClassList.add c scrolled else ClassList.remove c scrolled.

(** Two links whose target sections overlap around the probe point. *)
Definition overlap_page : State :=
  page_of [(js "about", about_box); (js "skills", skills_box)]
          [plain_link (js "#about"); plain_link (js "#skills")] 0.

(** A link whose target is not in the document. *)
Definition dangling_page : State :=
  page_of [(js "about", about_box)] [plain_link (js "#contact")] 0.

(** A link whose target is in the document but far from the viewport. *)
Definition far_page : State :=
  page_of [(js "about", about_box);
           (js "contact", {| offsetTop := 5000; offsetHeight := 800 |})]
          [plain_link (js "#about"); plain_link (js "#contact")] 0.

End NavigationManager.

(* ================================================================== *)
(** ** INTERSECTION OBSERVERS                                          *)
(* ================================================================== *)

(** An IntersectionObserverEntry, as far as the callbacks read it.  An
    element is named by a number: for the section animator, its index in
    [querySelectorAll("section")].  The options of an observer (the
    threshold 0.1 of the section animator) bear on when the platform
    reports a target as intersecting, not on what the callback does. *)
Record Entry := { target : nat; isIntersecting : bool }.

(** The entries of one callback invocation that the platform produces:
    only observed targets generate entries. *)
Definition observed_entries (observed : gset nat) (batch : list Entry)
  : list Entry :=
  filter (fun e => target e ∈ observed) batch.

(** Element [x] is reported as intersecting somewhere in the batches. *)
Definition reported (x : nat) (batches : list (list Entry)) : Prop :=
  exists batch e, batch ∈ batches /\ e ∈ batch /\
                  target e = x /\ isIntersecting e = true.

Abbreviation intersecting := (fun e : Entry => isIntersecting e = true).

(** A batch reports no element as intersecting twice. *)
Definition batch_ok (batch : list Entry) : Prop :=
  NoDup (target <$> filter intersecting batch).

(** How many entries of a batch report element [x] as intersecting. *)
Definition intersections (x : nat) (batch : list Entry) : nat :=
  length (filter (fun e => target e = x /\ isIntersecting e = true) batch).

(** The number of such entries in the first batch that has any. *)
Fixpoint first_report (x : nat) (batches : list (list Entry)) : nat :=
  match batches with
  | [] => 0
  | batch :: rest =>
      match intersections x batch with
      | O => first_report x rest
      | S k => S k
      end
  end.

(* ================================================================== *)
(** ** SKILL ANIMATIONS                                                *)
(* ================================================================== *)

Module SkillAnimator.

(** A ".skill-progress" bar: its inline width and the custom property
    the animation sets. *)
Record Bar := {
  width : list N;                   (* bar.style.width *)
  skillWidth : option (list N)      (* --skill-width *)
}.

Record Page := {
  p_skillBars : list Bar;
  p_skillsSection : option nat      (* getElementById("skills") *)
}.

Record State := {
  skillBars : list Bar;
  hasAnimated : bool;
  observed : gset nat;              (* targets of the observer *)
  timers : list (Z * nat);          (* pending: delay in ms, bar index *)
  animateCalls : nat                (* invocations of animateSkills *)
}.

(** [animateSkills()]: one timer per bar, [index * 100] ms away. *)
Definition animateSkills (s : State) : State :=
  {| skillBars := skillBars s;
     hasAnimated := hasAnimated s;
     observed := observed s;
     timers := timers s ++
               imap (fun index _ => (Z.of_nat index * 100, index))
                    (skillBars s);
     animateCalls := S (animateCalls s) |}.

(** [style.setProperty("--skill-width", value)], as the value the
    property holds afterwards: the empty string removes the declaration,
    whatever it was.  The values passed here are read from
    [bar.style.width]: the empty string when the inline style declares no
    width, and otherwise the serialization of a width, which a custom
    property takes as it is. *)
Definition setProperty (value : list N) : option (list N) :=
  match value with
  | [] => None
  | _ :: _ => Some value
  end.

(** The body a timer runs for the bar at [index]. *)
Definition timer_body (index : nat) (s : State) : State :=
  match skillBars s !! index with
  | None => s
  | Some bar =>
      {| skillBars :=
           <[index := {| width := width bar;
                         skillWidth := setProperty (width bar) |}]>
             (skillBars s);
         hasAnimated := hasAnimated s;
         observed := observed s;
         timers := timers s;
         animateCalls := animateCalls s |}
  end.

(** The forEach callback of the observer. *)
Definition on_entry (entry : Entry) (s : State) : State :=
  if isIntersecting entry && negb (hasAnimated s) then
    let s1 := animateSkills s in
    {| skillBars := skillBars s1;
       hasAnimated := true;
       observed := observed s1 ∖ {[ target entry ]};
       timers := timers s1;
       animateCalls := animateCalls s1 |}
  else s.

(** The observer callback on the entries of one invocation. *)
Definition callback (entries : list Entry) (s : State) : State :=
  foldl (fun s entry => on_entry entry s) s entries.

(** [new SkillAnimator()] *)
Definition construct (p : Page) : State :=
  {| skillBars := p_skillBars p;
     hasAnimated := false;
     observed := match p_skillsSection p with
                 | Some skillsSection => {[ skillsSection ]}
                 | None => ∅
                 end;
     timers := [];
     animateCalls := 0 |}.

(** The platform notifies the observer. *)
Definition notify (batch : list Entry) (s : State) : State :=
  callback (observed_entries (observed s) batch) s.

Definition run (batches : list (list Entry)) (s : State) : State :=
  foldl (fun s batch => notify batch s) s batches.

(** All pending timers come due and run, in the order of their delays
    (the order they were set in). *)
Definition run_timers (s : State) : State :=
  foldl (fun s t => timer_body (snd t) s)
        {| skillBars := skillBars s; hasAnimated := hasAnimated s;
           observed := observed s; timers := [];
           animateCalls := animateCalls s |}
        (timers s).

(** A bar once its timer has run. *)
Definition filled (bar : Bar) : Bar :=
  {| width := width bar; skillWidth := setProperty (width bar) |}.

End SkillAnimator.

(* ================================================================== *)
(** ** SECTION ANIMATIONS                                              *)
(* ================================================================== *)

Module SectionAnimator.

Definition slideInUp : list N := js "slideInUp 0.8s ease-out forwards".

Record State := {
  sections : list (option (list N));  (* style.animation of each section *)
  observed : gset nat;
  animated : list nat                 (* targets whose animation was set,
                                         one item per assignment *)
}.

(** The forEach callback of the observer.  The target of an entry is an
    observed section, so the index is in range. *)
Definition on_entry (entry : Entry) (s : State) : State :=
  if isIntersecting entry then
    {| sections := <[target entry := Some slideInUp]> (sections s);
       observed := observed s ∖ {[ target entry ]};
       animated := animated s ++ [target entry] |}
  else s.

Definition callback (entries : list Entry) (s : State) : State :=
  foldl (fun s entry => on_entry entry s) s entries.

(** [new SectionAnimator()]: every section is observed. *)
Definition construct (secs : list (option (list N))) : State :=
  {| sections := secs;
     observed := foldl (fun o section => o ∪ {[ section ]}) ∅
                       (seq 0 (length secs));
     animated := [] |}.

Definition notify (batch : list Entry) (s : State) : State :=
  callback (observed_entries (observed s) batch) s.

Definition run (batches : list (list Entry)) (s : State) : State :=
  foldl (fun s batch => notify batch s) s batches.

(** Number of times the animation of section [x] was set. *)
Definition invocations (x : nat) (s : State) : nat :=
  length (filter (fun y => y = x) (animated s)).

End SectionAnimator.

(** ** Sample observer runs *)

(** A concrete run: two sections, the first one reported as
    intersecting in three separate notifications; a skills section
    (element 7) reported twice. *)
Definition sample_sections : list (option (list N)) := [None; None].
Definition sample_section_batches : list (list Entry) :=
  [ [ {| target := 0; isIntersecting := true |};
      {| target := 1; isIntersecting := false |} ];
    [ {| target := 0; isIntersecting := true |} ];
    [ {| target := 1; isIntersecting := true |};
      {| target := 0; isIntersecting := true |} ] ].
Definition sample_skill_page : SkillAnimator.Page :=
  {| SkillAnimator.p_skillBars :=
       [ {| SkillAnimator.width := js "90%";
            SkillAnimator.skillWidth := None |} ];
     SkillAnimator.p_skillsSection := Some 7%nat |}.
(** The same page with a second bar that has no inline width and a
    --skill-width left over. *)
Definition mixed_skill_page : SkillAnimator.Page :=
  {| SkillAnimator.p_skillBars :=
       [ {| SkillAnimator.width := js "90%";
            SkillAnimator.skillWidth := None |};
         {| SkillAnimator.width := [];
            SkillAnimator.skillWidth := Some (js "30%") |} ];
     SkillAnimator.p_skillsSection := Some 7%nat |}.
Definition sample_skill_batches : list (list Entry) :=
  [ [ {| target := 7; isIntersecting := false |} ];
    [ {| target := 7; isIntersecting := true |} ];
    [ {| target := 7; isIntersecting := true |} ] ].

(* ================================================================== *)
(** ** STRINGS: trim, and regular expressions                          *)
(* ================================================================== *)

(** The code units JavaScript counts as white space, for
    [String.prototype.trim] and for the class escape [\s] alike: the
    WhiteSpace and LineTerminator productions (TAB, LF, VT, FF, CR, SP,
    NBSP, U+1680, U+2000..U+200A, LS, PS, U+202F, U+205F, U+3000,
    U+FEFF). *)
Definition is_space (c : N) : bool :=
  ((9 <=? c) && (c <=? 13) || (c =? 32) || (c =? 160) || (c =? 5760)
   || (8192 <=? c) && (c <=? 8202) || (c =? 8232) || (c =? 8233)
   || (c =? 8239) || (c =? 8287) || (c =? 12288) || (c =? 65279))%N.

Fixpoint trimStart (s : list N) : list N :=
  match s with
  | [] => []
  | c :: r => if is_space c then trimStart r else s
  end.

Definition trimEnd (s : list N) : list N := rev (trimStart (rev s)).

(** [s.trim()] *)
Definition trim (s : list N) : list N := trimEnd (trimStart s).

Module Regex.

(** Patterns over code units; a character class is its membership
    test. *)
Inductive t : Type :=
  | Empty                       (* matches nothing *)
  | Eps                         (* matches the empty string *)
  | Class (p : N -> bool)
  | Seq (a b : t)
  | Alt (a b : t)
  | Star (a : t).

Definition Char (c : N) : t := Class (N.eqb c).
Definition Plus (a : t) : t := Seq a (Star a).

(** The strings a pattern matches as a whole. *)
Inductive lang : t -> list N -> Prop :=
  | lang_eps : lang Eps []
  | lang_class p c : p c = true -> lang (Class p) [c]
  | lang_seq a b u v : lang a u -> lang b v -> lang (Seq a b) (u ++ v)
  | lang_alt_l a b u : lang a u -> lang (Alt a b) u
  | lang_alt_r a b u : lang b u -> lang (Alt a b) u
  | lang_star_nil a : lang (Star a) []
  | lang_star_more a u v :
      lang a u -> lang (Star a) v -> lang (Star a) (u ++ v).

Fixpoint nullable (r : t) : bool :=
  match r with
  | Empty => false
  | Eps => true
  | Class _ => false
  | Seq a b => nullable a && nullable b
  | Alt a b => nullable a || nullable b
  | Star _ => true
  end.

(** The pattern for what may follow a first code unit [c]. *)
Fixpoint deriv (c : N) (r : t) : t :=
  match r with
  | Empty => Empty
  | Eps => Empty
  | Class p => if p c then Eps else Empty
  | Seq a b =>
      if nullable a then Alt (Seq (deriv c a) b) (deriv c b)
      else Seq (deriv c a) b
  | Alt a b => Alt (deriv c a) (deriv c b)
  | Star a => Seq (deriv c a) (Star a)
  end.

(** [/^r$/.test(s)]: the whole string has to match. *)
Fixpoint test (r : t) (s : list N) : bool :=
  match s with
  | [] => nullable r
  | c :: s' => test (deriv c r) s'
  end.

End Regex.

(* ================================================================== *)
(** ** FORM HANDLING                                                   *)
(* ================================================================== *)

Module FormHandler.

(** A value of the expression validateForm returns: a string or a
    boolean. *)
Inductive jsval := VStr (s : list N) | VBool (b : bool).

Definition truthy (v : jsval) : bool :=
  match v with
  | VStr s => str_truthy s
  | VBool b => b
  end.

(** [a && b] *)
Definition js_and (a b : jsval) : jsval := if truthy a then b else a.

(** [[^\s@]] *)
Definition not_space_at (c : N) : bool := negb (is_space c || (c =? 64)%N).

(** [/^[^\s@]+@[^\s@]+\.[^\s@]+$/] *)
Definition emailRegex : Regex.t :=
  Regex.Seq (Regex.Plus (Regex.Class not_space_at))
    (Regex.Seq (Regex.Char 64)
       (Regex.Seq (Regex.Plus (Regex.Class not_space_at))
          (Regex.Seq (Regex.Char 46)
             (Regex.Plus (Regex.Class not_space_at))))).

(** A text control of the form. *)
Record Control := {
  c_name : list N;
  defaultValue : list N;
  value : list N
}.

Record Form := {
  action : option (list N);       (* getAttribute("action") *)
  controls : list Control;        (* in tree order *)
  submitListeners : nat
}.

Record StatusEl := {
  textContent : list N;
  className : list N
}.

Record Request := {
  url : option (list N);
  method : list N;
  body : list (list N * list N);  (* the FormData entries *)
  accept : list N
}.

Record State := {
  form : option Form;             (* getElementById("contact-form") *)
  formStatus : option StatusEl;   (* getElementById("form-status") *)
  now : Z;                        (* clock, in ms *)
  timers : list Z;                (* due times of the pending status timers *)
  posts : list Request;           (* requests handed to fetch *)
  defaultPrevented : bool         (* of the submit event being dispatched *)
}.

Definition set_form (v : option Form) (s : State) : State :=
  {| form := v; formStatus := formStatus s; now := now s;
     timers := timers s; posts := posts s;
     defaultPrevented := defaultPrevented s |}.
Definition set_formStatus (v : option StatusEl) (s : State) : State :=
  {| form := form s; formStatus := v; now := now s;
     timers := timers s; posts := posts s;
     defaultPrevented := defaultPrevented s |}.
Definition set_now (v : Z) (s : State) : State :=
  {| form := form s; formStatus := formStatus s; now := v;
     timers := timers s; posts := posts s;
     defaultPrevented := defaultPrevented s |}.
Definition set_timers (v : list Z) (s : State) : State :=
  {| form := form s; formStatus := formStatus s; now := now s;
     timers := v; posts := posts s;
     defaultPrevented := defaultPrevented s |}.
Definition set_posts (v : list Request) (s : State) : State :=
  {| form := form s; formStatus := formStatus s; now := now s;
     timers := timers s; posts := v;
     defaultPrevented := defaultPrevented s |}.
Definition set_defaultPrevented (v : bool) (s : State) : State :=
  {| form := form s; formStatus := formStatus s; now := now s;
     timers := timers s; posts := posts s;
     defaultPrevented := v |}.

(** [form.querySelector('[name="n"]')]: the first control named [n]. *)
Definition control_named (n : jsstring) (f : Form) : option Control :=
  List.find (fun c => str_eqb (c_name c) n) (controls f).

(** [this.form.querySelector('[name="n"]').value.trim()] *)
Definition read_field (n : jsstring) (o : option Form) : completion (list N) :=
  match o with
  | None => Throw TypeError
  | Some f =>
      match control_named n f with
      | None => Throw TypeError
      | Some c => Normal (trim (value c))
      end
  end.

Definition field (n : jsstring) : M State (list N) :=
  fun s => (s, read_field n (form s)).

Definition validateForm : M State jsval :=
  name <- field (js "name") ;;
  email <- field (js "email") ;;
  subject <- field (js "subject") ;;
  message <- field (js "message") ;;
  ret (js_and (js_and (js_and (js_and (VStr name) (VStr email))
                         (VBool (Regex.test emailRegex email)))
                 (VStr subject))
         (VStr message)).

Definition neutral : list N := js "form-status".
Definition msg_invalid : list N := js "Please fill in all fields correctly".
Definition msg_sent : list N :=
  js "Message sent successfully! I'll get back to you soon.".
Definition msg_failed : list N := js "Failed to send message. Please try again.".
Definition ty_error : list N := js "error".
Definition ty_success : list N := js "success".

Definition showStatus (message type : jsstring) : M State unit :=
  fun s =>
    match formStatus s with
    | None => (s, Throw TypeError)
    | Some _ =>
        (set_timers (timers s ++ [now s + 5000])
           (set_formStatus
              (Some {| textContent := message;
                       className := js "form-status " ++ type |}) s),
         Normal tt)
    end.

(** The callback of the status timer. *)
Definition timer_body (s : State) : State :=
  match formStatus s with
  | None => s
  | Some st =>
      set_formStatus
        (Some {| textContent := textContent st; className := neutral |}) s
  end.

(** [new FormData(form)]: one entry per named control, in tree order. *)
Definition formData (f : Form) : list (list N * list N) :=
  (fun c => (c_name c, value c)) <$>
  filter (fun c => c_name c <> []) (controls f).

(** [form.reset()]: every control goes back to its default value. *)
Definition reset (f : Form) : Form :=
  {| action := action f;
     controls := (fun c => {| c_name := c_name c;
                              defaultValue := defaultValue c;
                              value := defaultValue c |}) <$> controls f;
     submitListeners := submitListeners f |}.

(** [submitForm()] up to the point where fetch has been called. *)
Definition submitForm : M State unit :=
  fun s =>
    match form s with
    | None => (s, Throw TypeError)
    | Some f =>
        (set_posts (posts s ++
                    [{| url := action f; method := js "POST";
                        body := formData f;
                        accept := js "application/json" |}]) s,
         Normal tt)
    end.

(** The request submitForm hands to fetch, spelled out. *)
Definition post_of (f : Form) : Request :=
  {| url := action f; method := js "POST";
     body := (fun c => (c_name c, value c)) <$>
             filter (fun c => c_name c <> []) (controls f);
     accept := js "application/json" |}.

(** How a fetch settles. *)
Inductive Outcome :=
  | Responded (ok : bool)      (* a response arrived; [response.ok] *)
  | Failed.                    (* the request itself failed *)

(** The [.then] callback. *)
Definition on_response (ok : bool) : M State unit :=
  if ok then
    showStatus msg_sent ty_success ;;;
    (fun s => match form s with
              | None => (s, Throw TypeError)
              | Some f => (set_form (Some (reset f)) s, Normal tt)
              end)
  else throw (Error (js "Form submission failed")).

(** The promise chain of submitForm, run when the fetch settles. *)
Definition settle (o : Outcome) : M State unit :=
  catch
    (match o with
     | Responded ok => on_response ok
     | Failed => throw TypeError
     end)
    (fun _ => showStatus msg_failed ty_error).

Definition handleSubmit : M State unit :=
  modify (set_defaultPrevented true) ;;;
  v <- validateForm ;;
  if negb (truthy v) then showStatus msg_invalid ty_error
  else submitForm.

(** [init()] *)
Definition init : M State unit :=
  fun s =>
    match form s with
    | Some f =>
        (set_form (Some {| action := action f; controls := controls f;
                           submitListeners := S (submitListeners f) |}) s,
         Normal tt)
    | None => (s, Normal tt)
    end.

(** [new FormHandler()] *)
Definition construct (s : State) : State * completion unit := init s.

(** The clock moves on by [dt] ms; the timers that have come due run. *)
Definition advance (dt : Z) (s : State) : State :=
  let t := now s + dt in
  let due := filter (fun d => d <= t) (timers s) in
  let s1 := set_now t (set_timers (filter (fun d => ~ d <= t) (timers s)) s) in
  foldl (fun s _ => timer_body s) s1 due.

(** The four fields the way the specification words the validity of a
    submission: each non-empty after trimming, and the trimmed email
    without white space, with exactly one '@' and at least one '.' after
    it. *)
Definition count_at (s : list N) : nat :=
  length (filter (fun c => c = 64%N) s).

Fixpoint after_at (s : list N) : list N :=
  match s with
  | [] => []
  | c :: r => if (c =? 64)%N then r else after_at r
  end.

Definition spec_email (e : list N) : Prop :=
  Forall (fun c => is_space c = false) e /\
  count_at e = 1%nat /\
  46%N ∈ after_at e.

Definition spec_valid (name email subject message : list N) : Prop :=
  trim name <> [] /\ trim email <> [] /\ trim subject <> [] /\
  trim message <> [] /\ spec_email (trim email).

(** What the pattern asks of the trimmed email: local part, '@', a
    domain part, '.', a last part, each non-empty and free of white
    space and '@'. *)
Definition email_shape (e : list N) : Prop :=
  exists l d t,
    e = l ++ [64%N] ++ d ++ [46%N] ++ t /\
    l <> [] /\ d <> [] /\ t <> [] /\
    Forall (fun c => not_space_at c = true) l /\
    Forall (fun c => not_space_at c = true) d /\
    Forall (fun c => not_space_at c = true) t.

(** The form with every control's value replaced by its trimmed value. *)
Definition trimmed (f : Form) : Form :=
  {| action := action f;
     controls := (fun c => {| c_name := c_name c;
                              defaultValue := defaultValue c;
                              value := trim (value c) |}) <$> controls f;
     submitListeners := submitListeners f |}.

(** The verdict handleSubmit draws from validateForm. *)
Definition passes (s : State) : bool :=
  match validateForm s with
  | (_, Normal v) => truthy v
  | (_, Throw _) => false
  end.

(** A contact form with the four fields and no default values. *)
Definition contact_form (name email subject message : list N) : Form :=
  {| action := Some (js "https://example.org/contact");
     controls :=
       [ {| c_name := js "name"; defaultValue := []; value := name |};
         {| c_name := js "email"; defaultValue := []; value := email |};
         {| c_name := js "subject"; defaultValue := []; value := subject |};
         {| c_name := js "message"; defaultValue := []; value := message |} ];
     submitListeners := 0 |}.

(** A contact form whose markup gives the name field a default value. *)
Definition prefilled_form : Form :=
  {| action := Some (js "https://example.org/contact");
     controls :=
       [ {| c_name := js "name"; defaultValue := js "Your name";
            value := js "Ada" |};
         {| c_name := js "email"; defaultValue := []; value := js "a@b.com" |};
         {| c_name := js "subject"; defaultValue := []; value := js "s" |};
         {| c_name := js "message"; defaultValue := []; value := js "m" |} ];
     submitListeners := 0 |}.

(** A form that has a name field only. *)
Definition name_only_form : Form :=
  {| action := None;
     controls := [ {| c_name := js "name"; defaultValue := [];
                      value := js "A" |} ];
     submitListeners := 0 |}.

Definition page_of (f : Form) : State :=
  {| form := Some f;
     formStatus := Some {| textContent := []; className := neutral |};
     now := 0; timers := []; posts := []; defaultPrevented := false |}.

End FormHandler.

(* ================================================================== *)
(** ** SMOOTH SCROLL HELPER and LAZY LOADING                           *)
(* ================================================================== *)

Module SmoothScroll.

Record Anchor := { a_href : list N; a_clickListeners : nat }.

Record State := {
  scrollBehaviorSupported : bool;   (* "scrollBehavior" in documentElement.style *)
  anchors : list Anchor             (* querySelectorAll('a[href^="#"]') *)
}.

Definition polyfill (s : State) : State :=
  {| scrollBehaviorSupported := scrollBehaviorSupported s;
     anchors := (fun a => {| a_href := a_href a;
                             a_clickListeners := S (a_clickListeners a) |})
                <$> anchors s |}.

Definition init (s : State) : State :=
  if negb (scrollBehaviorSupported s) then polyfill s else s.

(** [new SmoothScroll()] *)
Definition construct (s : State) : State := init s.

(** The click event a fallback listener handles. *)
Record Click := {
  defaultPrevented : bool;
  scrolledTo : list (list N)        (* scrollIntoView calls, by selector *)
}.

Definition fresh_click : Click :=
  {| defaultPrevented := false; scrolledTo := [] |}.

(** The listener [polyfill] registers, on an anchor whose href is [h],
    in a document [d]. *)
Definition on_click (d : NavigationManager.Document) (h : jsstring)
  : M Click unit :=
  if negb (str_eqb h (js "#")) then
    modify (fun c => {| defaultPrevented := true;
                        scrolledTo := scrolledTo c |}) ;;;
    target <- (fun c => (c, NavigationManager.querySelector d h)) ;;
    match target with
    | Some _ =>
        modify (fun c => {| defaultPrevented := defaultPrevented c;
                            scrolledTo := scrolledTo c ++ [h] |})
    | None => ret tt
    end
  else ret tt.

End SmoothScroll.

Module LazyLoader.

Record Img := {
  loading : option (list N);
  src : option (list N);
  dataSrc : option (list N)         (* img.dataset.src *)
}.

Record State := {
  nativeLazy : bool;                (* "loading" in HTMLImageElement.prototype *)
  images : list Img;                (* querySelectorAll("img[loading='lazy']") *)
  observed : gset nat               (* indices the fallback observer watches *)
}.

Definition polyfill (s : State) : State :=
  {| nativeLazy := nativeLazy s;
     images := images s;
     observed := foldl (fun o img => o ∪ {[ img ]}) (observed s)
                       (seq 0 (length (images s))) |}.

Definition init (s : State) : State :=
  if nativeLazy s then
    {| nativeLazy := nativeLazy s;
       images := (fun img => {| loading := Some (js "lazy"); src := src img;
                                dataSrc := dataSrc img |}) <$> images s;
       observed := observed s |}
  else polyfill s.

(** An image once the fallback observer has acted on it:
    [img.src = img.dataset.src] (the string "undefined" when there is no
    data-src attribute) and [img.removeAttribute("loading")]. *)
Definition swapped (img : Img) : Img :=
  {| loading := None;
     src := Some (match dataSrc img with
                  | Some v => v
                  | None => js "undefined"
                  end);
     dataSrc := dataSrc img |}.

(** The forEach callback of the fallback observer. *)
Definition on_entry (entry : Entry) (s : State) : State :=
  if isIntersecting entry then
    {| nativeLazy := nativeLazy s;
       images := alter swapped (target entry) (images s);
       observed := observed s ∖ {[ target entry ]} |}
  else s.

Definition callback (entries : list Entry) (s : State) : State :=
  foldl (fun s entry => on_entry entry s) s entries.

Definition notify (batch : list Entry) (s : State) : State :=
  callback (observed_entries (observed s) batch) s.

Definition run (batches : list (list Entry)) (s : State) : State :=
  foldl (fun s batch => notify batch s) s batches.

(** [new LazyLoader()] *)
Definition construct (s : State) : State := init s.

End LazyLoader.

(* ================================================================== *)
(** ** INITIALIZATION                                                  *)
(* ================================================================== *)

Module Boot.

(** The document as the seven constructors find it. *)
Record Document := {
  d_theme : ThemeManager.Page;
  d_nav : NavigationManager.State;
  d_skills : SkillAnimator.Page;
  d_sections : list (option (list N));
  d_form : FormHandler.State;
  d_smooth : SmoothScroll.State;
  d_lazy : LazyLoader.State
}.

(** What the handler has got to: the state each constructor left, for
    the constructors that ran, and whether the closing log line was
    written. *)
Record Loaded := {
  themeManager : option ThemeManager.State;
  navigationManager : option NavigationManager.State;
  skillAnimator : option SkillAnimator.State;
  sectionAnimator : option SectionAnimator.State;
  formHandler : option FormHandler.State;
  smoothScroll : option SmoothScroll.State;
  lazyLoader : option LazyLoader.State;
  logged : bool
}.

Definition nothing : Loaded :=
  {| themeManager := None; navigationManager := None; skillAnimator := None;
     sectionAnimator := None; formHandler := None; smoothScroll := None;
     lazyLoader := None; logged := false |}.

Definition set_themeManager (v : option ThemeManager.State) (l : Loaded) : Loaded :=
  {| themeManager := v; navigationManager := navigationManager l;
     skillAnimator := skillAnimator l; sectionAnimator := sectionAnimator l;
     formHandler := formHandler l; smoothScroll := smoothScroll l;
     lazyLoader := lazyLoader l; logged := logged l |}.
Definition set_navigationManager (v : option NavigationManager.State) (l : Loaded) : Loaded :=
  {| themeManager := themeManager l; navigationManager := v;
     skillAnimator := skillAnimator l; sectionAnimator := sectionAnimator l;
     formHandler := formHandler l; smoothScroll := smoothScroll l;
     lazyLoader := lazyLoader l; logged := logged l |}.
Definition set_skillAnimator (v : option SkillAnimator.State) (l : Loaded) : Loaded :=
  {| themeManager := themeManager l;
     navigationManager := navigationManager l; skillAnimator := v;
     sectionAnimator := sectionAnimator l; formHandler := formHandler l;
     smoothScroll := smoothScroll l; lazyLoader := lazyLoader l;
     logged := logged l |}.
Definition set_sectionAnimator (v : option SectionAnimator.State) (l : Loaded) : Loaded :=
  {| themeManager := themeManager l;
     navigationManager := navigationManager l;
     skillAnimator := skillAnimator l; sectionAnimator := v;
     formHandler := formHandler l; smoothScroll := smoothScroll l;
     lazyLoader := lazyLoader l; logged := logged l |}.
Definition set_formHandler (v : option FormHandler.State) (l : Loaded) : Loaded :=
  {| themeManager := themeManager l;
     navigationManager := navigationManager l;
     skillAnimator := skillAnimator l; sectionAnimator := sectionAnimator l;
     formHandler := v; smoothScroll := smoothScroll l;
     lazyLoader := lazyLoader l; logged := logged l |}.
Definition set_smoothScroll (v : option SmoothScroll.State) (l : Loaded) : Loaded :=
  {| themeManager := themeManager l;
     navigationManager := navigationManager l;
     skillAnimator := skillAnimator l; sectionAnimator := sectionAnimator l;
     formHandler := formHandler l; smoothScroll := v;
     lazyLoader := lazyLoader l; logged := logged l |}.
Definition set_lazyLoader (v : option LazyLoader.State) (l : Loaded) : Loaded :=
  {| themeManager := themeManager l;
     navigationManager := navigationManager l;
     skillAnimator := skillAnimator l; sectionAnimator := sectionAnimator l;
     formHandler := formHandler l; smoothScroll := smoothScroll l;
     lazyLoader := v; logged := logged l |}.
Definition set_logged (v : bool) (l : Loaded) : Loaded :=
  {| themeManager := themeManager l;
     navigationManager := navigationManager l;
     skillAnimator := skillAnimator l; sectionAnimator := sectionAnimator l;
     formHandler := formHandler l; smoothScroll := smoothScroll l;
     lazyLoader := lazyLoader l; logged := v |}.

Definition new_ThemeManager (d : Document) : M Loaded unit :=
  fun l =>
    let '(t, r) := ThemeManager.construct (d_theme d) in
    (set_themeManager (Some t) l, r).

Definition new_NavigationManager (d : Document) : M Loaded unit :=
  fun l =>
    let '(n, r) := NavigationManager.construct (d_nav d) in
    (set_navigationManager (Some n) l, r).

Definition new_SkillAnimator (d : Document) : M Loaded unit :=
  modify (set_skillAnimator (Some (SkillAnimator.construct (d_skills d)))).

Definition new_SectionAnimator (d : Document) : M Loaded unit :=
  modify (set_sectionAnimator
            (Some (SectionAnimator.construct (d_sections d)))).

Definition new_FormHandler (d : Document) : M Loaded unit :=
  fun l =>
    let '(f, r) := FormHandler.construct (d_form d) in
    (set_formHandler (Some f) l, r).

Definition new_SmoothScroll (d : Document) : M Loaded unit :=
  modify (set_smoothScroll (Some (SmoothScroll.construct (d_smooth d)))).

Definition new_LazyLoader (d : Document) : M Loaded unit :=
  modify (set_lazyLoader (Some (LazyLoader.construct (d_lazy d)))).

Definition console_log : M Loaded unit := modify (set_logged true).

(** The DOMContentLoaded handler. *)
Definition DOMContentLoaded (d : Document) : Loaded * completion unit :=
  (new_ThemeManager d ;;;
   new_NavigationManager d ;;;
   new_SkillAnimator d ;;;
   new_SectionAnimator d ;;;
   new_FormHandler d ;;;
   new_SmoothScroll d ;;;
   new_LazyLoader d ;;;
   console_log) nothing.

(** A document with every expected element. *)
Definition full_document : Document :=
  {| d_theme := ThemeManager.page_with None false;
     d_nav := NavigationManager.far_page;
     d_skills := {| SkillAnimator.p_skillBars :=
                      [ {| SkillAnimator.width := js "90%";
                           SkillAnimator.skillWidth := None |} ];
                    SkillAnimator.p_skillsSection := Some 2%nat |};
     d_sections := [None; None; None];
     d_form := FormHandler.page_of (FormHandler.contact_form [] [] [] []);
     d_smooth := {| SmoothScroll.scrollBehaviorSupported := true;
                    SmoothScroll.anchors := [] |};
     d_lazy := {| LazyLoader.nativeLazy := true; LazyLoader.images := [];
                  LazyLoader.observed := ∅ |} |}.

Definition with_theme (p : ThemeManager.Page) (d : Document) : Document :=
  {| d_theme := p; d_nav := d_nav d; d_skills := d_skills d;
     d_sections := d_sections d; d_form := d_form d; d_smooth := d_smooth d;
     d_lazy := d_lazy d |}.
Definition with_nav (n : NavigationManager.State) (d : Document) : Document :=
  {| d_theme := d_theme d; d_nav := n; d_skills := d_skills d;
     d_sections := d_sections d; d_form := d_form d; d_smooth := d_smooth d;
     d_lazy := d_lazy d |}.

(** The full document without the element with id "theme-toggle". *)
Definition without_theme_toggle : Document :=
  with_theme {| ThemeManager.p_localStorage := ∅;
                ThemeManager.p_dataTheme := None;
                ThemeManager.p_themeToggle := None;
                ThemeManager.p_prefersDark := false |} full_document.

(** The full document without the element with id "mobile-toggle". *)
Definition without_mobile_toggle : Document :=
  with_nav (NavigationManager.set_mobileToggle None NavigationManager.far_page)
           full_document.

End Boot.

(* ================================================================== *)
(** * Properties                                                       *)
(* ================================================================== *)

Lemma str_eqb_true a b : str_eqb a b = true <-> a = b.
Proof. unfold str_eqb. apply bool_decide_eq_true. Qed.

Lemma str_eqb_false a b : str_eqb a b = false <-> a <> b.
Proof. unfold str_eqb. apply bool_decide_eq_false. Qed.

Lemma str_eqb_refl a : str_eqb a a = true.
Proof. by apply str_eqb_true. Qed.

Module ClassListFacts.
Import ClassList.

Lemma contains_true c tok : contains c tok = true <-> tok ∈ c.
Proof. unfold contains. apply bool_decide_eq_true. Qed.

Lemma contains_add c tok u :
  contains (add c tok) u = true <-> u = tok \/ contains c u = true.
Proof.
  unfold add. destruct (contains c tok) eqn:E.
  - split; [auto|]. intros [-> | H]; auto.
  - rewrite !contains_true, elem_of_app, list_elem_of_singleton. tauto.
Qed.

Lemma contains_remove c tok u :
  contains (remove c tok) u = true <-> u <> tok /\ contains c u = true.
Proof.
  unfold remove. rewrite !contains_true, list_elem_of_filter. tauto.
Qed.

Lemma contains_add_remove c tok :
  contains (add (remove c tok) tok) tok = true.
Proof. apply contains_add. auto. Qed.

Lemma contains_remove_same c tok : contains (remove c tok) tok = false.
Proof.
  destruct (contains (remove c tok) tok) eqn:E; [|reflexivity].
  apply contains_remove in E. tauto.
Qed.

Lemma contains_toggle_same c tok :
  contains (toggle c tok) tok = negb (contains c tok).
Proof.
  unfold toggle. destruct (contains c tok) eqn:E; cbn [negb].
  - apply contains_remove_same.
  - apply contains_true, elem_of_app. right. left.
Qed.

Lemma contains_toggle_other c tok u :
  u <> tok -> contains (toggle c tok) u = contains c u.
Proof.
  intros Hne. apply eq_true_iff_eq. unfold toggle.
  destruct (contains c tok).
  - rewrite contains_remove. tauto.
  - rewrite !contains_true, elem_of_app, list_elem_of_singleton. tauto.
Qed.

Lemma contains_add_other c tok u :
  u <> tok -> contains (add c tok) u = contains c u.
Proof. intros Hne. apply eq_true_iff_eq. rewrite contains_add. tauto. Qed.

Lemma contains_remove_other c tok u :
  u <> tok -> contains (remove c tok) u = contains c u.
Proof. intros Hne. apply eq_true_iff_eq. rewrite contains_remove. tauto. Qed.

Lemma contains_add_same c tok : contains (add c tok) tok = true.
Proof. apply contains_add. auto. Qed.

Lemma remove_idem c tok : remove (remove c tok) tok = remove c tok.
Proof.
  unfold remove.
  apply (list_filter_filter_l (fun x => x <> tok) (fun x => x <> tok)). auto.
Qed.

Lemma remove_add_remove c tok :
  remove (add (remove c tok) tok) tok = remove c tok.
Proof.
  assert (add (remove c tok) tok = remove c tok ++ [tok]) as ->
    by (unfold add; rewrite contains_remove_same; reflexivity).
  change (remove (remove c tok ++ [tok]) tok)
    with (filter (fun x => x <> tok) (remove c tok ++ [tok])).
  rewrite filter_app.
  change (filter (fun x => x <> tok) (remove c tok))
    with (remove (remove c tok) tok).
  rewrite remove_idem.
  rewrite (filter_cons (fun x => x <> tok)), decide_False by tauto.
  apply app_nil_r.
Qed.

End ClassListFacts.

Module ThemeManagerFacts.
Import ThemeManager.

Ltac run :=
  cbv [construct init toggleTheme setTheme applyTheme updateThemeToggle
       toggle_setAttribute toggle_addEventListener
       bind ret gets modify
       set_theme set_localStorage set_dataTheme set_themeToggle];
  cbn [theme localStorage dataTheme themeToggle prefersDark
       ariaPressed clickListeners].

(** What [setTheme] leaves behind when the toggle control exists. *)
Lemma setTheme_run s t th :
  themeToggle s = Some t ->
  setTheme th s =
    ({| theme := th;
        localStorage := <[theme_key := th]> (localStorage s);
        dataTheme := Some th;
        themeToggle :=
          Some {| ariaPressed := Some (of_bool (str_eqb th dark));
                  clickListeners := clickListeners t |};
        prefersDark := prefersDark s |}, Normal tt).
Proof. intros Ht. run. rewrite Ht. reflexivity. Qed.

Lemma toggleTheme_run s t :
  themeToggle s = Some t ->
  toggleTheme s =
    ({| theme := flip (theme s);
        localStorage := <[theme_key := flip (theme s)]> (localStorage s);
        dataTheme := Some (flip (theme s));
        themeToggle :=
          Some {| ariaPressed := Some (of_bool (str_eqb (flip (theme s)) dark));
                  clickListeners := clickListeners t |};
        prefersDark := prefersDark s |}, Normal tt).
Proof. intros Ht. run. rewrite Ht. reflexivity. Qed.

Lemma toggleTheme_null s :
  themeToggle s = None -> exists s', toggleTheme s = (s', Throw TypeError).
Proof. intros Ht. run. rewrite Ht. eauto. Qed.

(** [new ThemeManager()] on a page that has the toggle control. *)
Lemma construct_run p t :
  p_themeToggle p = Some t ->
  let th0 := stored_or_light (p_localStorage p) in
  construct p =
    if str_eqb th0 light && p_prefersDark p then
      ({| theme := dark;
          localStorage := <[theme_key := dark]> (p_localStorage p);
          dataTheme := Some dark;
          themeToggle :=
            Some {| ariaPressed := Some (js "true");
                    clickListeners := S (clickListeners t) |};
          prefersDark := p_prefersDark p |}, Normal tt)
    else
      ({| theme := th0;
          localStorage := p_localStorage p;
          dataTheme := Some th0;
          themeToggle :=
            Some {| ariaPressed := Some (of_bool (str_eqb th0 dark));
                    clickListeners := S (clickListeners t) |};
          prefersDark := p_prefersDark p |}, Normal tt).
Proof.
  intros Ht th0. subst th0. run. rewrite Ht. run.
  destruct (str_eqb _ light && p_prefersDark p); run; reflexivity.
Qed.

(** Without the toggle control the constructor raises, after the
    document attribute has been written. *)
Lemma construct_null p :
  p_themeToggle p = None ->
  construct p =
    ({| theme := stored_or_light (p_localStorage p);
        localStorage := p_localStorage p;
        dataTheme := Some (stored_or_light (p_localStorage p));
        themeToggle := None;
        prefersDark := p_prefersDark p |}, Throw TypeError).
Proof. intros Ht. run. rewrite Ht. reflexivity. Qed.

Lemma reachable_has_toggle p n s :
  reachable p n s -> exists t, themeToggle s = Some t.
Proof.
  induction 1 as [s Hc | n s s' Hr IH Ht].
  - destruct (p_themeToggle p) as [t|] eqn:E.
    + rewrite (construct_run p t E) in Hc. cbv zeta in Hc.
      destruct (_ && _); inversion Hc; subst; cbn; eauto.
    + rewrite (construct_null p E) in Hc. discriminate.
  - destruct IH as [t Hs]. rewrite (toggleTheme_run s t Hs) in Ht.
    inversion Ht; subst; cbn; eauto.
Qed.

Lemma flip_light : flip light = dark.
Proof. reflexivity. Qed.

Lemma flip_dark : flip dark = light.
Proof. reflexivity. Qed.

Lemma stored_or_light_cases m :
  (exists v, m !! theme_key = Some v /\ v <> [] /\ stored_or_light m = v) \/
  ((m !! theme_key = None \/ m !! theme_key = Some []) /\
   stored_or_light m = light).
Proof.
  unfold stored_or_light. destruct (m !! theme_key) as [[|c v]|].
  - right; auto.
  - left. exists (c :: v). auto.
  - right; auto.
Qed.

(** Invariant of the controller: the document attribute and the pressed
    indicator follow [this.theme]; the storage slot does too once it is
    in sync, and is otherwise still as the page had it. *)
Lemma reachable_inv p n s :
  reachable p n s ->
  dataTheme s = Some (theme s) /\
  (exists k, themeToggle s =
     Some {| ariaPressed := Some (of_bool (str_eqb (theme s) dark));
             clickListeners := k |}) /\
  (slot_in_sync p n -> localStorage s !! theme_key = Some (theme s)) /\
  (~ slot_in_sync p n -> localStorage s = p_localStorage p /\ theme s = light).
Proof.
  induction 1 as [s Hc | n s s' Hr IH Ht].
  - destruct (p_themeToggle p) as [t|] eqn:E;
      [|rewrite (construct_null p E) in Hc; discriminate].
    rewrite (construct_run p t E) in Hc. cbv zeta in Hc.
    destruct (str_eqb _ light && p_prefersDark p) eqn:C;
      inversion Hc; subst; clear Hc; cbn [theme dataTheme themeToggle localStorage].
    + split; [reflexivity|]. split; [eexists; reflexivity|]. split.
      * intros _. apply lookup_insert_eq.
      * intros Hn. exfalso. apply Hn. right. left.
        apply andb_true_iff in C. tauto.
    + split; [reflexivity|]. split; [eexists; reflexivity|].
      apply andb_false_iff in C.
      destruct (stored_or_light_cases (p_localStorage p))
        as [(v & Hv & Hne & Hs) | (Hv & Hs)]; rewrite Hs in *.
      * split; [intros _; exact Hv|].
        intros Hn. exfalso. apply Hn. right. right. eauto.
      * split; [|auto].
        intros [Hlt | [Hd | (v & Hv' & Hne)]].
        -- lia.
        -- destruct C as [C|C]; [discriminate C|congruence].
        -- destruct Hv as [Hv|Hv]; congruence.
  - destruct (reachable_has_toggle _ _ _ Hr) as [t Hs].
    rewrite (toggleTheme_run s t Hs) in Ht. inversion Ht; subst; clear Ht.
    cbn [theme dataTheme themeToggle localStorage].
    split; [reflexivity|]. split; [eexists; reflexivity|]. split.
    + intros _. apply lookup_insert_eq.
    + intros Hn. exfalso. apply Hn. left. lia.
Qed.

(** C1, as stated, fails: with "light" stored and the OS reporting dark,
    init ends with the dark theme, not with the stored value. *)
Lemma init_overrides_stored_light :
  snd (construct (page_with (Some light) true)) = Normal tt /\
  theme (fst (construct (page_with (Some light) true))) = dark /\
  dataTheme (fst (construct (page_with (Some light) true))) = Some dark /\
  spec_effective (Some light) true = light /\
  theme (fst (construct (page_with (Some light) true)))
    <> spec_effective (Some light) true.
Proof. vm_compute. repeat split; congruence. Qed.

(** C1 (amended): on a page with the toggle control, init completes and
    the effective theme (in-memory and on the document) is: the stored
    value when that is non-empty and not "light"; otherwise (nothing
    stored, the empty string stored, or "light" stored) "dark" if the OS
    reports dark and "light" if not.  It is the stored-or-OS rule of the
    specification except when "light" is stored under a dark OS and when
    the empty string is stored. *)
Theorem init_effective_theme p t :
  p_themeToggle p = Some t ->
  exists s,
    construct p = (s, Normal tt) /\
    dataTheme s = Some (theme s) /\
    (forall v, p_localStorage p !! theme_key = Some v ->
               v <> [] -> v <> light -> theme s = v) /\
    (p_localStorage p !! theme_key = Some light ->
     theme s = if p_prefersDark p then dark else light) /\
    (p_localStorage p !! theme_key = None \/
     p_localStorage p !! theme_key = Some [] ->
     theme s = if p_prefersDark p then dark else light) /\
    (~ (p_localStorage p !! theme_key = Some light /\ p_prefersDark p = true) ->
     p_localStorage p !! theme_key <> Some [] ->
     theme s = spec_effective (p_localStorage p !! theme_key) (p_prefersDark p)).
Proof.
  intros Ht. rewrite (construct_run p t Ht). cbv zeta.
  unfold stored_or_light, spec_effective.
  destruct (p_localStorage p !! theme_key) as [v|] eqn:Hv.
  - destruct v as [|c v]; cbn [str_truthy].
    + change (str_eqb light light) with true. cbn [andb].
      destruct (p_prefersDark p); eexists; (split; [reflexivity|]);
        cbn [theme dataTheme]; repeat split; try congruence; tauto.
    + destruct (str_eqb (c :: v) light) eqn:El.
      * apply str_eqb_true in El. rewrite El. cbn [andb].
        destruct (p_prefersDark p); eexists; (split; [reflexivity|]);
          cbn [theme dataTheme]; repeat split; try congruence;
          try tauto; intros [H|H]; discriminate H.
      * apply str_eqb_false in El. cbn [andb].
        eexists; (split; [reflexivity|]); cbn [theme dataTheme].
        repeat split; try congruence. intros [H|H]; discriminate H.
  - change (str_eqb light light) with true. cbn [andb].
    destruct (p_prefersDark p); eexists; (split; [reflexivity|]);
      cbn [theme dataTheme]; repeat split; try congruence.
Qed.

Lemma init_effective_theme_witness :
  exists s, construct (page_with (Some dark) false) = (s, Normal tt) /\
            theme s = dark.
Proof.
  destruct (init_effective_theme (page_with (Some dark) false) _ eq_refl)
    as (s & Hc & _ & Hv & _).
  exists s. split; [exact Hc|].
  apply Hv; [reflexivity | discriminate | discriminate].
Defined.

Lemma fresh_light_reachable : reachable (page_with None false) 0 fresh_light.
Proof. apply reach_init. reflexivity. Qed.

(** C7, as stated, fails: right after init on a first visit (nothing
    stored, OS not dark) the document carries "light" while nothing is
    stored under the "theme" key. *)
Lemma init_leaves_storage_empty :
  reachable (page_with None false) 0 fresh_light /\
  dataTheme fresh_light = Some light /\
  localStorage fresh_light !! theme_key = None /\
  localStorage fresh_light !! theme_key <> dataTheme fresh_light.
Proof.
  split; [exact fresh_light_reachable|].
  vm_compute. repeat split; congruence.
Qed.

(** C7 (amended): in every state the controller reaches, the document
    attribute is the in-memory theme; the value stored under "theme"
    equals it after every toggle, and right after init whenever the OS
    reports dark or a non-empty value was stored.  Right after an init
    that found nothing (or the empty string) stored and the OS not dark,
    the document carries "light" and storage is left as it was found. *)
Theorem stored_theme_tracks_applied p n s :
  reachable p n s ->
  dataTheme s = Some (theme s) /\
  (slot_in_sync p n -> localStorage s !! theme_key = dataTheme s) /\
  (~ slot_in_sync p n ->
   n = 0%nat /\ p_prefersDark p = false /\
   (p_localStorage p !! theme_key = None \/
    p_localStorage p !! theme_key = Some []) /\
   localStorage s = p_localStorage p /\ dataTheme s = Some light).
Proof.
  intros Hr. destruct (reachable_inv p n s Hr) as (Hd & _ & Hin & Hout).
  split; [exact Hd|]. split.
  - intros H. rewrite Hd. auto.
  - intros Hn. destruct (Hout Hn) as [Hl Ht].
    assert (n = 0%nat) as ->.
    { destruct n; [reflexivity|]. exfalso. apply Hn. left. lia. }
    split; [reflexivity|]. split.
    { destruct (p_prefersDark p) eqn:E; [|reflexivity].
      exfalso. apply Hn. right. left. exact E. }
    split.
    { destruct (p_localStorage p !! theme_key) as [[|c v]|] eqn:E; auto.
      exfalso. apply Hn. right. right. exists (c :: v). split; congruence. }
    split; [exact Hl|]. rewrite Hd, Ht. reflexivity.
Qed.

Lemma stored_theme_tracks_applied_witness :
  localStorage (fst (toggleTheme fresh_light)) !! theme_key = Some dark.
Proof.
  assert (reachable (page_with None false) 1 (fst (toggleTheme fresh_light)))
    as Hr.
  { eapply reach_toggle; [exact fresh_light_reachable | reflexivity]. }
  destruct (stored_theme_tracks_applied _ _ _ Hr) as (_ & Hin & _).
  rewrite Hin; [reflexivity | left; lia].
Defined.

(** C9, as stated, fails: from the state init leaves on a first visit
    (theme "light", nothing stored) two toggles leave "light" stored,
    where nothing was stored before. *)
Lemma double_toggle_writes_storage :
  reachable (page_with None false) 0 fresh_light /\
  theme fresh_light = light /\
  localStorage fresh_light !! theme_key = None /\
  snd (toggleTheme fresh_light) = Normal tt /\
  snd (toggleTheme (fst (toggleTheme fresh_light))) = Normal tt /\
  localStorage (fst (toggleTheme (fst (toggleTheme fresh_light)))) !! theme_key
    = Some light.
Proof.
  split; [exact fresh_light_reachable|].
  vm_compute. repeat split; congruence.
Qed.

(** C9 (amended): from any state the controller reaches whose theme is
    "light" or "dark", two calls of toggleTheme complete and return the
    in-memory theme, the document attribute and the toggle control to
    what they were; the storage afterwards is the storage before with
    the starting theme written under "theme", which is the storage
    before whenever the slot was in sync (after any earlier toggle, or
    an init under a dark OS or with a non-empty stored value). *)
Theorem toggle_twice_restores p n s :
  reachable p n s ->
  theme s = light \/ theme s = dark ->
  exists s1 s2,
    toggleTheme s = (s1, Normal tt) /\
    toggleTheme s1 = (s2, Normal tt) /\
    theme s2 = theme s /\
    dataTheme s2 = dataTheme s /\
    themeToggle s2 = themeToggle s /\
    localStorage s2 = <[theme_key := theme s]> (localStorage s) /\
    (slot_in_sync p n -> localStorage s2 = localStorage s).
Proof.
  intros Hr Hth.
  destruct (reachable_inv p n s Hr) as (Hd & (k & Hk) & Hin & _).
  rewrite (toggleTheme_run s _ Hk).
  eexists. eexists. split; [reflexivity|].
  erewrite toggleTheme_run by (cbn [themeToggle]; reflexivity).
  split; [reflexivity|].
  cbn [theme dataTheme themeToggle localStorage clickListeners].
  assert (flip (flip (theme s)) = theme s) as Hff.
  { destruct Hth as [-> | ->]; reflexivity. }
  rewrite Hff, Hd, Hk, insert_insert_eq.
  repeat split; try reflexivity.
  intros Hs. apply insert_id. auto.
Qed.

Lemma toggle_twice_restores_witness :
  exists s1 s2,
    toggleTheme fresh_light = (s1, Normal tt) /\
    toggleTheme s1 = (s2, Normal tt) /\
    theme s2 = light.
Proof.
  destruct (toggle_twice_restores _ _ _ fresh_light_reachable
              (or_introl eq_refl))
    as (s1 & s2 & H1 & H2 & H3 & _).
  exists s1, s2. repeat split; [exact H1 | exact H2 | exact H3].
Defined.

(** The toggle control keeps the listeners it had and gains one, at
    construction. *)
Lemma reachable_listeners p n s t0 :
  reachable p n s -> p_themeToggle p = Some t0 ->
  exists t, themeToggle s = Some t /\
            clickListeners t = S (clickListeners t0).
Proof.
  intros Hr Ht0. induction Hr as [s Hc | n s s' Hr IH Ht].
  - rewrite (construct_run p t0 Ht0) in Hc. cbv zeta in Hc.
    destruct (_ && _); inversion Hc; subst; cbn; eauto.
  - destruct IH as (t & Hs & Hk). rewrite (toggleTheme_run s t Hs) in Ht.
    inversion Ht; subst; cbn; eauto.
Qed.

(** X1: in every state the controller reaches, the aria-pressed
    attribute of the toggle control is the string "true" when the theme is
    "dark" and the string "false" otherwise, and the control carries
    exactly one click listener more than the page gave it. *)
Theorem pressed_indicator_follows_theme p n s :
  reachable p n s ->
  exists t,
    themeToggle s = Some t /\
    (ariaPressed t = Some (js "true") <-> theme s = dark) /\
    (ariaPressed t = Some (js "false") <-> theme s <> dark) /\
    (forall t0, p_themeToggle p = Some t0 ->
       clickListeners t = S (clickListeners t0)).
Proof.
  intros Hr. destruct (reachable_inv p n s Hr) as (_ & (k & Hk) & _).
  eexists. split; [exact Hk|]. cbn [ariaPressed clickListeners].
  split; [|split].
  - destruct (str_eqb (theme s) dark) eqn:E; cbn [of_bool].
    + apply str_eqb_true in E. split; auto.
    + apply str_eqb_false in E. split; [discriminate | contradiction].
  - destruct (str_eqb (theme s) dark) eqn:E; cbn [of_bool].
    + apply str_eqb_true in E. split; [discriminate | contradiction].
    + apply str_eqb_false in E. split; auto.
  - intros t0 Ht0. destruct (reachable_listeners p n s t0 Hr Ht0)
      as (t & Hs & Hl). rewrite Hk in Hs. inversion Hs; subst. exact Hl.
Qed.

Lemma pressed_indicator_follows_theme_witness :
  exists t, themeToggle (fst (toggleTheme fresh_light)) = Some t /\
            ariaPressed t = Some (js "true") /\ clickListeners t = 1%nat.
Proof.
  assert (reachable (page_with None false) 1 (fst (toggleTheme fresh_light)))
    as Hr.
  { eapply reach_toggle; [exact fresh_light_reachable | reflexivity]. }
  destruct (pressed_indicator_follows_theme _ _ _ Hr)
    as (t & Ht & Htrue & _ & Hl).
  exists t. split; [exact Ht|]. split.
  - apply Htrue. reflexivity.
  - apply (Hl _ eq_refl).
Defined.

Lemma flip_cases th : flip th = light \/ flip th = dark.
Proof. unfold flip. destruct (str_eqb th light); auto. Qed.

Lemma flip_flip_flip th : flip (flip (flip th)) = flip th.
Proof. destruct (flip_cases th) as [-> | ->]; reflexivity. Qed.

(** The theme after [k] toggles from a theme [th]. *)
Lemma toggles_run p n s k :
  reachable p n s ->
  exists s', toggles k s = (s', Normal tt) /\ reachable p (n + k) s' /\
             theme s' = Nat.iter k flip (theme s).
Proof.
  revert n s. induction k as [|k IH]; intros n s Hr.
  - exists s. rewrite Nat.add_0_r. repeat split. exact Hr.
  - destruct (reachable_has_toggle _ _ _ Hr) as [t Ht].
    pose proof (toggleTheme_run s t Ht) as Hrun.
    set (s1 := fst (toggleTheme s)).
    assert (toggleTheme s = (s1, Normal tt)) as Hrun1
      by (unfold s1; rewrite Hrun; reflexivity).
    assert (theme s1 = flip (theme s)) as Hth
      by (unfold s1; rewrite Hrun; reflexivity).
    destruct (IH (S n) s1 (reach_toggle p n s s1 Hr Hrun1))
      as (s' & Hk & Hr' & Hth').
    exists s'. split; [|split].
    + cbn [toggles]. unfold bind. rewrite Hrun1. exact Hk.
    + replace (n + S k)%nat with (S n + k)%nat by lia. exact Hr'.
    + rewrite Hth', Hth. clear. generalize (theme s) as th.
      induction k as [|k IHk]; intros th; [reflexivity|].
      change (Nat.iter (S k) flip (flip th))
        with (flip (Nat.iter k flip (flip th))).
      rewrite IHk. reflexivity.
Qed.

Lemma iter_flip_parity k th :
  Nat.iter (S k) flip th
  = if Nat.even k then flip th else flip (flip th).
Proof.
  induction k as [|k IH]; [reflexivity|].
  change (Nat.iter (S (S k)) flip th) with (flip (Nat.iter (S k) flip th)).
  rewrite IH, Nat.even_succ, <- Nat.negb_even.
  destruct (Nat.even k); cbn [negb]; [reflexivity | apply flip_flip_flip].
Qed.

(** X2: any number k >= 1 of toggles completes, whatever theme it starts
    from (also a stored value that is neither "light" nor "dark"): after
    an odd number the theme is "dark" if it started as "light" and "light"
    otherwise; after an even number it is "light" if it started as "light"
    and "dark" otherwise.  The document attribute and the stored value
    equal the resulting theme. *)
Theorem toggles_parity p n s k :
  reachable p n s ->
  exists s',
    toggles (S k) s = (s', Normal tt) /\
    theme s' =
      (if Nat.even k
       then (if str_eqb (theme s) light then dark else light)
       else (if str_eqb (theme s) light then light else dark)) /\
    dataTheme s' = Some (theme s') /\
    localStorage s' !! theme_key = Some (theme s').
Proof.
  intros Hr. destruct (toggles_run p n s (S k) Hr) as (s' & Hk & Hr' & Hth).
  exists s'. split; [exact Hk|]. split.
  - rewrite Hth, iter_flip_parity. unfold flip.
    destruct (Nat.even k); [reflexivity|].
    destruct (str_eqb (theme s) light); reflexivity.
  - destruct (reachable_inv _ _ _ Hr') as (Hd & _ & Hin & _).
    split; [exact Hd|]. apply Hin. left. lia.
Qed.

Lemma toggles_parity_witness :
  exists s',
    toggles 3 (fst (construct (page_with (Some (js "blue")) false)))
      = (s', Normal tt) /\
    theme s' = light.
Proof.
  assert (reachable (page_with (Some (js "blue")) false) 0
            (fst (construct (page_with (Some (js "blue")) false)))) as Hr
    by (apply reach_init; reflexivity).
  destruct (toggles_parity _ _ _ 2 Hr) as (s' & Hk & Hth & _).
  exists s'. split; [exact Hk|]. rewrite Hth. reflexivity.
Defined.

(** X24: on a page without the theme toggle the constructor raises a
    TypeError, but only after the stored theme (or "light" when nothing
    or the empty string is stored) has been written to the document's
    data-theme attribute; the storage is left untouched and the OS
    preference is never consulted, so a first visit under a dark OS
    shows the light theme. *)
Theorem theme_applied_before_failure p :
  p_themeToggle p = None ->
  exists s,
    construct p = (s, Throw TypeError) /\
    dataTheme s = Some (theme s) /\
    localStorage s = p_localStorage p /\
    (forall v, p_localStorage p !! theme_key = Some v -> v <> [] ->
               theme s = v) /\
    (p_localStorage p !! theme_key = None \/
     p_localStorage p !! theme_key = Some [] -> theme s = light).
Proof.
  intros Ht. rewrite (construct_null p Ht). eexists.
  split; [reflexivity|]. cbn [dataTheme theme localStorage].
  split; [reflexivity|]. split; [reflexivity|]. unfold stored_or_light.
  split.
  - intros v Hv Hne. rewrite Hv. destruct v; [contradiction | reflexivity].
  - intros [Hv | Hv]; rewrite Hv; reflexivity.
Qed.

Lemma theme_applied_before_failure_witness :
  exists s,
    construct {| p_localStorage := ∅; p_dataTheme := None;
                 p_themeToggle := None; p_prefersDark := true |}
      = (s, Throw TypeError) /\
    dataTheme s = Some light.
Proof.
  destruct (theme_applied_before_failure
              {| p_localStorage := ∅; p_dataTheme := None;
                 p_themeToggle := None; p_prefersDark := true |} eq_refl)
    as (s & Hc & Hd & _ & _ & Hl).
  exists s. split; [exact Hc|]. rewrite Hd, Hl; [reflexivity|].
  left. reflexivity.
Defined.

End ThemeManagerFacts.

Module NavigationManagerFacts.
Import NavigationManager ClassListFacts.

Lemma contains_pos_spec b p :
  contains_pos b p = true <->
  offsetTop b <= p < offsetTop b + offsetHeight b.
Proof. unfold contains_pos. rewrite andb_true_iff. lia. Qed.

Lemma mark_by_scroll_href d p l : href (mark_by_scroll d p l) = href l.
Proof.
  unfold mark_by_scroll. destruct (getElementById d _); [|reflexivity].
  destruct (contains_pos _ _); reflexivity.
Qed.

Lemma mark_by_scroll_active d p l :
  is_active (mark_by_scroll d p l) = target_contains d p l.
Proof.
  unfold mark_by_scroll, target_contains, is_active.
  destruct (getElementById d _) as [b|]; cbn [classList set_classList].
  - destruct (contains_pos b p); cbn [classList set_classList].
    + apply contains_add_remove.
    + apply contains_remove_same.
  - apply contains_remove_same.
Qed.

(** Classes other than "active" are left alone by the scroll pass. *)
Lemma mark_by_scroll_frame d p l tok :
  tok <> active ->
  ClassList.contains (classList (mark_by_scroll d p l)) tok
  = ClassList.contains (classList l) tok.
Proof.
  intros Hne. apply eq_true_iff_eq. unfold mark_by_scroll.
  destruct (getElementById d _) as [b|]; [destruct (contains_pos b p)|];
    cbn [classList set_classList];
    rewrite ?contains_add, contains_remove; tauto.
Qed.

Lemma mark_by_href_href h l : href (mark_by_href h l) = href l.
Proof. unfold mark_by_href. destruct (str_eqb _ _); reflexivity. Qed.

Lemma mark_by_href_active h l :
  is_active (mark_by_href h l) = str_eqb (href l) h.
Proof.
  unfold mark_by_href, is_active.
  destruct (str_eqb (href l) h); cbn [classList set_classList].
  - apply contains_add_remove.
  - apply contains_remove_same.
Qed.

Lemma target_contains_spec d p l :
  target_contains d p l = true <->
  exists b, getElementById d (tail (href l)) = Some b /\
            offsetTop b <= p < offsetTop b + offsetHeight b.
Proof.
  unfold target_contains. destruct (getElementById d _) as [b|].
  - rewrite contains_pos_spec. split; [eauto|].
    intros (b' & Hb & H). congruence.
  - split; [discriminate|]. intros (b' & Hb & _). discriminate.
Qed.

Lemma updateActiveLink_scroll s :
  updateActiveLink None s =
    (set_navLinks (mark_by_scroll (doc s) (scrollY s + 100) <$> navLinks s) s,
     Normal tt).
Proof. reflexivity. Qed.

(** C2, as stated, fails: with two sections overlapping around the probe
    point both links are active after the scroll pass, not only the
    last one in DOM order. *)
Lemma overlap_marks_both_links :
  snd (updateActiveLink None overlap_page) = Normal tt /\
  target_contains (doc overlap_page) (scrollY overlap_page + 100)
    <$> navLinks overlap_page = [true; true] /\
  is_active <$> navLinks (fst (updateActiveLink None overlap_page))
    = [true; true].
Proof. vm_compute. auto. Qed.

(** C2 (amended): updateActiveLink() completes and keeps the links and
    their hrefs; afterwards a link carries the active class if and only
    if its target section exists and offsetTop <= p < offsetTop +
    offsetHeight for p = scrollY + 100.  So no link is active when no
    section contains p, and every link whose section contains p is
    active when several do. *)
Theorem scroll_marks_containing_links s :
  exists s',
    updateActiveLink None s = (s', Normal tt) /\
    scrollY s' = scrollY s /\
    length (navLinks s') = length (navLinks s) /\
    (forall i l, navLinks s !! i = Some l ->
       exists l', navLinks s' !! i = Some l' /\ href l' = href l /\
         (is_active l' = true <->
          exists b, getElementById (doc s) (tail (href l)) = Some b /\
                    offsetTop b <= scrollY s + 100
                      < offsetTop b + offsetHeight b)) /\
    ((forall l, l ∈ navLinks s ->
        target_contains (doc s) (scrollY s + 100) l = false) ->
     forall l', l' ∈ navLinks s' -> is_active l' = false) /\
    (forall i j li lj,
       navLinks s !! i = Some li -> navLinks s !! j = Some lj ->
       target_contains (doc s) (scrollY s + 100) li = true ->
       target_contains (doc s) (scrollY s + 100) lj = true ->
       exists li' lj', navLinks s' !! i = Some li' /\
                       navLinks s' !! j = Some lj' /\
                       is_active li' = true /\ is_active lj' = true).
Proof.
  eexists. split; [apply updateActiveLink_scroll|].
  cbn [navLinks scrollY set_navLinks].
  split; [reflexivity|]. split; [apply length_fmap|].
  split; [|split].
  - intros i l Hl. eexists. split.
    + rewrite list_lookup_fmap, Hl. reflexivity.
    + split; [apply mark_by_scroll_href|].
      rewrite mark_by_scroll_active. apply target_contains_spec.
  - intros Hnone l' Hl'. apply list_elem_of_fmap in Hl' as (l & -> & Hl).
    rewrite mark_by_scroll_active. auto.
  - intros i j li lj Hi Hj Ti Tj. do 2 eexists.
    rewrite !list_lookup_fmap, Hi, Hj.
    split; [reflexivity|]. split; [reflexivity|].
    rewrite !mark_by_scroll_active. auto.
Qed.

Lemma querySelector_found_nonempty d h b :
  querySelector d h = Normal (Some b) -> exists c r, h = c :: r.
Proof. destruct h as [|c r]; [discriminate|eauto]. Qed.

Lemma handleNavClick_found s i l b :
  navLinks s !! i = Some l ->
  querySelector (doc s) (href l) = Normal (Some b) ->
  handleNavClick i s =
    (set_navLinks (mark_by_href (href l) <$> navLinks s)
       (set_scrolledTo (scrolledTo s ++ [href l])
          (set_defaultPrevented true s)),
     Normal tt).
Proof.
  intros Hl Hq. unfold handleNavClick. rewrite Hl.
  destruct (querySelector_found_nonempty _ _ _ Hq) as (c & r & Hh).
  cbv [bind modify ret]. cbn [doc set_defaultPrevented]. rewrite Hq.
  unfold updateActiveLink. rewrite Hh. reflexivity.
Qed.

Lemma handleNavClick_null s i l :
  navLinks s !! i = Some l ->
  querySelector (doc s) (href l) = Normal None ->
  handleNavClick i s = (set_defaultPrevented true s, Normal tt).
Proof.
  intros Hl Hq. unfold handleNavClick. rewrite Hl.
  cbv [bind modify ret]. cbn [doc set_defaultPrevented]. rewrite Hq.
  reflexivity.
Qed.

Lemma handleNavClick_invalid s i l e :
  navLinks s !! i = Some l ->
  querySelector (doc s) (href l) = Throw e ->
  handleNavClick i s = (set_defaultPrevented true s, Throw e).
Proof.
  intros Hl Hq. unfold handleNavClick. rewrite Hl.
  cbv [bind modify ret]. cbn [doc set_defaultPrevented]. rewrite Hq.
  reflexivity.
Qed.

(** C6, as stated, fails: a click on a link whose target is not in the
    document cancels the default action and marks nothing. *)
Lemma click_without_target_marks_nothing :
  href <$> navLinks dangling_page = [js "#contact"] /\
  handleNavClick 0 dangling_page
    = (set_defaultPrevented true dangling_page, Normal tt) /\
  is_active <$> navLinks (fst (handleNavClick 0 dangling_page)) = [false] /\
  is_active <$> navLinks (fst (click_link 0 dangling_page)) = [false].
Proof.
  split; [reflexivity|]. split.
  - apply (handleNavClick_null _ _ (plain_link (js "#contact")));
      reflexivity.
  - split; vm_compute; reflexivity.
Qed.

(** C6 (amended): a click on a navigation link always cancels the
    default action.  When the link's href selects an element of the
    document, the handler completes, asks for the scroll, and leaves
    active exactly the links with the same href, whatever the scroll
    position is; the links and their hrefs are kept.  When the href
    selects nothing, or is not a valid selector (then the handler
    raises), no class of any link is changed. *)
Theorem click_marks_links_with_same_href s i l :
  navLinks s !! i = Some l ->
  exists s' r,
    handleNavClick i s = (s', r) /\
    defaultPrevented s' = true /\
    match querySelector (doc s) (href l) with
    | Normal (Some _) =>
        r = Normal tt /\
        scrolledTo s' = scrolledTo s ++ [href l] /\
        (forall j lj, navLinks s !! j = Some lj ->
           exists lj', navLinks s' !! j = Some lj' /\ href lj' = href lj /\
                       (is_active lj' = true <-> href lj = href l)) /\
        (forall y, navLinks (fst (handleNavClick i (set_scrollY y s)))
                   = navLinks s')
    | Normal None => r = Normal tt /\ navLinks s' = navLinks s
    | Throw e => r = Throw e /\ navLinks s' = navLinks s
    end.
Proof.
  intros Hl. destruct (querySelector (doc s) (href l)) as [[b|]|e] eqn:Hq.
  - do 2 eexists. split; [apply (handleNavClick_found s i l b Hl Hq)|].
    cbn [defaultPrevented navLinks scrolledTo set_navLinks set_scrolledTo
         set_defaultPrevented].
    split; [reflexivity|]. split; [reflexivity|]. split; [reflexivity|].
    split.
    + intros j lj Hj. eexists. split.
      * rewrite list_lookup_fmap, Hj. reflexivity.
      * split; [apply mark_by_href_href|].
        rewrite mark_by_href_active. apply str_eqb_true.
    + intros y.
      rewrite (handleNavClick_found (set_scrollY y s) i l b); auto.
  - do 2 eexists. split; [apply (handleNavClick_null s i l Hl Hq)|].
    cbn. auto.
  - do 2 eexists. split; [apply (handleNavClick_invalid s i l e Hl Hq)|].
    cbn. auto.
Qed.

Lemma click_marks_links_with_same_href_witness :
  exists s', handleNavClick 1 far_page = (s', Normal tt) /\
             defaultPrevented s' = true /\
             scrolledTo s' = [js "#contact"].
Proof.
  destruct (click_marks_links_with_same_href far_page 1
              (plain_link (js "#contact")) eq_refl)
    as (s' & r & Hrun & Hp & Hm).
  change (querySelector (doc far_page) (href (plain_link (js "#contact"))))
    with (Normal (Some {| offsetTop := 5000; offsetHeight := 800 |})) in Hm.
  destruct Hm as (-> & Hs & _).
  exists s'. split; [exact Hrun|]. split; [exact Hp|]. exact Hs.
Defined.

Lemma toggleMobileMenu_run s t c :
  mobileToggle s = Some t -> navMenu s = Some c ->
  toggleMobileMenu s =
    (set_navMenu (Some (ClassList.toggle c mobile_open))
       (set_mobileToggle
          (Some {| ariaExpanded :=
                     Some (if negb match ariaExpanded t with
                                   | Some v => str_eqb v (js "true")
                                   | None => false
                                   end
                           then js "true" else js "false");
                   mt_listeners := mt_listeners t |}) s),
     Normal tt).
Proof.
  intros Ht Hc. unfold toggleMobileMenu. rewrite Ht.
  cbn [navMenu set_mobileToggle]. rewrite Hc. reflexivity.
Qed.

Lemma closeMobileMenu_run s t c :
  mobileToggle s = Some t -> navMenu s = Some c ->
  closeMobileMenu s =
    (set_navMenu (Some (ClassList.remove c mobile_open))
       (set_mobileToggle
          (Some {| ariaExpanded := Some (js "false");
                   mt_listeners := mt_listeners t |}) s),
     Normal tt).
Proof.
  intros Ht Hc. unfold closeMobileMenu. rewrite Ht.
  cbn [navMenu set_mobileToggle]. rewrite Hc. reflexivity.
Qed.

(** X3: toggleMobileMenu on a page with the toggle and the menu
    completes and flips both indicators: aria-expanded becomes "true"
    unless it was "true" (then "false"), and the menu carries the
    mobile-open class afterwards exactly when it did not before; no other
    class of the menu, no link and not the header is touched.  When the
    menu container is missing it raises a TypeError after aria-expanded
    has already been flipped. *)
Theorem mobile_menu_toggle_flips s t :
  mobileToggle s = Some t ->
  match navMenu s with
  | Some c =>
      exists s' t' c',
        toggleMobileMenu s = (s', Normal tt) /\
        mobileToggle s' = Some t' /\ navMenu s' = Some c' /\
        (ariaExpanded t' = Some (js "true")
         <-> ariaExpanded t <> Some (js "true")) /\
        (ariaExpanded t' = Some (js "false")
         <-> ariaExpanded t = Some (js "true")) /\
        mt_listeners t' = mt_listeners t /\
        ClassList.contains c' mobile_open
          = negb (ClassList.contains c mobile_open) /\
        (forall tok, tok <> mobile_open ->
           ClassList.contains c' tok = ClassList.contains c tok) /\
        navLinks s' = navLinks s /\ header s' = header s
  | None =>
      exists s' t',
        toggleMobileMenu s = (s', Throw TypeError) /\
        mobileToggle s' = Some t' /\
        (ariaExpanded t' = Some (js "true")
         <-> ariaExpanded t <> Some (js "true")) /\
        navLinks s' = navLinks s /\ header s' = header s
  end.
Proof.
  intros Ht.
  assert (forall v : list N,
            (Some (if negb match ariaExpanded t with
                           | Some v => str_eqb v (js "true")
                           | None => false
                           end
                   then js "true" else js "false") = Some (js "true")
             <-> ariaExpanded t <> Some (js "true")) /\
            (Some (if negb match ariaExpanded t with
                           | Some v => str_eqb v (js "true")
                           | None => false
                           end
                   then js "true" else js "false") = Some (js "false")
             <-> ariaExpanded t = Some (js "true"))) as Haria.
  { intros _. destruct (ariaExpanded t) as [v|]; cbn [negb].
    - destruct (str_eqb v (js "true")) eqn:E; cbn [negb].
      + apply str_eqb_true in E. subst v.
        split; split; try discriminate; try tauto; auto.
      + apply str_eqb_false in E.
        split; split; try discriminate; try congruence; auto.
    - split; split; try discriminate; auto. }
  destruct (Haria []) as [Htrue Hfalse].
  destruct (navMenu s) as [c|] eqn:Hc.
  - do 3 eexists. split; [apply (toggleMobileMenu_run s t c Ht Hc)|].
    cbn [mobileToggle navMenu navLinks header set_navMenu set_mobileToggle].
    split; [reflexivity|]. split; [reflexivity|].
    cbn [ariaExpanded mt_listeners].
    split; [exact Htrue|]. split; [exact Hfalse|]. split; [reflexivity|].
    split; [apply contains_toggle_same|].
    split; [intros tok Hne; apply contains_toggle_other, Hne|].
    split; reflexivity.
  - unfold toggleMobileMenu. rewrite Ht. cbn [navMenu set_mobileToggle].
    rewrite Hc. do 2 eexists. split; [reflexivity|].
    cbn [mobileToggle navLinks header set_mobileToggle].
    split; [reflexivity|]. cbn [ariaExpanded].
    split; [exact Htrue|]. split; reflexivity.
Qed.

Lemma mobile_menu_toggle_flips_witness :
  exists s' t' c',
    toggleMobileMenu far_page = (s', Normal tt) /\
    mobileToggle s' = Some t' /\ navMenu s' = Some c' /\
    ariaExpanded t' = Some (js "true") /\
    ClassList.contains c' mobile_open = true.
Proof.
  pose proof (mobile_menu_toggle_flips far_page _ eq_refl) as H.
  change (navMenu far_page) with (Some [js "nav-links"]) in H.
  destruct H as (s' & t' & c' & Hrun & Ht & Hc & Htrue & _ & _ & Hopen & _).
  exists s', t', c'.
  split; [exact Hrun|]. split; [exact Ht|]. split; [exact Hc|].
  split; [apply Htrue; discriminate | rewrite Hopen; reflexivity].
Defined.

(** X4: closeMobileMenu on a page with the toggle and the menu
    completes, sets aria-expanded to "false" and leaves the menu without
    the mobile-open class, whatever they were; the other classes of the
    menu are kept.  Closing again changes nothing, and a toggle after a
    close opens the menu. *)
Theorem close_menu_closes s t c :
  mobileToggle s = Some t -> navMenu s = Some c ->
  exists s' t' c',
    closeMobileMenu s = (s', Normal tt) /\
    mobileToggle s' = Some t' /\ navMenu s' = Some c' /\
    ariaExpanded t' = Some (js "false") /\
    ClassList.contains c' mobile_open = false /\
    (forall tok, tok <> mobile_open ->
       ClassList.contains c' tok = ClassList.contains c tok) /\
    closeMobileMenu s' = (s', Normal tt) /\
    (exists s'' t'' c'',
       toggleMobileMenu s' = (s'', Normal tt) /\
       mobileToggle s'' = Some t'' /\ navMenu s'' = Some c'' /\
       ariaExpanded t'' = Some (js "true") /\
       ClassList.contains c'' mobile_open = true).
Proof.
  intros Ht Hc. do 3 eexists.
  split; [apply (closeMobileMenu_run s t c Ht Hc)|].
  cbn [mobileToggle navMenu set_navMenu set_mobileToggle].
  split; [reflexivity|]. split; [reflexivity|]. cbn [ariaExpanded].
  split; [reflexivity|]. split; [apply contains_remove_same|].
  split; [intros tok Hne; apply contains_remove_other, Hne|].
  split.
  - erewrite closeMobileMenu_run by reflexivity.
    cbn [mt_listeners]. rewrite remove_idem. destruct s; reflexivity.
  - do 3 eexists. split; [erewrite toggleMobileMenu_run by reflexivity;
                          reflexivity|].
    cbn [mobileToggle navMenu set_navMenu set_mobileToggle].
    split; [reflexivity|]. split; [reflexivity|].
    split; [reflexivity|].
    rewrite contains_toggle_same, contains_remove_same. reflexivity.
Qed.

Lemma close_menu_closes_witness :
  exists s' t', closeMobileMenu far_page = (s', Normal tt) /\
                mobileToggle s' = Some t' /\
                ariaExpanded t' = Some (js "false").
Proof.
  destruct (close_menu_closes far_page _ _ eq_refl eq_refl)
    as (s' & t' & c' & Hrun & Ht & _ & Ha & _).
  exists s', t'. repeat split; assumption.
Defined.

Lemma updateHeaderOnScroll_some s c :
  header s = Some c ->
  updateHeaderOnScroll s
  = (set_header (Some (header_classes c (scrollY s))) s, Normal tt).
Proof.
  intros Hc. unfold updateHeaderOnScroll, header_classes. rewrite Hc.
  destruct (50 <? scrollY s); reflexivity.
Qed.

Lemma updateHeaderOnScroll_none s :
  header s = None -> updateHeaderOnScroll s = (s, Throw TypeError).
Proof. intros Hc. unfold updateHeaderOnScroll. rewrite Hc. reflexivity. Qed.

Lemma header_classes_spec c y :
  (ClassList.contains (header_classes c y) scrolled = true <-> 50 < y) /\
  (forall tok, tok <> scrolled ->
     ClassList.contains (header_classes c y) tok = ClassList.contains c tok).
Proof.
  unfold header_classes. destruct (50 <? y) eqn:E.
  - apply Z.ltb_lt in E. split.
    + rewrite contains_add_same. tauto.
    + intros tok Hne. apply contains_add_other, Hne.
  - apply Z.ltb_ge in E. split.
    + rewrite contains_remove_same. split; [discriminate | lia].
    + intros tok Hne. apply contains_remove_other, Hne.
Qed.

(** X5: updateHeaderOnScroll on a page with the header completes and
    leaves the header with the scrolled class exactly when scrollY > 50,
    whatever its classes were before; no other class of the header and
    nothing else on the page is touched.  Without the header it raises a
    TypeError and changes nothing. *)
Theorem header_scrolled_iff_past_50 s :
  match header s with
  | Some c =>
      exists c',
        updateHeaderOnScroll s = (set_header (Some c') s, Normal tt) /\
        (ClassList.contains c' scrolled = true <-> 50 < scrollY s) /\
        (forall tok, tok <> scrolled ->
           ClassList.contains c' tok = ClassList.contains c tok)
  | None => updateHeaderOnScroll s = (s, Throw TypeError)
  end.
Proof.
  destruct (header s) as [c|] eqn:Hc.
  - exists (header_classes c (scrollY s)).
    split; [apply updateHeaderOnScroll_some, Hc|].
    apply header_classes_spec.
  - apply updateHeaderOnScroll_none, Hc.
Qed.

(** The state [new NavigationManager()] leaves on a page with the
    mobile toggle. *)
Lemma construct_wired s t :
  mobileToggle s = Some t ->
  construct s =
    (set_scrollListeners
       ((scrollListeners s ++ [OnScrollHeader]) ++ [OnScrollActive])
       (set_navLinks
          (add_listener OnClickClose <$>
             (add_listener OnClickNav <$> navLinks s))
          (set_mobileToggle
             (Some {| ariaExpanded := ariaExpanded t;
                      mt_listeners := S (mt_listeners t) |}) s)),
     Normal tt).
Proof.
  intros Ht. unfold construct, init. cbv [bind modify].
  cbn [mobileToggle set_navLinks]. rewrite Ht. reflexivity.
Qed.

(** Without the mobile toggle it raises after the first loop over the
    links. *)
Lemma construct_unwired s :
  mobileToggle s = None ->
  construct s =
    (set_navLinks (add_listener OnClickNav <$> navLinks s) s,
     Throw TypeError).
Proof.
  intros Ht. unfold construct, init. cbv [bind modify].
  cbn [mobileToggle set_navLinks]. rewrite Ht. reflexivity.
Qed.

Lemma target_contains_href d p l l' :
  href l' = href l -> target_contains d p l' = target_contains d p l.
Proof. intros H. unfold target_contains. rewrite H. reflexivity. Qed.

(** X6: after construction on a page that had no scroll listeners, a
    scroll event to offset y runs the header listener and then the
    active-link listener.  With the header present no exception is
    reported, the header has the scrolled class exactly when y > 50, and
    a link is active exactly when its target section contains y + 100.
    With the header missing the header listener's TypeError is reported
    and the links are marked all the same. *)
Theorem scroll_event_runs_both_listeners s0 t y :
  mobileToggle s0 = Some t -> scrollListeners s0 = [] ->
  exists s s' errs,
    construct s0 = (s, Normal tt) /\
    scroll_to y s = (s', errs) /\
    scrollY s' = y /\
    (forall i l, navLinks s0 !! i = Some l ->
       exists l', navLinks s' !! i = Some l' /\ href l' = href l /\
         (is_active l' = true <-> target_contains (doc s0) (y + 100) l = true))
    /\
    match header s0 with
    | Some c =>
        errs = [] /\
        exists c', header s' = Some c' /\
          (ClassList.contains c' scrolled = true <-> 50 < y) /\
          (forall tok, tok <> scrolled ->
             ClassList.contains c' tok = ClassList.contains c tok)
    | None => errs = [TypeError] /\ header s' = None
    end.
Proof.
  intros Ht Hsl. rewrite (construct_wired s0 t Ht), Hsl.
  set (s := set_scrollListeners _ _).
  assert (doc s = doc s0 /\ header s = header s0 /\
          navLinks s = add_listener OnClickClose <$>
                         (add_listener OnClickNav <$> navLinks s0)) as
    (Hd & Hh & Hn) by (repeat split).
  assert (scroll_to y s =
          dispatch [updateHeaderOnScroll; updateActiveLink None]
                   (set_scrollY y s)) as Hsc by reflexivity.
  assert (forall st : State,
            doc st = doc s0 -> scrollY st = y -> navLinks st = navLinks s ->
            forall i l, navLinks s0 !! i = Some l ->
            exists l',
              navLinks (fst (updateActiveLink None st)) !! i = Some l' /\
              href l' = href l /\
              (is_active l' = true
               <-> target_contains (doc s0) (y + 100) l = true)) as Hmark.
  { intros st Hd' Hy Hn' i l Hl. rewrite updateActiveLink_scroll.
    cbn [fst navLinks set_navLinks]. rewrite Hn', Hn, Hd', Hy.
    rewrite !list_lookup_fmap, Hl. cbn [fmap option_fmap option_map].
    eexists. split; [reflexivity|].
    rewrite mark_by_scroll_href, mark_by_scroll_active.
    split; [reflexivity|].
    rewrite (target_contains_href _ _ l); [tauto | reflexivity]. }
  destruct (header s0) as [c|] eqn:Hc.
  - pose proof (updateHeaderOnScroll_some (set_scrollY y s) c Hh) as Hrun.
    cbn [dispatch] in Hsc. rewrite Hrun in Hsc.
    rewrite updateActiveLink_scroll in Hsc.
    exists s. eexists. exists []. split; [reflexivity|].
    split; [exact Hsc|]. split; [reflexivity|]. split.
    + intros i l Hl.
      destruct (Hmark (set_header (Some (header_classes c y)) (set_scrollY y s))
                  Hd eq_refl eq_refl i l Hl) as (l' & H1 & H2).
      rewrite updateActiveLink_scroll in H1. eauto.
    + split; [reflexivity|]. exists (header_classes c y).
      split; [reflexivity|]. apply header_classes_spec.
  - pose proof (updateHeaderOnScroll_none (set_scrollY y s) Hh) as Hrun.
    cbn [dispatch] in Hsc. rewrite Hrun in Hsc.
    rewrite updateActiveLink_scroll in Hsc.
    exists s. eexists. exists [TypeError]. split; [reflexivity|].
    split; [exact Hsc|]. split; [reflexivity|]. split.
    + intros i l Hl.
      destruct (Hmark (set_scrollY y s) Hd eq_refl eq_refl i l Hl)
        as (l' & H1 & H2).
      rewrite updateActiveLink_scroll in H1. eauto.
    + split; [reflexivity | exact Hh].
Qed.

Lemma scroll_event_runs_both_listeners_witness :
  exists s s',
    construct far_page = (s, Normal tt) /\
    scroll_to 4950 s = (s', []) /\
    is_active <$> navLinks s' = [false; true].
Proof.
  destruct (scroll_event_runs_both_listeners far_page _ 4950 eq_refl eq_refl)
    as (s & s' & errs & Hc & Hs & _ & _ & Hh).
  change (header far_page) with (Some [js "header"]) in Hh.
  destruct Hh as [-> _].
  exists s, s'. split; [exact Hc|]. split; [exact Hs|].
  assert (s = fst (construct far_page)) as -> by (rewrite Hc; reflexivity).
  assert (s' = fst (scroll_to 4950 (fst (construct far_page)))) as ->
    by (rewrite Hs; reflexivity).
  vm_compute. reflexivity.
Defined.

Lemma is_active_add_listener h l : is_active (add_listener h l) = is_active l.
Proof. reflexivity. Qed.

(** X7: after construction on a page with the mobile toggle and the
    menu, a click on a navigation link (that had no listeners before)
    runs handleNavClick and then closeMobileMenu: the default action is
    cancelled and the menu ends closed (aria-expanded "false", no
    mobile-open class) in every case.  When the href selects an element
    exactly the links with that href are active afterwards and nothing is
    reported; when it selects nothing the active classes stay as they
    were and nothing is reported; when it is not a valid selector the
    SyntaxError of handleNavClick is reported and the menu is closed all
    the same. *)
Theorem link_click_closes_menu s0 t c i l :
  mobileToggle s0 = Some t -> navMenu s0 = Some c ->
  navLinks s0 !! i = Some l -> listeners l = [] ->
  exists s s' errs t' c',
    construct s0 = (s, Normal tt) /\
    click_link i s = (s', errs) /\
    defaultPrevented s' = true /\
    mobileToggle s' = Some t' /\ ariaExpanded t' = Some (js "false") /\
    navMenu s' = Some c' /\ ClassList.contains c' mobile_open = false /\
    match querySelector (doc s0) (href l) with
    | Normal (Some _) =>
        errs = [] /\ scrolledTo s' = scrolledTo s0 ++ [href l] /\
        forall j lj, navLinks s0 !! j = Some lj ->
          exists lj', navLinks s' !! j = Some lj' /\
                      (is_active lj' = true <-> href lj = href l)
    | Normal None =>
        errs = [] /\ scrolledTo s' = scrolledTo s0 /\
        is_active <$> navLinks s' = is_active <$> navLinks s0
    | Throw e =>
        errs = [e] /\ scrolledTo s' = scrolledTo s0 /\
        is_active <$> navLinks s' = is_active <$> navLinks s0
    end.
Proof.
  intros Ht Hc Hl Hls. rewrite (construct_wired s0 t Ht).
  set (s := set_scrollListeners _ _).
  set (l1 := add_listener OnClickClose (add_listener OnClickNav l)).
  assert (navLinks s !! i = Some l1) as Hl1.
  { unfold s. cbn [navLinks set_scrollListeners set_navLinks].
    rewrite !list_lookup_fmap, Hl. reflexivity. }
  assert (is_active <$> navLinks s = is_active <$> navLinks s0) as Hact.
  { unfold s. cbn [navLinks set_scrollListeners set_navLinks].
    rewrite <- !list_fmap_compose. reflexivity. }
  set (sp := set_defaultPrevented false s).
  assert (click_link i s =
          dispatch [handleNavClick i; closeMobileMenu] sp) as Hclick.
  { unfold click_link. rewrite Hl1. unfold l1.
    cbn [listeners add_listener]. rewrite Hls. reflexivity. }
  assert (forall st : State,
            mobileToggle st = mobileToggle s -> navMenu st = navMenu s ->
            closeMobileMenu st =
              (set_navMenu (Some (ClassList.remove c mobile_open))
                 (set_mobileToggle
                    (Some {| ariaExpanded := Some (js "false");
                             mt_listeners := S (mt_listeners t) |}) st),
               Normal tt)) as Hclose.
  { intros st Hmt Hnm.
    apply (closeMobileMenu_run st
             {| ariaExpanded := ariaExpanded t;
                mt_listeners := S (mt_listeners t) |} c).
    - rewrite Hmt. reflexivity.
    - rewrite Hnm. exact Hc. }
  destruct (querySelector (doc s0) (href l)) as [[b|]|e] eqn:Hq.
  - pose proof (handleNavClick_found sp i l1 b Hl1 Hq) as Hrun.
    cbn [dispatch] in Hclick. rewrite Hrun in Hclick.
    rewrite Hclose in Hclick by reflexivity.
    exists s. do 2 eexists. exists {| ariaExpanded := Some (js "false");
                                     mt_listeners := S (mt_listeners t) |}.
    exists (ClassList.remove c mobile_open).
    split; [reflexivity|]. split; [exact Hclick|].
    split; [reflexivity|]. split; [reflexivity|]. split; [reflexivity|].
    split; [reflexivity|]. split; [apply contains_remove_same|].
    split; [reflexivity|]. split; [reflexivity|].
    intros j lj Hj. eexists.
    cbn [navLinks set_navMenu set_mobileToggle set_navLinks set_scrolledTo
         set_defaultPrevented set_scrollListeners sp s].
    split.
    + rewrite !list_lookup_fmap, Hj. reflexivity.
    + rewrite mark_by_href_active. apply str_eqb_true.
  - pose proof (handleNavClick_null sp i l1 Hl1 Hq) as Hrun.
    cbn [dispatch] in Hclick. rewrite Hrun in Hclick.
    rewrite Hclose in Hclick by reflexivity.
    exists s. do 2 eexists. exists {| ariaExpanded := Some (js "false");
                                     mt_listeners := S (mt_listeners t) |}.
    exists (ClassList.remove c mobile_open).
    split; [reflexivity|]. split; [exact Hclick|].
    split; [reflexivity|]. split; [reflexivity|]. split; [reflexivity|].
    split; [reflexivity|]. split; [apply contains_remove_same|].
    split; [reflexivity|]. split; [reflexivity|]. exact Hact.
  - pose proof (handleNavClick_invalid sp i l1 e Hl1 Hq) as Hrun.
    cbn [dispatch] in Hclick. rewrite Hrun in Hclick.
    rewrite Hclose in Hclick by reflexivity.
    exists s. do 2 eexists. exists {| ariaExpanded := Some (js "false");
                                     mt_listeners := S (mt_listeners t) |}.
    exists (ClassList.remove c mobile_open).
    split; [reflexivity|]. split; [exact Hclick|].
    split; [reflexivity|]. split; [reflexivity|]. split; [reflexivity|].
    split; [reflexivity|]. split; [apply contains_remove_same|].
    split; [reflexivity|]. split; [reflexivity|]. exact Hact.
Qed.

Lemma link_click_closes_menu_witness :
  exists s s' t',
    construct far_page = (s, Normal tt) /\
    click_link 1 s = (s', []) /\
    mobileToggle s' = Some t' /\ ariaExpanded t' = Some (js "false").
Proof.
  destruct (link_click_closes_menu far_page _ _ 1
              (plain_link (js "#contact")) eq_refl eq_refl eq_refl eq_refl)
    as (s & s' & errs & t' & c' & Hc & Hk & _ & Ht & Ha & _ & _ & Hm).
  change (querySelector (doc far_page) (href (plain_link (js "#contact"))))
    with (Normal (Some {| offsetTop := 5000; offsetHeight := 800 |})) in Hm.
  destruct Hm as (-> & _).
  exists s, s', t'. repeat split; assumption.
Defined.

Lemma mark_by_scroll_idem d p l :
  mark_by_scroll d p (mark_by_scroll d p l) = mark_by_scroll d p l.
Proof.
  unfold mark_by_scroll at 1. rewrite mark_by_scroll_href.
  unfold mark_by_scroll.
  destruct (getElementById d (tail (href l))) as [b|];
    [destruct (contains_pos b p)|];
    cbn [classList set_classList href listeners];
    rewrite ?remove_add_remove, ?remove_idem; reflexivity.
Qed.

Lemma mark_by_href_idem h l :
  mark_by_href h (mark_by_href h l) = mark_by_href h l.
Proof.
  unfold mark_by_href at 1. rewrite mark_by_href_href.
  unfold mark_by_href.
  destruct (str_eqb (href l) h);
    cbn [classList set_classList href listeners];
    rewrite ?remove_add_remove, ?remove_idem; reflexivity.
Qed.

Lemma mark_by_href_frame h l tok :
  tok <> active ->
  ClassList.contains (classList (mark_by_href h l)) tok
  = ClassList.contains (classList l) tok.
Proof.
  intros Hne. apply eq_true_iff_eq. unfold mark_by_href.
  destruct (str_eqb (href l) h); cbn [classList set_classList];
    rewrite ?contains_add, contains_remove; tauto.
Qed.

(** What updateActiveLink does to the page, in either branch: the links
    are mapped through a marking function that keeps hrefs, listeners
    and every class but "active" and that is idempotent. *)
Lemma updateActiveLink_map h s :
  exists f : NavLink -> NavLink,
    updateActiveLink h s = (set_navLinks (f <$> navLinks s) s, Normal tt) /\
    (forall st, doc st = doc s -> scrollY st = scrollY s ->
       updateActiveLink h st
       = (set_navLinks (f <$> navLinks st) st, Normal tt)) /\
    (forall l, f (f l) = f l) /\
    (forall l, href (f l) = href l /\ listeners (f l) = listeners l) /\
    (forall l tok, tok <> active ->
       ClassList.contains (classList (f l)) tok
       = ClassList.contains (classList l) tok).
Proof.
  destruct h as [[|c r]|].
  - exists (mark_by_scroll (doc s) (scrollY s + 100)).
    split; [reflexivity|]. split.
    { intros st Hd Hy. rewrite <- Hd, <- Hy. reflexivity. }
    split; [apply mark_by_scroll_idem|]. split.
    + intros l. split; [apply mark_by_scroll_href|].
      unfold mark_by_scroll. destruct (getElementById _ _);
        [destruct (contains_pos _ _)|]; reflexivity.
    + intros l tok. apply mark_by_scroll_frame.
  - exists (mark_by_href (c :: r)).
    split; [reflexivity|]. split; [reflexivity|].
    split; [apply mark_by_href_idem|]. split.
    + intros l. split; [apply mark_by_href_href|].
      unfold mark_by_href. destruct (str_eqb _ _); reflexivity.
    + intros l tok. apply mark_by_href_frame.
  - exists (mark_by_scroll (doc s) (scrollY s + 100)).
    split; [reflexivity|]. split.
    { intros st Hd Hy. rewrite <- Hd, <- Hy. reflexivity. }
    split; [apply mark_by_scroll_idem|]. split.
    + intros l. split; [apply mark_by_scroll_href|].
      unfold mark_by_scroll. destruct (getElementById _ _);
        [destruct (contains_pos _ _)|]; reflexivity.
    + intros l tok. apply mark_by_scroll_frame.
Qed.

(** X8: updateActiveLink, called with an href, with the empty string or
    with nothing, always completes; it keeps the number and order of the
    links, their hrefs and listeners and every class other than
    "active", and touches nothing else on the page; and calling it a
    second time with the same argument changes nothing. *)
Theorem updateActiveLink_is_stable h s :
  exists s1,
    updateActiveLink h s = (s1, Normal tt) /\
    updateActiveLink h s1 = (s1, Normal tt) /\
    href <$> navLinks s1 = href <$> navLinks s /\
    listeners <$> navLinks s1 = listeners <$> navLinks s /\
    (forall i l l' tok,
       navLinks s !! i = Some l -> navLinks s1 !! i = Some l' ->
       tok <> active ->
       ClassList.contains (classList l') tok
       = ClassList.contains (classList l) tok) /\
    s1 = set_navLinks (navLinks s1) s.
Proof.
  destruct (updateActiveLink_map h s) as (f & Hrun & Hext & Hidem & Hkeep & Hfr).
  eexists. split; [exact Hrun|]. split; [|split; [|split; [|split]]].
  - rewrite Hext by reflexivity. cbn [navLinks set_navLinks].
    rewrite <- list_fmap_compose.
    rewrite (list_fmap_ext (f ∘ f) f (navLinks s))
      by (intros; apply Hidem).
    destruct s; reflexivity.
  - cbn [navLinks set_navLinks]. rewrite <- list_fmap_compose.
    apply list_fmap_ext. intros _ l _. apply Hkeep.
  - cbn [navLinks set_navLinks]. rewrite <- list_fmap_compose.
    apply list_fmap_ext. intros _ l _. apply Hkeep.
  - cbn [navLinks set_navLinks]. intros i l l' tok Hl Hl' Hne.
    rewrite list_lookup_fmap, Hl in Hl'. inversion Hl'; subst.
    apply Hfr, Hne.
  - destruct s; reflexivity.
Qed.

(** X9: on a page without the mobile toggle (and without earlier
    listeners) the constructor raises a TypeError after the links have
    got their handleNavClick listener only: no scroll listener is
    registered, so a scroll event changes nothing but the scroll
    offset, while a click on a link whose href selects an element still
    cancels the default action and leaves active exactly the links with
    that href. *)
Theorem navigation_without_mobile_toggle s0 :
  mobileToggle s0 = None -> scrollListeners s0 = [] ->
  exists s,
    construct s0 = (s, Throw TypeError) /\
    header s = header s0 /\
    (forall y, scroll_to y s = (set_scrollY y s, [])) /\
    (forall i l b,
       navLinks s0 !! i = Some l -> listeners l = [] ->
       querySelector (doc s0) (href l) = Normal (Some b) ->
       exists s',
         click_link i s = (s', []) /\
         defaultPrevented s' = true /\
         forall j lj, navLinks s0 !! j = Some lj ->
           exists lj', navLinks s' !! j = Some lj' /\
                       (is_active lj' = true <-> href lj = href l)).
Proof.
  intros Ht Hsl. rewrite (construct_unwired s0 Ht).
  eexists. split; [reflexivity|]. split; [reflexivity|]. split.
  - intros y. unfold scroll_to.
    cbn [scrollListeners set_navLinks set_scrollY]. rewrite Hsl. reflexivity.
  - intros i l b Hl Hls Hq.
    set (s := set_navLinks (add_listener OnClickNav <$> navLinks s0) s0).
    set (l1 := add_listener OnClickNav l).
    assert (navLinks s !! i = Some l1) as Hl1.
    { unfold s. cbn [navLinks set_navLinks].
      rewrite list_lookup_fmap, Hl. reflexivity. }
    unfold click_link. rewrite Hl1. unfold l1 at 1.
    cbn [listeners add_listener]. rewrite Hls.
    cbn [app map link_handler dispatch].
    rewrite (handleNavClick_found (set_defaultPrevented false s) i l1 b Hl1 Hq).
    eexists. split; [reflexivity|]. split; [reflexivity|].
    intros j lj Hj. eexists.
    cbn [navLinks set_navLinks set_scrolledTo set_defaultPrevented s].
    split.
    + rewrite !list_lookup_fmap, Hj. reflexivity.
    + rewrite mark_by_href_active. apply str_eqb_true.
Qed.

Lemma navigation_without_mobile_toggle_witness :
  exists s, construct (set_mobileToggle None far_page) = (s, Throw TypeError)
            /\ scroll_to 4950 s = (set_scrollY 4950 s, []).
Proof.
  destruct (navigation_without_mobile_toggle
              (set_mobileToggle None far_page) eq_refl eq_refl)
    as (s & Hc & _ & Hs & _).
  exists s. split; [exact Hc | apply Hs].
Defined.

End NavigationManagerFacts.

Module ObserverFacts.

Lemma observed_entries_elem obs batch e :
  e ∈ observed_entries obs batch <-> target e ∈ obs /\ e ∈ batch.
Proof.
  unfold observed_entries.
  apply (list_elem_of_filter (fun e => target e ∈ obs)).
Qed.

Lemma reported_nil x : ~ reported x [].
Proof. intros (b & e & Hb & _). inversion Hb. Qed.

Lemma reported_snoc x batches batch :
  reported x (batches ++ [batch]) <->
  reported x batches \/
  exists e, e ∈ batch /\ target e = x /\ isIntersecting e = true.
Proof.
  unfold reported. split.
  - intros (b & e & Hb & He & Ht & Hi).
    apply elem_of_app in Hb as [Hb | Hb].
    + left. eauto 6.
    + apply list_elem_of_singleton in Hb as ->. right. eauto.
  - intros [(b & e & Hb & He) | (e & He)].
    + exists b, e. split; [apply elem_of_app; auto | exact He].
    + exists batch, e. split; [|exact He].
      apply elem_of_app. right. by apply list_elem_of_singleton.
Qed.

Lemma reported_cons x batch batches :
  reported x (batch :: batches) <->
  (exists e, e ∈ batch /\ target e = x /\ isIntersecting e = true) \/
  reported x batches.
Proof.
  unfold reported. split.
  - intros (b & e & Hb & He).
    apply elem_of_cons in Hb as [-> | Hb]; [left; eauto | right; eauto].
  - intros [(e & He) | (b & e & Hb & He)].
    + exists batch, e. split; [left | exact He].
    + exists b, e. split; [right; exact Hb | exact He].
Qed.

(** A batch has no intersecting entry for [x] exactly when the count is
    zero. *)
Lemma intersections_zero x batch :
  intersections x batch = 0%nat <->
  ~ exists e, e ∈ batch /\ target e = x /\ isIntersecting e = true.
Proof.
  unfold intersections. induction batch as [|e b IH].
  - split; [|reflexivity]. intros _ (e & He & _). inversion He.
  - rewrite filter_cons.
    destruct (decide (target e = x /\ isIntersecting e = true)) as [[Ht Hi]|Hn].
    + split; [discriminate|]. intros H. exfalso. apply H.
      exists e. split; [left | auto].
    + rewrite IH. split.
      * intros H (e' & He' & Ht & Hi).
        apply elem_of_cons in He' as [-> | He']; [tauto|].
        apply H. eauto.
      * intros H (e' & He' & Hr). apply H. exists e'.
        split; [right; exact He' | exact Hr].
Qed.

(** An element is reported exactly when some batch counts it. *)
Lemma first_report_pos x batches :
  reported x batches <-> (1 <= first_report x batches)%nat.
Proof.
  induction batches as [|b r IH]; cbn [first_report].
  - split; [intros H; destruct (reported_nil _ H) | lia].
  - rewrite reported_cons.
    destruct (intersections x b) as [|k] eqn:Ek.
    + apply intersections_zero in Ek. rewrite <- IH. tauto.
    + split; [lia|]. intros _. left.
      destruct (decide (Exists (fun e => target e = x /\
                                         isIntersecting e = true) b))
        as [H|H].
      * apply Exists_exists in H as (e & He & Hr). eauto.
      * exfalso. assert (intersections x b = 0%nat) as H0; [|lia].
        apply intersections_zero. intros (e & He & Hr). apply H.
        apply Exists_exists. eauto.
Qed.

(** Whether an element is reported can be decided by looking through the
    batches. *)
Lemma classic_reported x batches : reported x batches \/ ~ reported x batches.
Proof.
  destruct (decide (Exists (fun batch =>
              Exists (fun e => target e = x /\ isIntersecting e = true) batch)
              batches)) as [H|H].
  - left. apply Exists_exists in H as (batch & Hb & He).
    apply Exists_exists in He as (e & He & Ht & Hi).
    exists batch, e. auto.
  - right. intros (batch & e & Hb & He & Ht & Hi). apply H.
    apply Exists_exists. exists batch. split; [exact Hb|].
    apply Exists_exists. exists e. auto.
Qed.

End ObserverFacts.

Module SkillAnimatorFacts.
Import SkillAnimator ObserverFacts.

Lemma skill_callback_cons e es s :
  callback (e :: es) s = callback es (on_entry e s).
Proof. reflexivity. Qed.

(** Once the flag is set the callback does nothing. *)
Lemma callback_done entries s :
  hasAnimated s = true -> callback entries s = s.
Proof.
  revert s. induction entries as [|e es IH]; intros s Hs; [reflexivity|].
  rewrite skill_callback_cons. unfold on_entry. rewrite Hs, andb_false_r.
  apply IH, Hs.
Qed.

(** With the flag clear, the callback animates once if some entry
    intersects, and otherwise leaves the state alone. *)
Lemma callback_fresh entries s :
  hasAnimated s = false ->
  ((exists e, e ∈ entries /\ isIntersecting e = true) /\
   hasAnimated (callback entries s) = true /\
   animateCalls (callback entries s) = S (animateCalls s)) \/
  ((forall e, e ∈ entries -> isIntersecting e = false) /\
   callback entries s = s).
Proof.
  revert s. induction entries as [|e es IH]; intros s Hs.
  - right. split; [|reflexivity]. intros e He. inversion He.
  - rewrite skill_callback_cons. unfold on_entry. rewrite Hs, andb_true_r.
    destruct (isIntersecting e) eqn:Ei.
    + left. split; [exists e; split; [left|exact Ei]|].
      rewrite callback_done by reflexivity.
      split; reflexivity.
    + destruct (IH s Hs) as [((e' & He' & Hi) & Hh & Hc) | (Hall & Heq)].
      * left. split; [exists e'; split; [right; exact He'|exact Hi]|].
        auto.
      * right. split; [|exact Heq].
        intros e' He'. apply elem_of_cons in He' as [-> | He'];
          [exact Ei | auto].
Qed.

(** State of the animator after any notifications: either it has not
    animated, is still observing what it observed at construction and
    nothing observed was reported; or it has animated exactly once and
    the skills section was reported. *)
Lemma skill_run_inv p batches :
  let s := run batches (construct p) in
  (hasAnimated s = false /\ animateCalls s = 0%nat /\
   observed s = observed (construct p) /\
   ~ (exists sec, p_skillsSection p = Some sec /\ reported sec batches)) \/
  (hasAnimated s = true /\ animateCalls s = 1%nat /\
   exists sec, p_skillsSection p = Some sec /\ reported sec batches).
Proof.
  induction batches as [|batch batches IH] using rev_ind; cbv zeta.
  - left. repeat split. intros (sec & _ & Hr). exact (reported_nil _ Hr).
  - unfold run. rewrite foldl_snoc. fold (run batches (construct p)).
    cbv zeta in IH. set (s := run batches (construct p)) in *.
    destruct IH as [(Hh & Hc & Ho & Hn) | (Hh & Hc & sec & Hsec & Hr)].
    + unfold notify.
      destruct (callback_fresh (observed_entries (observed s) batch) s Hh)
        as [((e & He & Hi) & Hh' & Hc') | (Hall & Heq)].
      * right. split; [exact Hh'|]. split; [rewrite Hc', Hc; reflexivity|].
        apply observed_entries_elem in He as [Hobs He].
        rewrite Ho in Hobs. cbn [construct observed] in Hobs.
        destruct (p_skillsSection p) as [sec|] eqn:Hsec;
          [|exfalso; set_solver].
        exists sec. split; [reflexivity|].
        apply reported_snoc. right. exists e.
        split; [exact He|]. split; [set_solver|exact Hi].
      * left. rewrite Heq. split; [exact Hh|]. split; [exact Hc|].
        split; [exact Ho|].
        intros (sec & Hsec & Hr). apply reported_snoc in Hr as [Hr | Hr].
        -- apply Hn. eauto.
        -- destruct Hr as (e & He & Ht & Hi).
           assert (e ∈ observed_entries (observed s) batch) as Hin.
           { apply observed_entries_elem. split; [|exact He].
             rewrite Ho. cbn [construct observed]. rewrite Hsec, Ht.
             set_solver. }
           rewrite (Hall e Hin) in Hi. discriminate.
    + right. unfold notify. rewrite callback_done by exact Hh.
      split; [exact Hh|]. split; [exact Hc|].
      exists sec. split; [exact Hsec|]. apply reported_snoc. auto.
Qed.

(** Even a callback invoked outside the platform's filtering, say after
    the section was observed again, animates at most once. *)
Lemma raw_callbacks_animate_once p (batches : list (list Entry)) :
  (animateCalls
     (foldl (fun s b => callback b s) (construct p) batches) <= 1)%nat.
Proof.
  assert (forall s, (hasAnimated s = false /\ animateCalls s = 0%nat) \/
                    (hasAnimated s = true /\ animateCalls s = 1%nat) ->
    (animateCalls (foldl (fun s b => callback b s) s batches) <= 1)%nat)
    as H.
  { induction batches as [|b bs IH]; intros s Hs; cbn [foldl].
    - destruct Hs as [[_ ->] | [_ ->]]; lia.
    - apply IH. destruct Hs as [[Hh Hc] | [Hh Hc]].
      + destruct (callback_fresh b s Hh) as [(_ & Hh' & Hc') | (_ & ->)].
        * right. split; [exact Hh'|]. rewrite Hc', Hc. reflexivity.
        * left. auto.
      + rewrite callback_done by exact Hh. right. auto. }
  apply H. left. split; reflexivity.
Qed.

(** With the flag clear, the callback either finds no intersecting
    entry and does nothing, or acts on the first one. *)
Lemma callback_fresh_state entries s :
  hasAnimated s = false ->
  ((forall e, e ∈ entries -> isIntersecting e = false) /\
   callback entries s = s) \/
  (exists e, e ∈ entries /\ isIntersecting e = true /\
     callback entries s =
       {| skillBars := skillBars s;
          hasAnimated := true;
          observed := observed s ∖ {[ target e ]};
          timers := timers s ++
                    imap (fun index _ => (Z.of_nat index * 100, index))
                         (skillBars s);
          animateCalls := S (animateCalls s) |}).
Proof.
  revert s. induction entries as [|e es IH]; intros s Hs.
  - left. split; [|reflexivity]. intros e He. inversion He.
  - rewrite skill_callback_cons. unfold on_entry. rewrite Hs, andb_true_r.
    destruct (isIntersecting e) eqn:Ei.
    + right. exists e. split; [left|]. split; [exact Ei|].
      rewrite callback_done by reflexivity. reflexivity.
    + destruct (IH s Hs) as [(Hall & Heq) | (e' & He' & Hi & Heq)].
      * left. split; [|exact Heq].
        intros e' He'. apply elem_of_cons in He' as [-> | He'];
          [exact Ei | auto].
      * right. exists e'. split; [right; exact He'|]. auto.
Qed.

(** The state of the animator after any notifications: as constructed
    until the skills section is reported, and from then on animated once,
    with one timer per bar and nothing observed. *)
Lemma skill_run_state p batches :
  ((~ exists sec, p_skillsSection p = Some sec /\ reported sec batches) /\
   run batches (construct p) = construct p) \/
  ((exists sec, p_skillsSection p = Some sec /\ reported sec batches) /\
   run batches (construct p) =
     {| skillBars := p_skillBars p;
        hasAnimated := true;
        observed := ∅;
        timers := imap (fun index _ => (Z.of_nat index * 100, index))
                       (p_skillBars p);
        animateCalls := 1 |}).
Proof.
  induction batches as [|batch batches IH] using rev_ind.
  - left. split; [|reflexivity].
    intros (sec & _ & Hr). exact (reported_nil _ Hr).
  - unfold run. rewrite foldl_snoc. fold (run batches (construct p)).
    destruct IH as [(Hn & Heq) | ((sec & Hsec & Hr) & Heq)]; rewrite Heq.
    + unfold notify.
      destruct (callback_fresh_state
                  (observed_entries (observed (construct p)) batch)
                  (construct p) eq_refl)
        as [(Hall & Hc) | (e & He & Hi & Hc)]; rewrite Hc.
      * left. split; [|reflexivity].
        intros (sec & Hsec & Hr). apply reported_snoc in Hr as [Hr | Hr].
        -- apply Hn. eauto.
        -- destruct Hr as (e & He & Ht & Hi).
           assert (e ∈ observed_entries (observed (construct p)) batch)
             as Hin.
           { apply observed_entries_elem. split; [|exact He].
             cbn [construct observed]. rewrite Hsec, Ht. set_solver. }
           rewrite (Hall e Hin) in Hi. discriminate.
      * apply observed_entries_elem in He as [Hobs He].
        cbn [construct observed] in Hobs.
        destruct (p_skillsSection p) as [sec|] eqn:Hsec;
          [|exfalso; set_solver].
        assert (target e = sec) as Ht by set_solver.
        right. split.
        -- exists sec. split; [reflexivity|].
           apply reported_snoc. right. eauto.
        -- cbn [construct skillBars observed timers animateCalls].
           rewrite Hsec, Ht, difference_diag_L. reflexivity.
    + right. split.
      * exists sec. split; [exact Hsec|]. apply reported_snoc. auto.
      * unfold notify. apply callback_done. reflexivity.
Qed.

(** Running the timers of the bars [0 .. k-1]. *)
Lemma timers_fill (bars : list Bar) k s :
  skillBars s = bars ->
  let s' := foldl (fun s index => timer_body index s) s (seq 0 k) in
  (forall j, skillBars s' !! j =
             if decide (j < k)%nat then filled <$> bars !! j else bars !! j) /\
  hasAnimated s' = hasAnimated s /\ observed s' = observed s /\
  timers s' = timers s /\ animateCalls s' = animateCalls s.
Proof.
  intros Hb. induction k as [|k IH]; cbv zeta.
  - cbn [seq foldl]. split; [|repeat split].
    intros j. rewrite Hb. destruct (decide (j < 0)%nat); [lia | reflexivity].
  - rewrite seq_S, foldl_snoc. cbn [plus].
    cbv zeta in IH. destruct IH as (Hl & Hh & Ho & Ht & Hc).
    set (s' := foldl _ s (seq 0 k)) in *.
    unfold timer_body. rewrite (Hl k).
    destruct (decide (k < k)%nat); [lia|].
    destruct (bars !! k) as [bar|] eqn:Hk.
    + cbn [skillBars hasAnimated observed timers animateCalls].
      split; [|repeat split; assumption].
      intros j. destruct (decide (k = j)) as [<-|Hne].
      * rewrite list_lookup_insert_eq.
        -- destruct (decide (k < S k)%nat); [|lia]. rewrite Hk. reflexivity.
        -- apply lookup_lt_is_Some. rewrite (Hl k).
           destruct (decide (k < k)%nat); [lia|]. rewrite Hk. eauto.
      * rewrite list_lookup_insert_ne by exact Hne. rewrite (Hl j).
        destruct (decide (j < k)%nat), (decide (j < S k)%nat);
          try reflexivity; lia.
    + split; [|repeat split; assumption].
      intros j. rewrite (Hl j).
      destruct (decide (j < k)%nat), (decide (j < S k)%nat);
        try reflexivity; try lia.
      assert (j = k) as -> by lia. rewrite Hk. reflexivity.
Qed.

(** X10: once the skills section has been reported as intersecting,
    whatever else was notified, the animator holds one pending timer per
    skill bar, the bar at index i being due after i * 100 ms; and when
    these timers have run every bar keeps its inline width, a bar whose
    inline width is not empty has its --skill-width set to that width,
    and a bar with no inline width has no --skill-width, whatever it had
    before. *)
Theorem skill_bars_filled_after_timers p batches sec :
  p_skillsSection p = Some sec -> reported sec batches ->
  let s := run batches (construct p) in
  timers s = imap (fun index _ => (Z.of_nat index * 100, index))
                  (p_skillBars p) /\
  skillBars s = p_skillBars p /\
  skillBars (run_timers s) = filled <$> p_skillBars p /\
  (forall i bar, skillBars (run_timers s) !! i = Some bar ->
     (width <$> p_skillBars p) !! i = Some (width bar) /\
     (width bar <> [] -> skillWidth bar = Some (width bar)) /\
     (width bar = [] -> skillWidth bar = None)) /\
  timers (run_timers s) = [].
Proof.
  intros Hsec Hr. cbv zeta.
  destruct (skill_run_state p batches) as [(Hn & _) | (_ & Heq)];
    [exfalso; apply Hn; eauto|].
  rewrite Heq. cbn [timers skillBars].
  split; [reflexivity|]. split; [reflexivity|].
  unfold run_timers. cbn [timers skillBars hasAnimated observed animateCalls].
  rewrite (imap_seq_0 (p_skillBars p)
             (fun index => (Z.of_nat index * 100, index))).
  rewrite foldl_fmap. cbn [snd].
  match goal with
  | |- context [foldl _ ?s0 _] =>
      destruct (timers_fill (p_skillBars p) (length (p_skillBars p)) s0
                  eq_refl) as (Hl & _ & _ & Ht & _)
  end.
  cbv zeta in Hl, Ht.
  assert (skillBars
            (foldl (fun s index => timer_body index s)
               {| skillBars := p_skillBars p; hasAnimated := true;
                  observed := ∅; timers := []; animateCalls := 1 |}
               (seq 0 (length (p_skillBars p))))
          = filled <$> p_skillBars p) as Hfill.
  { apply list_eq. intros j. rewrite (Hl j), list_lookup_fmap.
    destruct (decide (j < length (p_skillBars p))%nat) as [|Hge];
      [reflexivity|].
    rewrite (lookup_ge_None_2 (p_skillBars p) j) by lia. reflexivity. }
  split; [exact Hfill|]. split; [|exact Ht].
  intros i bar Hi. rewrite Hfill, list_lookup_fmap in Hi.
  destruct (p_skillBars p !! i) as [b|] eqn:Hb; [|discriminate].
  inversion Hi; subst. cbn [filled skillWidth width].
  split; [rewrite list_lookup_fmap, Hb; reflexivity|].
  unfold setProperty. destruct (width b); split; congruence.
Qed.

Lemma skill_bars_filled_after_timers_witness :
  skillBars
    (run_timers (run sample_skill_batches (construct mixed_skill_page)))
  = [ {| width := js "90%"; skillWidth := Some (js "90%") |};
      {| width := []; skillWidth := None |} ].
Proof.
  assert (reported 7 sample_skill_batches) as Hr.
  { exists [ {| target := 7; isIntersecting := true |} ],
           {| target := 7; isIntersecting := true |}.
    repeat split; [right; left | left]. }
  destruct (skill_bars_filled_after_timers mixed_skill_page
              sample_skill_batches 7%nat eq_refl Hr) as (_ & _ & Hf & _).
  rewrite Hf. reflexivity.
Defined.

(** X11: until the skills section is reported as intersecting (never, if
    the document has none) notifications leave the animator exactly as
    constructed; once it has been reported the animator observes nothing
    and is inert: further notifications, and even callbacks invoked
    directly with arbitrary entries, leave its state as it is. *)
Theorem skill_animator_state p batches :
  ((~ exists sec, p_skillsSection p = Some sec /\ reported sec batches) ->
   run batches (construct p) = construct p) /\
  ((exists sec, p_skillsSection p = Some sec /\ reported sec batches) ->
   observed (run batches (construct p)) = ∅ /\
   (forall more,
      run (batches ++ more) (construct p) = run batches (construct p)) /\
   (forall entries,
      callback entries (run batches (construct p))
      = run batches (construct p))).
Proof.
  destruct (skill_run_state p batches) as [(Hn & Heq) | (Hr & Heq)].
  - split; [intros _; exact Heq | intros H; contradiction].
  - split; [intros H; contradiction|]. intros _. rewrite Heq.
    split; [reflexivity|]. split.
    + intros more. unfold run. rewrite foldl_app.
      fold (run batches (construct p)). rewrite Heq.
      induction more as [|b more IH]; [reflexivity|].
      cbn [foldl]. unfold notify at 2.
      rewrite callback_done by reflexivity. exact IH.
    + intros entries. apply callback_done. reflexivity.
Qed.

End SkillAnimatorFacts.

Module SectionAnimatorFacts.
Import SectionAnimator ObserverFacts.

Lemma section_callback_cons e es s :
  callback (e :: es) s = callback es (on_entry e s).
Proof. reflexivity. Qed.

(** What one callback invocation does: every intersecting entry is
    animated and its target is unobserved. *)
Lemma callback_effect entries s :
  animated (callback entries s)
    = animated s ++ (target <$> filter intersecting entries) /\
  observed (callback entries s)
    = observed s ∖ list_to_set (target <$> filter intersecting entries) /\
  length (sections (callback entries s)) = length (sections s).
Proof.
  revert s. induction entries as [|e es IH]; intros s.
  - cbn. rewrite app_nil_r. repeat split. set_solver.
  - rewrite section_callback_cons. destruct (IH (on_entry e s)) as (Ha & Ho & Hl).
    rewrite Ha, Ho, Hl. unfold on_entry. rewrite filter_cons.
    destruct (isIntersecting e) eqn:Ei.
    + rewrite decide_True by reflexivity.
      cbn [animated observed sections fmap list_fmap].
      rewrite <- app_assoc, length_insert. repeat split. set_solver.
    + rewrite decide_False by discriminate. repeat split.
Qed.

Lemma observe_all (o : gset nat) (l : list nat) x :
  x ∈ foldl (fun o section => o ∪ {[ section ]}) o l <-> x ∈ o \/ x ∈ l.
Proof.
  revert o. induction l as [|y l IH]; intros o; cbn [foldl].
  - rewrite elem_of_nil. tauto.
  - rewrite IH, elem_of_cons. set_solver.
Qed.

Lemma construct_observed secs x :
  x ∈ observed (construct secs) <-> (x < length secs)%nat.
Proof.
  cbn [construct observed]. rewrite observe_all, elem_of_seq.
  split; [intros [H|H]; [set_solver|lia] | intros H; right; lia].
Qed.

(** The intersecting entries the platform delivers are among the
    intersecting entries of the batch, in the same order. *)
Lemma delivered_sublist obs batch :
  filter intersecting (observed_entries obs batch)
    `sublist_of` filter intersecting batch.
Proof.
  unfold observed_entries. induction batch as [|e b IH]; [constructor|].
  rewrite (filter_cons (fun e => target e ∈ obs)), (filter_cons intersecting e b).
  destruct (decide (target e ∈ obs)).
  - rewrite (filter_cons intersecting).
    destruct (decide (isIntersecting e = true));
      [apply sublist_skip|]; exact IH.
  - destruct (decide (isIntersecting e = true));
      [apply sublist_cons|]; exact IH.
Qed.

Lemma count_NoDup (l : list nat) x :
  NoDup l ->
  (length (filter (fun y => y = x) l) <= 1)%nat /\
  (length (filter (fun y => y = x) l) = 1%nat <-> x ∈ l).
Proof.
  induction 1 as [|y l Hy Hl IH].
  - cbn. rewrite elem_of_nil. split; [lia|]. split; [discriminate|tauto].
  - rewrite filter_cons, elem_of_cons. destruct (decide (y = x)) as [->|Hne].
    + assert (filter (fun y => y = x) l = []) as ->.
      { destruct (filter (fun y => y = x) l) as [|z r] eqn:E; [reflexivity|].
        assert (z ∈ filter (fun y => y = x) l) as Hz by (rewrite E; left).
        apply list_elem_of_filter in Hz as [-> Hz]. contradiction. }
      cbn. split; [lia|]. split; auto.
    + destruct IH as [IH1 IH2]. split; [exact IH1|].
      rewrite IH2. split; [auto|]. intros [->|H]; [contradiction|exact H].
Qed.

(** Invariant of the animator over well-formed notifications. *)
Lemma section_run_inv secs batches :
  Forall batch_ok batches ->
  let s := run batches (construct secs) in
  NoDup (animated s) /\
  (forall x, x ∈ observed s <-> (x < length secs)%nat /\ x ∉ animated s) /\
  (forall x, x ∈ animated s <-> (x < length secs)%nat /\ reported x batches).
Proof.
  induction batches as [|batch batches IH] using rev_ind;
    intros Hok; cbv zeta.
  - cbn [run foldl]. split; [constructor|]. split.
    + intros x. rewrite construct_observed. cbn [construct animated].
      rewrite elem_of_nil. tauto.
    + intros x. cbn [construct animated]. rewrite elem_of_nil.
      split; [tauto|]. intros [_ Hr]. exact (reported_nil _ Hr).
  - apply Forall_app in Hok as [Hoks Hb]. rewrite Forall_singleton in Hb.
    specialize (IH Hoks). cbv zeta in IH.
    unfold run. rewrite foldl_snoc. fold (run batches (construct secs)).
    set (s := run batches (construct secs)) in *.
    destruct IH as (Hnd & Hobs & Han).
    unfold notify.
    destruct (callback_effect (observed_entries (observed s) batch) s)
      as (Ha & Ho & _).
    rewrite Ha, Ho.
    set (new := target <$> filter intersecting
                             (observed_entries (observed s) batch)).
    assert (forall x, x ∈ new <->
              exists e, e ∈ batch /\ target e = x /\
                        isIntersecting e = true /\ x ∈ observed s) as Hnew.
    { intros x. unfold new. rewrite list_elem_of_fmap. split.
      - intros (e & -> & He).
        apply (list_elem_of_filter intersecting) in He as [Hi He].
        apply observed_entries_elem in He as [Hin He]. eauto.
      - intros (e & He & <- & Hi & Hin). exists e. split; [reflexivity|].
        apply (list_elem_of_filter intersecting). split; [exact Hi|].
        apply observed_entries_elem. auto. }
    split; [|split].
    + apply NoDup_app. split; [exact Hnd|]. split.
      * intros x Hx Hx'. apply Hnew in Hx' as (e & _ & _ & _ & Hin).
        apply Hobs in Hin. tauto.
      * unfold new. eapply sublist_NoDup; [exact Hb|].
        apply fmap_sublist, delivered_sublist.
    + intros x. rewrite elem_of_difference, elem_of_list_to_set,
        elem_of_app, Hobs. tauto.
    + intros x. rewrite elem_of_app, reported_snoc, Han, Hnew. split.
      * intros [[Hlt Hr] | (e & He & Ht & Hi & Hin)]; [auto|].
        apply Hobs in Hin as [Hlt _]. split; [exact Hlt|]. right. eauto.
      * intros [Hlt [Hr | (e & He & Ht & Hi)]]; [auto|].
        destruct (decide (x ∈ animated s)) as [Hx|Hx].
        -- left. apply Han. exact Hx.
        -- right. exists e. repeat split; try assumption.
           apply Hobs. auto.
Qed.

(** Among the entries the platform delivers, those that report [x] as
    intersecting are all those of the batch when [x] is observed, and
    none when it is not. *)
Lemma delivered_count obs batch x :
  length (filter (fun y => y = x)
            (target <$> filter intersecting (observed_entries obs batch)))
  = if decide (x ∈ obs) then intersections x batch else 0%nat.
Proof.
  unfold observed_entries, intersections.
  induction batch as [|e b IH].
  - destruct (decide (x ∈ obs)); reflexivity.
  - rewrite (filter_cons (fun e => target e ∈ obs)),
      (filter_cons (fun e => target e = x /\ isIntersecting e = true)).
    destruct (decide (target e ∈ obs)) as [Hin|Hin].
    + rewrite (filter_cons intersecting).
      destruct (decide (isIntersecting e = true)) as [Hi|Hi].
      * cbn [fmap list_fmap]. rewrite filter_cons.
        destruct (decide (target e = x)) as [Ht|Ht].
        -- rewrite (decide_True (P := target e = x /\ _)) by auto.
           cbn [length]. rewrite IH. subst x.
           destruct (decide (target e ∈ obs)); [reflexivity | contradiction].
        -- rewrite (decide_False (P := target e = x /\ _)) by tauto.
           exact IH.
      * rewrite (decide_False (P := target e = x /\ _)) by tauto. exact IH.
    + destruct (decide (target e = x /\ isIntersecting e = true))
        as [[Ht Hi]|Hn]; [|exact IH].
      rewrite IH. subst x.
      destruct (decide (target e ∈ obs)); [contradiction | reflexivity].
Qed.

(** One notification sets the animation of [x] once for each entry of
    the batch that reports [x] as intersecting, if [x] is observed, and
    not at all if it is not. *)
Lemma notify_invocations batch s x :
  invocations x (notify batch s)
  = (invocations x s
     + if decide (x ∈ observed s) then intersections x batch else 0)%nat.
Proof.
  unfold invocations, notify.
  destruct (callback_effect (observed_entries (observed s) batch) s)
    as (Ha & _ & _).
  rewrite Ha, filter_app, length_app, delivered_count. reflexivity.
Qed.

(** A target stays observed over a notification exactly when the batch
    does not report it as intersecting. *)
Lemma notify_observed batch s x :
  x ∈ observed (notify batch s) <->
  x ∈ observed s /\ intersections x batch = 0%nat.
Proof.
  unfold notify.
  destruct (callback_effect (observed_entries (observed s) batch) s)
    as (_ & Ho & _).
  rewrite Ho, elem_of_difference, elem_of_list_to_set, intersections_zero.
  rewrite list_elem_of_fmap. split.
  - intros [Hin Hn]. split; [exact Hin|].
    intros (e & He & Ht & Hi). apply Hn. exists e. split; [auto|].
    apply (list_elem_of_filter intersecting). split; [exact Hi|].
    apply observed_entries_elem. rewrite Ht. auto.
  - intros [Hin Hn]. split; [exact Hin|].
    intros (e & -> & He).
    apply (list_elem_of_filter intersecting) in He as [Hi He].
    apply observed_entries_elem in He as [_ He]. apply Hn. eauto.
Qed.

(** Acting on an entry a second time writes what is already there: the
    styles and the observed set are as after the first time. *)
Lemma on_entry_again e s :
  sections (on_entry e (on_entry e s)) = sections (on_entry e s) /\
  observed (on_entry e (on_entry e s)) = observed (on_entry e s).
Proof.
  unfold on_entry. destruct (isIntersecting e) eqn:Ei; cbn [isIntersecting];
    rewrite ?Ei; cbn [sections observed]; [|split; reflexivity].
  split; [apply list_insert_insert_eq | set_solver].
Qed.

Lemma section_run_cons batch batches s :
  run (batch :: batches) s = run batches (notify batch s).
Proof. reflexivity. Qed.

(** Once a target is not observed, no notification sets its animation. *)
Lemma run_unobserved batches s x :
  x ∉ observed s -> invocations x (run batches s) = invocations x s.
Proof.
  revert s. induction batches as [|b r IH]; intros s Hx; [reflexivity|].
  rewrite section_run_cons, IH.
  - rewrite notify_invocations, decide_False by exact Hx. lia.
  - rewrite notify_observed. tauto.
Qed.

(** While a target is observed, the notifications set its animation as
    often as the first batch that reports it as intersecting has entries
    that do. *)
Lemma run_observed batches s x :
  x ∈ observed s ->
  invocations x (run batches s)
  = (invocations x s + first_report x batches)%nat.
Proof.
  revert s. induction batches as [|b r IH]; intros s Hx.
  - cbn [run foldl first_report]. lia.
  - rewrite section_run_cons. cbn [first_report].
    destruct (intersections x b) as [|k] eqn:Ek.
    + rewrite IH by (rewrite notify_observed; auto).
      rewrite notify_invocations, decide_True, Ek by exact Hx. lia.
    + rewrite run_unobserved by (rewrite notify_observed; lia).
      rewrite notify_invocations, decide_True, Ek by exact Hx. reflexivity.
Qed.

(** The number of times the animation of a section is set, over any
    notifications whatever. *)
Lemma section_invocations secs batches x :
  (x < length secs)%nat ->
  invocations x (run batches (construct secs)) = first_report x batches.
Proof.
  intros Hlt. rewrite run_observed by (apply construct_observed; exact Hlt).
  reflexivity.
Qed.

(** What one callback invocation does to the style of a section. *)
Lemma callback_sections entries s x :
  sections (callback entries s) !! x =
  if bool_decide (x ∈ target <$> filter intersecting entries)
  then (fun _ => Some slideInUp) <$> sections s !! x
  else sections s !! x.
Proof.
  revert s. induction entries as [|e es IH]; intros s; [reflexivity|].
  rewrite section_callback_cons, IH, filter_cons. unfold on_entry.
  destruct (isIntersecting e) eqn:Ei.
  - rewrite decide_True by reflexivity. cbn [sections fmap list_fmap].
    destruct (decide (x = target e)) as [->|Hne].
    + rewrite (bool_decide_eq_true_2 (target e ∈ target e :: _)) by left.
      destruct (sections s !! target e) as [a|] eqn:Ha.
      * rewrite list_lookup_insert_eq
          by (apply lookup_lt_is_Some; rewrite Ha; eauto).
        destruct (bool_decide _); reflexivity.
      * rewrite list_insert_ge by (apply lookup_ge_None; exact Ha).
        rewrite Ha. destruct (bool_decide _); reflexivity.
    + rewrite list_lookup_insert_ne by congruence.
      destruct (bool_decide (x ∈ target <$> filter intersecting es)) eqn:E.
      * apply bool_decide_eq_true in E.
        rewrite bool_decide_eq_true_2 by (right; exact E). reflexivity.
      * apply bool_decide_eq_false in E.
        rewrite bool_decide_eq_false_2; [reflexivity|].
        intros H. apply elem_of_cons in H as [H|H]; [congruence | auto].
  - rewrite decide_False by discriminate. reflexivity.
Qed.

(** The animator over any notifications whatever. *)
Lemma section_run_state secs batches :
  let s := run batches (construct secs) in
  length (sections s) = length secs /\
  (forall x, x ∈ observed s <->
             (x < length secs)%nat /\ ~ reported x batches) /\
  (forall x, (x < length secs)%nat -> reported x batches ->
             sections s !! x = Some (Some slideInUp)) /\
  (forall x, ~ reported x batches -> sections s !! x = secs !! x).
Proof.
  induction batches as [|batch batches IH] using rev_ind; cbv zeta.
  - cbn [run foldl]. split; [reflexivity|]. split; [|split].
    + intros x. rewrite construct_observed.
      split; [intros H; split; [exact H | apply reported_nil] | tauto].
    + intros x _ Hr. destruct (reported_nil _ Hr).
    + reflexivity.
  - cbv zeta in IH. destruct IH as (Hlen & Hobs & Hset & Hkeep).
    unfold run. rewrite foldl_snoc. fold (run batches (construct secs)).
    set (s := run batches (construct secs)) in *.
    unfold notify.
    destruct (callback_effect (observed_entries (observed s) batch) s)
      as (_ & Ho & Hl).
    set (new := target <$> filter intersecting
                             (observed_entries (observed s) batch)) in *.
    assert (forall x, x ∈ new <->
              exists e, e ∈ batch /\ target e = x /\
                        isIntersecting e = true /\ x ∈ observed s) as Hnew.
    { intros x. unfold new. rewrite list_elem_of_fmap. split.
      - intros (e & -> & He).
        apply (list_elem_of_filter intersecting) in He as [Hi He].
        apply observed_entries_elem in He as [Hin He]. eauto.
      - intros (e & He & <- & Hi & Hin). exists e. split; [reflexivity|].
        apply (list_elem_of_filter intersecting). split; [exact Hi|].
        apply observed_entries_elem. auto. }
    split; [rewrite Hl; exact Hlen|]. split; [|split].
    + intros x. rewrite Ho, elem_of_difference, elem_of_list_to_set.
      fold new. rewrite Hnew, Hobs, reported_snoc. split.
      * intros [[Hlt Hn] Hnn]. split; [exact Hlt|].
        intros [Hr | (e & He & Ht & Hi)]; [contradiction|].
        apply Hnn. exists e. repeat split; try assumption.
        apply Hobs. auto.
      * intros [Hlt Hn]. split; [split; [exact Hlt | tauto]|].
        intros (e & He & Ht & Hi & _). apply Hn. right. eauto.
    + intros x Hlt Hr. rewrite callback_sections. fold new.
      destruct (bool_decide (x ∈ new)) eqn:E.
      * destruct (lookup_lt_is_Some_2 (sections s) x) as [a Ha];
          [rewrite Hlen; exact Hlt|].
        rewrite Ha. reflexivity.
      * apply bool_decide_eq_false in E.
        apply reported_snoc in Hr as [Hr | (e & He & Ht & Hi)];
          [apply Hset; assumption|].
        destruct (classic_reported x batches) as [Hr | Hn];
          [apply Hset; assumption|].
        exfalso. apply E, Hnew. exists e. repeat split; try assumption.
        apply Hobs. auto.
    + intros x Hn. rewrite callback_sections. fold new.
      rewrite bool_decide_eq_false_2.
      * apply Hkeep. intros Hr. apply Hn, reported_snoc. auto.
      * intros Hx. apply Hnew in Hx as (e & He & Ht & Hi & _).
        apply Hn, reported_snoc. right. eauto.
Qed.

(** X12: after any sequence of notifications, with no assumption on
    how the platform batches them, the sections are as many as before; a
    section that was reported as intersecting has its animation set to
    "slideInUp 0.8s ease-out forwards" and is no longer observed; a
    section that was never reported has the style it had and is still
    observed. *)
Theorem sections_revealed_iff_reported secs batches x :
  let s := run batches (construct secs) in
  length (sections s) = length secs /\
  ((x < length secs)%nat -> reported x batches ->
   sections s !! x = Some (Some slideInUp) /\ x ∉ observed s) /\
  ((x < length secs)%nat -> ~ reported x batches ->
   sections s !! x = secs !! x /\ x ∈ observed s).
Proof.
  cbv zeta.
  destruct (section_run_state secs batches) as (Hlen & Hobs & Hset & Hkeep).
  cbv zeta in Hlen, Hobs, Hset, Hkeep.
  split; [exact Hlen|]. split.
  - intros Hlt Hr. split; [apply Hset; assumption|].
    intros Hin. apply Hobs in Hin. tauto.
  - intros Hlt Hn. split; [apply Hkeep; assumption|].
    apply Hobs. auto.
Qed.

End SectionAnimatorFacts.

Module OneShot.
Import ObserverFacts.

(** C8, as stated, fails for the section animator, which has no flag of
    its own and relies on the observer no longer reporting a target that
    was unobserved: entries for one section that reach the callback in a
    single notification are each acted upon.  Two intersecting entries
    for section 0 in one notification set its animation twice, and so do
    an intersecting, a non-intersecting and an intersecting one. *)
Remark repeated_entry_in_one_batch :
  SectionAnimator.invocations 0
    (SectionAnimator.run
       [ [ {| target := 0; isIntersecting := true |};
           {| target := 0; isIntersecting := true |} ] ]
       (SectionAnimator.construct sample_sections)) = 2%nat /\
  SectionAnimator.invocations 0
    (SectionAnimator.run
       [ [ {| target := 0; isIntersecting := true |};
           {| target := 0; isIntersecting := false |};
           {| target := 0; isIntersecting := true |} ] ]
       (SectionAnimator.construct sample_sections)) = 2%nat.
Proof. split; vm_compute; reflexivity. Qed.

(** C8 (amended): over any sequence of observer notifications, however
    the entries are grouped.  The skill animator calls animateSkills at
    most once; once the skills section has been reported as intersecting
    (once, twice or more often, in one notification or several) it has
    called it exactly once, its flag is set and it holds exactly one
    timer per skill bar; until then it is as constructed.  The section
    animator sets the animation of a section only in the first
    notification that reports it as intersecting, once for each entry of
    that notification that does, and never in a later one: a section
    that was reported has had its animation set at least once, has the
    slide-up animation as its style and is no longer observed; a section
    never reported has not been touched; and when no notification
    reports one section as intersecting twice, the animation of a
    section is set at most once. *)
Theorem one_shot_reveal
    (p : SkillAnimator.Page) (skill_batches : list (list Entry))
    (secs : list (option (list N))) (section_batches : list (list Entry))
    (x : nat) :
  (x < length secs)%nat ->
  let sk := SkillAnimator.run skill_batches (SkillAnimator.construct p) in
  let se := SectionAnimator.run section_batches
              (SectionAnimator.construct secs) in
  ((SkillAnimator.animateCalls sk <= 1)%nat /\
   ((exists sec, SkillAnimator.p_skillsSection p = Some sec /\
                 reported sec skill_batches) ->
    SkillAnimator.animateCalls sk = 1%nat /\
    SkillAnimator.hasAnimated sk = true /\
    SkillAnimator.timers sk
      = imap (fun index _ => (Z.of_nat index * 100, index))
             (SkillAnimator.p_skillBars p)) /\
   (~ (exists sec, SkillAnimator.p_skillsSection p = Some sec /\
                   reported sec skill_batches) ->
    sk = SkillAnimator.construct p /\
    SkillAnimator.animateCalls sk = 0%nat /\
    SkillAnimator.timers sk = [])) /\
  (SectionAnimator.invocations x se = first_report x section_batches /\
   (reported x section_batches ->
    (1 <= SectionAnimator.invocations x se)%nat /\
    SectionAnimator.sections se !! x = Some (Some SectionAnimator.slideInUp) /\
    x ∉ SectionAnimator.observed se) /\
   (~ reported x section_batches ->
    SectionAnimator.invocations x se = 0%nat /\
    SectionAnimator.sections se !! x = secs !! x /\
    x ∈ SectionAnimator.observed se) /\
   (Forall batch_ok section_batches ->
    (SectionAnimator.invocations x se <= 1)%nat)).
Proof.
  intros Hlt sk se. split.
  - destruct (SkillAnimatorFacts.skill_run_state p skill_batches)
      as [(Hn & Heq) | (Hr & Heq)]; fold sk in Heq; rewrite Heq.
    + split; [cbn; lia|]. split; [intros H; contradiction|].
      intros _. repeat split.
    + split; [cbn; lia|]. split; [intros _; repeat split|].
      intros H. contradiction.
  - pose proof (SectionAnimatorFacts.section_invocations
                  secs section_batches x Hlt) as Hinv.
    destruct (SectionAnimatorFacts.section_run_state secs section_batches)
      as (_ & Hobs & Hset & Hkeep).
    cbv zeta in Hobs, Hset, Hkeep. fold se in Hinv, Hobs, Hset, Hkeep.
    split; [exact Hinv|]. split; [|split].
    + intros Hr. split; [rewrite Hinv; apply first_report_pos; exact Hr|].
      split; [apply Hset; assumption|].
      intros Hin. apply Hobs in Hin. tauto.
    + intros Hn. split.
      * rewrite Hinv.
        destruct (first_report x section_batches) as [|k] eqn:Ek;
          [reflexivity|].
        exfalso. apply Hn, first_report_pos. lia.
      * split; [apply Hkeep; exact Hn | apply Hobs; auto].
    + intros Hok.
      destruct (SectionAnimatorFacts.section_run_inv secs section_batches Hok)
        as (Hnd & _ & _). fold se in Hnd.
      apply (SectionAnimatorFacts.count_NoDup _ x Hnd).
Qed.

Lemma one_shot_reveal_witness :
  SkillAnimator.animateCalls
    (SkillAnimator.run sample_skill_batches
       (SkillAnimator.construct sample_skill_page)) = 1%nat /\
  SkillAnimator.timers
    (SkillAnimator.run sample_skill_batches
       (SkillAnimator.construct sample_skill_page)) = [(0, 0%nat)] /\
  SectionAnimator.invocations 0
    (SectionAnimator.run sample_section_batches
       (SectionAnimator.construct sample_sections)) = 1%nat /\
  SectionAnimator.sections
    (SectionAnimator.run sample_section_batches
       (SectionAnimator.construct sample_sections)) !! 0%nat
  = Some (Some SectionAnimator.slideInUp).
Proof.
  assert (0 < length sample_sections)%nat as Hlt by (cbn; lia).
  assert (reported 7 sample_skill_batches) as Hsk.
  { exists [ {| target := 7; isIntersecting := true |} ],
           {| target := 7; isIntersecting := true |}.
    repeat split; [right; left | left]. }
  assert (reported 0 sample_section_batches) as Hse.
  { exists [ {| target := 0; isIntersecting := true |} ],
           {| target := 0; isIntersecting := true |}.
    repeat split; [right; left | left]. }
  destruct (one_shot_reveal sample_skill_page sample_skill_batches
              sample_sections sample_section_batches 0 Hlt)
    as [(_ & Hs & _) (Hinv & Hr & _)].
  destruct Hs as (Hc & _ & Ht); [exists 7%nat; split; [reflexivity|exact Hsk]|].
  destruct (Hr Hse) as (_ & Hst & _).
  split; [exact Hc|]. split; [exact Ht|]. split; [exact Hinv|exact Hst].
Defined.

End OneShot.

Module RegexFacts.
Import Regex.

Lemma nullable_sound r : nullable r = true -> lang r [].
Proof.
  induction r as [| |p|a IHa b IHb|a IHa b IHb|a IHa]; cbn; intros H.
  - discriminate.
  - constructor.
  - discriminate.
  - apply andb_true_iff in H as [Ha Hb].
    change (@nil N) with (@nil N ++ []). constructor; auto.
  - apply orb_true_iff in H as [H|H];
      [apply lang_alt_l | apply lang_alt_r]; auto.
  - constructor.
Qed.

Lemma nullable_complete r w : lang r w -> w = [] -> nullable r = true.
Proof.
  induction 1 as [|p c Hc|a b u v Ha IHa Hb IHb|a b u Ha IHa|a b u Hb IHb
                 |a|a u v Ha IHa Hs IHs]; intros E; cbn.
  - reflexivity.
  - discriminate.
  - apply app_eq_nil in E as [-> ->]. rewrite IHa, IHb; reflexivity.
  - rewrite IHa by exact E. reflexivity.
  - rewrite IHb by exact E. apply orb_true_r.
  - reflexivity.
  - reflexivity.
Qed.

Lemma nullable_spec r : nullable r = true <-> lang r [].
Proof.
  split; [apply nullable_sound|]. intros H. exact (nullable_complete r [] H eq_refl).
Qed.

Lemma deriv_sound c r : forall s, lang (deriv c r) s -> lang r (c :: s).
Proof.
  induction r as [| |p|a IHa b IHb|a IHa b IHb|a IHa]; cbn; intros s H.
  - inversion H.
  - inversion H.
  - destruct (p c) eqn:E; inversion H; subst. constructor. exact E.
  - destruct (nullable a) eqn:Na.
    + inversion H as [| | | ? ? ? H1 | ? ? ? H1 | |]; subst.
      * inversion H1 as [| |? ? u v Hu Hv| | | |]; subst.
        change (c :: u ++ v) with ((c :: u) ++ v). constructor; auto.
      * change (c :: s) with ([] ++ c :: s). constructor; auto.
        apply nullable_sound, Na.
    + inversion H as [| |? ? u v Hu Hv| | | |]; subst.
      change (c :: u ++ v) with ((c :: u) ++ v). constructor; auto.
  - inversion H; subst; [apply lang_alt_l | apply lang_alt_r]; auto.
  - inversion H as [| |? ? u v Hu Hv| | | |]; subst.
    change (c :: u ++ v) with ((c :: u) ++ v). constructor; auto.
Qed.

Lemma deriv_complete r w :
  lang r w -> forall c s, w = c :: s -> lang (deriv c r) s.
Proof.
  induction 1 as [|p c Hc|a b u v Ha IHa Hb IHb|a b u Ha IHa|a b u Hb IHb
                 |a|a u v Ha IHa Hs IHs]; intros c0 s0 E; cbn.
  - discriminate.
  - inversion E; subst. rewrite Hc. constructor.
  - destruct u as [|x u]; cbn in E.
    + subst v. rewrite (nullable_complete a [] Ha eq_refl).
      apply lang_alt_r. apply IHb. reflexivity.
    + inversion E; subst.
      assert (lang (Seq (deriv c0 a) b) (u ++ v)) as Hseq
        by (constructor; [apply IHa; reflexivity | exact Hb]).
      destruct (nullable a); [apply lang_alt_l|]; exact Hseq.
  - apply lang_alt_l. auto.
  - apply lang_alt_r. auto.
  - discriminate.
  - destruct u as [|x u]; cbn in E.
    + subst v. apply (IHs c0 s0 eq_refl).
    + inversion E; subst. constructor; [apply IHa; reflexivity | exact Hs].
Qed.

(** The derivative matcher decides membership in the language. *)
Lemma test_spec r s : test r s = true <-> lang r s.
Proof.
  revert r. induction s as [|c s IH]; intros r; cbn.
  - apply nullable_spec.
  - rewrite IH. split; [apply deriv_sound|].
    intros H. exact (deriv_complete r _ H c s eq_refl).
Qed.

Lemma lang_class_inv p s :
  lang (Class p) s <-> exists c, s = [c] /\ p c = true.
Proof.
  split.
  - inversion 1; subst. eauto.
  - intros (c & -> & H). constructor. exact H.
Qed.

Lemma lang_seq_inv a b s :
  lang (Seq a b) s <-> exists u v, s = u ++ v /\ lang a u /\ lang b v.
Proof.
  split.
  - inversion 1; subst. eauto.
  - intros (u & v & -> & Ha & Hb). constructor; auto.
Qed.

Lemma lang_star_class p s :
  lang (Star (Class p)) s <-> Forall (fun c => p c = true) s.
Proof.
  split.
  - intros H. remember (Star (Class p)) as r eqn:Er.
    induction H as [| | | | |a|a u v Ha _ Hs IHs]; try discriminate.
    + constructor.
    + inversion Er; subst. apply lang_class_inv in Ha as (c & -> & Hc).
      constructor; [exact Hc | apply IHs; reflexivity].
  - induction 1 as [|c s Hc Hs IH].
    + constructor.
    + change (c :: s) with ([c] ++ s). constructor; [|exact IH].
      constructor. exact Hc.
Qed.

Lemma lang_plus_class p s :
  lang (Plus (Class p)) s <-> s <> [] /\ Forall (fun c => p c = true) s.
Proof.
  unfold Plus. rewrite lang_seq_inv. split.
  - intros (u & v & -> & Hu & Hv).
    apply lang_class_inv in Hu as (c & -> & Hc).
    apply lang_star_class in Hv. split; [discriminate|].
    constructor; assumption.
  - intros [Hne H]. destruct s as [|c s]; [contradiction|].
    inversion H; subst. exists [c], s. split; [reflexivity|].
    split; [constructor; assumption | apply lang_star_class; assumption].
Qed.

Lemma lang_char c s : lang (Char c) s <-> s = [c].
Proof.
  unfold Char. rewrite lang_class_inv. split.
  - intros (x & -> & Hx). apply N.eqb_eq in Hx. subst. reflexivity.
  - intros ->. exists c. split; [reflexivity | apply N.eqb_refl].
Qed.

End RegexFacts.

Module TrimFacts.

Lemma trimStart_app_nonspace l c m :
  is_space c = false -> trimStart (l ++ c :: m) = trimStart l ++ c :: m.
Proof.
  intros Hc. induction l as [|x l IH]; cbn [trimStart app].
  - rewrite Hc. reflexivity.
  - destruct (is_space x); [exact IH | reflexivity].
Qed.

Lemma trimStart_head s :
  trimStart s = [] \/
  exists c r, trimStart s = c :: r /\ is_space c = false.
Proof.
  induction s as [|x s IH]; cbn [trimStart]; [left; reflexivity|].
  destruct (is_space x) eqn:E; [exact IH|]. right. eauto.
Qed.

Lemma trimStart_idem s : trimStart (trimStart s) = trimStart s.
Proof.
  destruct (trimStart_head s) as [-> | (c & r & -> & Hc)]; [reflexivity|].
  cbn [trimStart]. rewrite Hc. reflexivity.
Qed.

Lemma trimEnd_idem s : trimEnd (trimEnd s) = trimEnd s.
Proof. unfold trimEnd. rewrite rev_involutive, trimStart_idem. reflexivity. Qed.

Lemma trimEnd_cons_nonspace c r :
  is_space c = false -> trimEnd (c :: r) = c :: trimEnd r.
Proof.
  intros Hc. unfold trimEnd. cbn [rev].
  rewrite (trimStart_app_nonspace (rev r) c [] Hc), rev_app_distr.
  reflexivity.
Qed.

(** Trimming a trimmed string changes nothing. *)
Lemma trim_idem s : trim (trim s) = trim s.
Proof.
  unfold trim.
  destruct (trimStart_head s) as [-> | (c & r & -> & Hc)]; [reflexivity|].
  rewrite (trimEnd_cons_nonspace c r Hc). cbn [trimStart]. rewrite Hc.
  rewrite <- (trimEnd_cons_nonspace c r Hc). apply trimEnd_idem.
Qed.

Lemma trimStart_all_space s :
  Forall (fun c => is_space c = true) s -> trimStart s = [].
Proof.
  induction 1 as [|c s Hc _ IH]; [reflexivity|].
  cbn [trimStart]. rewrite Hc. exact IH.
Qed.

(** A string of white space only trims to the empty string. *)
Lemma trim_all_space s :
  Forall (fun c => is_space c = true) s -> trim s = [].
Proof. intros H. unfold trim. rewrite trimStart_all_space by exact H. reflexivity. Qed.

End TrimFacts.

Module FormHandlerFacts.
Import FormHandler RegexFacts TrimFacts.

Lemma str_truthy_spec x : str_truthy x = true <-> x <> [].
Proof. destruct x; cbn; split; congruence. Qed.

Lemma truthy_js_and a b : truthy (js_and a b) = truthy a && truthy b.
Proof. unfold js_and. destruct (truthy a) eqn:E; [reflexivity | exact E]. Qed.

(** The pattern accepts exactly the strings local@domain.tld with three
    non-empty parts free of white space and '@'. *)
Lemma emailRegex_spec e : Regex.test emailRegex e = true <-> email_shape e.
Proof.
  rewrite test_spec. unfold emailRegex, email_shape.
  rewrite lang_seq_inv. split.
  - intros (l & r1 & -> & Hl & H1).
    apply lang_seq_inv in H1 as (a & r2 & -> & Ha & H2).
    apply lang_seq_inv in H2 as (d & r3 & -> & Hd & H3).
    apply lang_seq_inv in H3 as (o & t & -> & Ho & Ht).
    apply lang_char in Ha as ->. apply lang_char in Ho as ->.
    apply lang_plus_class in Hl as [Hl1 Hl2].
    apply lang_plus_class in Hd as [Hd1 Hd2].
    apply lang_plus_class in Ht as [Ht1 Ht2].
    exists l, d, t. repeat split; assumption.
  - intros (l & d & t & -> & Hl1 & Hd1 & Ht1 & Hl2 & Hd2 & Ht2).
    exists l, ([64%N] ++ d ++ [46%N] ++ t). split; [reflexivity|].
    split; [apply lang_plus_class; auto|].
    apply lang_seq_inv. exists [64%N], (d ++ [46%N] ++ t).
    split; [reflexivity|]. split; [apply lang_char; reflexivity|].
    apply lang_seq_inv. exists d, ([46%N] ++ t).
    split; [reflexivity|]. split; [apply lang_plus_class; auto|].
    apply lang_seq_inv. exists [46%N], t.
    split; [reflexivity|]. split; [apply lang_char; reflexivity|].
    apply lang_plus_class; auto.
Qed.

(** validateForm on a form that has the four fields: it completes, leaves
    the state as it was, and yields the and-chain of the trimmed values. *)
Lemma validateForm_run s f cn ce cs cm :
  form s = Some f ->
  control_named (js "name") f = Some cn ->
  control_named (js "email") f = Some ce ->
  control_named (js "subject") f = Some cs ->
  control_named (js "message") f = Some cm ->
  validateForm s =
    (s, Normal
          (js_and (js_and (js_and (js_and (VStr (trim (value cn)))
                                     (VStr (trim (value ce))))
                             (VBool (Regex.test emailRegex (trim (value ce)))))
                     (VStr (trim (value cs))))
             (VStr (trim (value cm))))).
Proof.
  intros Hf Hn He Hs Hm.
  cbv [validateForm bind field ret read_field].
  rewrite Hf, Hn, He, Hs, Hm. reflexivity.
Qed.

(** validateForm never changes the state, whether it completes or
    raises. *)
Lemma validateForm_pure s : fst (validateForm s) = s.
Proof.
  cbv [validateForm bind field ret].
  destruct (read_field (js "name") (form s)); [|reflexivity].
  destruct (read_field (js "email") (form s)); [|reflexivity].
  destruct (read_field (js "subject") (form s)); [|reflexivity].
  destruct (read_field (js "message") (form s)); reflexivity.
Qed.

(** Its result depends on the form only. *)
Lemma validateForm_ext s s' :
  form s = form s' -> snd (validateForm s) = snd (validateForm s').
Proof.
  intros E. cbv [validateForm bind field ret]. rewrite E.
  destruct (read_field (js "name") (form s')); [|reflexivity].
  destruct (read_field (js "email") (form s')); [|reflexivity].
  destruct (read_field (js "subject") (form s')); [|reflexivity].
  destruct (read_field (js "message") (form s')); reflexivity.
Qed.

Lemma validateForm_eta s : validateForm s = (s, snd (validateForm s)).
Proof.
  rewrite <- (validateForm_pure s) at 2. destruct (validateForm s); reflexivity.
Qed.

Lemma control_named_trimmed n f :
  control_named n (trimmed f) =
  (fun c => {| c_name := c_name c; defaultValue := defaultValue c;
               value := trim (value c) |}) <$> control_named n f.
Proof.
  unfold control_named, trimmed. cbn [controls].
  induction (controls f) as [|c l IH]; [reflexivity|].
  cbn [fmap list_fmap List.find c_name].
  destruct (str_eqb (c_name c) n); [reflexivity | exact IH].
Qed.

Lemma read_field_trimmed n f :
  read_field n (Some (trimmed f)) = read_field n (Some f).
Proof.
  unfold read_field. rewrite control_named_trimmed.
  destruct (control_named n f) as [c|];
    cbn [fmap option_fmap option_map value]; [|reflexivity].
  rewrite trim_idem. reflexivity.
Qed.

(** C5, as stated, fails: the email a@.com has no white space, exactly
    one '@' and a '.' after it, and the other fields are filled in, yet
    validateForm rejects the form. *)
Lemma dot_right_after_at_rejected :
  spec_valid (js "A") (js "a@.com") (js "s") (js "m") /\
  passes (page_of (contact_form (js "A") (js "a@.com") (js "s") (js "m")))
    = false.
Proof.
  split; [|vm_compute; reflexivity].
  unfold spec_valid, spec_email.
  repeat split; try (vm_compute; discriminate).
  - vm_compute. repeat constructor.
  - vm_compute. left.
Qed.

(** C5 (amended): on a form that has the four fields, validateForm
    completes, and its result is truthy if and only if the name, email,
    subject and message values are all non-empty after trimming and the
    trimmed email reads local@domain.tld, where local, domain and tld are
    non-empty and hold neither white space nor '@' (so the '@' is not
    first, and some '.' after it has a character between the '@' and it
    and a character after it).  In particular (name empty, email a@b) is
    invalid, (A, a@b.com, s, m) is valid, and the email a@b is invalid. *)
Theorem validateForm_accepts_exactly :
  (forall s f cn ce cs cm,
     form s = Some f ->
     control_named (js "name") f = Some cn ->
     control_named (js "email") f = Some ce ->
     control_named (js "subject") f = Some cs ->
     control_named (js "message") f = Some cm ->
     exists v,
       validateForm s = (s, Normal v) /\
       (truthy v = true <->
        trim (value cn) <> [] /\ trim (value ce) <> [] /\
        trim (value cs) <> [] /\ trim (value cm) <> [] /\
        email_shape (trim (value ce)))) /\
  passes (page_of (contact_form (js "") (js "a@b") (js "s") (js "m"))) = false /\
  passes (page_of (contact_form (js "A") (js "a@b.com") (js "s") (js "m")))
    = true /\
  passes (page_of (contact_form (js "A") (js "a@b") (js "s") (js "m"))) = false.
Proof.
  split; [|repeat split; vm_compute; reflexivity].
  intros s f cn ce cs cm Hf Hn He Hs Hm.
  eexists. split; [apply (validateForm_run s f cn ce cs cm); assumption|].
  rewrite !truthy_js_and. cbn [truthy].
  rewrite !andb_true_iff, !str_truthy_spec, emailRegex_spec. tauto.
Qed.

Lemma validateForm_accepts_exactly_witness :
  exists v,
    validateForm (page_of (contact_form (js "A") (js "a@b.com") (js "s") (js "m")))
      = (page_of (contact_form (js "A") (js "a@b.com") (js "s") (js "m")),
         Normal v) /\
    truthy v = true.
Proof.
  destruct validateForm_accepts_exactly as [Hgen (_ & Hok & _)].
  destruct (Hgen (page_of (contact_form (js "A") (js "a@b.com") (js "s") (js "m")))
              _ _ _ _ _ eq_refl eq_refl eq_refl eq_refl eq_refl)
    as (v & Hrun & _).
  exists v. split; [exact Hrun|].
  unfold passes in Hok. rewrite Hrun in Hok. exact Hok.
Defined.

Lemma validateForm_trimmed s f :
  form s = Some f ->
  snd (validateForm (set_form (Some (trimmed f)) s)) = snd (validateForm s).
Proof.
  intros Hf. cbv [validateForm bind field ret]. cbn [form set_form].
  rewrite Hf, !read_field_trimmed.
  destruct (read_field (js "name") (Some f)); [|reflexivity].
  destruct (read_field (js "email") (Some f)); [|reflexivity].
  destruct (read_field (js "subject") (Some f)); [|reflexivity].
  destruct (read_field (js "message") (Some f)); reflexivity.
Qed.

(** handleSubmit on a form that passes validation: the default action is
    cancelled and one request is handed to fetch. *)
Lemma handleSubmit_valid s f :
  form s = Some f -> passes s = true ->
  handleSubmit s =
    (set_posts (posts s ++ [post_of f]) (set_defaultPrevented true s),
     Normal tt).
Proof.
  intros Hf Hp. unfold passes in Hp. rewrite validateForm_eta in Hp.
  cbv [handleSubmit bind modify]. rewrite validateForm_eta.
  rewrite (validateForm_ext (set_defaultPrevented true s) s) by reflexivity.
  destruct (snd (validateForm s)) as [v|e]; [|discriminate].
  rewrite Hp. cbn [negb]. unfold submitForm. cbn [form set_defaultPrevented].
  rewrite Hf. reflexivity.
Qed.

(** handleSubmit on a form that fails validation: nothing is sent. *)
Lemma handleSubmit_invalid s v st :
  formStatus s = Some st ->
  snd (validateForm s) = Normal v -> truthy v = false ->
  exists s', handleSubmit s = (s', Normal tt) /\
             posts s' = posts s /\ form s' = form s /\
             formStatus s' =
               Some {| textContent := msg_invalid;
                       className := js "form-status " ++ ty_error |}.
Proof.
  intros Hst Hv Ht.
  cbv [handleSubmit bind modify]. rewrite validateForm_eta.
  rewrite (validateForm_ext (set_defaultPrevented true s) s) by reflexivity.
  rewrite Hv, Ht. cbn [negb]. unfold showStatus.
  cbn [formStatus set_defaultPrevented]. rewrite Hst.
  eexists. split; [reflexivity|]. repeat split.
Qed.

(** C10: validateForm leaves the state, and so every field, as it was,
    whether it completes or raises; its result is the result it gives on
    the form with every value trimmed; and on a form that passes,
    handleSubmit completes, leaves the form as it was and hands fetch one
    POST whose body holds, for each named control in order, the name and
    the value as typed, untrimmed. *)
Theorem validateForm_reads_only :
  (forall s, fst (validateForm s) = s) /\
  (forall s f, form s = Some f ->
     snd (validateForm (set_form (Some (trimmed f)) s))
     = snd (validateForm s)) /\
  (forall s f, form s = Some f -> passes s = true ->
     exists s1,
       handleSubmit s = (s1, Normal tt) /\
       form s1 = Some f /\
       posts s1 = posts s ++
         [ {| url := action f; method := js "POST";
              body := (fun c => (c_name c, value c)) <$>
                      filter (fun c => c_name c <> []) (controls f);
              accept := js "application/json" |} ]).
Proof.
  split; [exact validateForm_pure|]. split; [exact validateForm_trimmed|].
  intros s f Hf Hp. eexists. split; [apply (handleSubmit_valid s f Hf Hp)|].
  cbn [form posts set_posts set_defaultPrevented]. split; [exact Hf|].
  reflexivity.
Qed.

Lemma validateForm_reads_only_witness :
  exists s1,
    handleSubmit
      (page_of (contact_form (js "  A ") (js " a@b.com") (js "s ") (js "m")))
      = (s1, Normal tt) /\
    body <$> posts s1 =
      [ [ (js "name", js "  A "); (js "email", js " a@b.com");
          (js "subject", js "s "); (js "message", js "m") ] ].
Proof.
  destruct validateForm_reads_only as (_ & _ & Hsend).
  destruct (Hsend
              (page_of (contact_form (js "  A ") (js " a@b.com") (js "s ")
                          (js "m")))
              _ eq_refl eq_refl) as (s1 & Hrun & _ & Hposts).
  exists s1. split; [exact Hrun|]. rewrite Hposts. reflexivity.
Defined.

Lemma showStatus_run s st message type :
  formStatus s = Some st ->
  showStatus message type s =
    (set_timers (timers s ++ [now s + 5000])
       (set_formStatus
          (Some {| textContent := message;
                   className := js "form-status " ++ type |}) s),
     Normal tt).
Proof. intros Hst. unfold showStatus. rewrite Hst. reflexivity. Qed.

Lemma settle_ok s f st :
  form s = Some f -> formStatus s = Some st ->
  settle (Responded true) s =
    (set_form (Some (reset f))
       (set_timers (timers s ++ [now s + 5000])
          (set_formStatus
             (Some {| textContent := msg_sent;
                      className := js "form-status " ++ ty_success |}) s)),
     Normal tt).
Proof.
  intros Hf Hst. cbv [settle catch on_response bind].
  rewrite (showStatus_run s st _ _ Hst).
  cbn [form set_timers set_formStatus]. rewrite Hf. reflexivity.
Qed.

Lemma settle_failed s st o :
  o = Responded false \/ o = Failed ->
  formStatus s = Some st ->
  settle o s =
    (set_timers (timers s ++ [now s + 5000])
       (set_formStatus
          (Some {| textContent := msg_failed;
                   className := js "form-status " ++ ty_error |}) s),
     Normal tt).
Proof.
  intros [-> | ->] Hst; cbv [settle catch on_response throw];
    apply (showStatus_run s st _ _ Hst).
Qed.

(** Running the status timers that have come due. *)
Lemma timers_fire (due : list Z) s st :
  formStatus s = Some st -> due <> [] ->
  formStatus (foldl (fun s _ => timer_body s) s due)
  = Some {| textContent := textContent st; className := neutral |}.
Proof.
  revert s st. induction due as [|d due IH]; intros s st Hst Hne;
    [contradiction|].
  cbn [foldl].
  assert (formStatus (timer_body s)
          = Some {| textContent := textContent st; className := neutral |})
    as Hb by (unfold timer_body; rewrite Hst; reflexivity).
  destruct due as [|d' due']; [exact Hb|].
  rewrite (IH _ _ Hb) by discriminate. reflexivity.
Qed.

(** When some timer has come due the class is the neutral one and the
    text is what it was. *)
Lemma advance_due s st dt d :
  formStatus s = Some st -> d ∈ timers s -> d <= now s + dt ->
  formStatus (advance dt s)
  = Some {| textContent := textContent st; className := neutral |}.
Proof.
  intros Hst Hd Hle. unfold advance.
  rewrite (timers_fire _ _ st); [reflexivity | exact Hst |].
  intros E.
  assert (d ∈ filter (fun d => d <= now s + dt) (timers s)) as Hin
    by (apply (list_elem_of_filter (fun d => d <= now s + dt)); auto).
  rewrite E in Hin. inversion Hin.
Qed.

(** With no timer due the status stays as it is. *)
Lemma advance_not_due s dt :
  (forall d, d ∈ timers s -> now s + dt < d) ->
  formStatus (advance dt s) = formStatus s.
Proof.
  intros Hall. unfold advance.
  assert (filter (fun d => d <= now s + dt) (timers s) = []) as ->.
  { destruct (filter (fun d => d <= now s + dt) (timers s)) as [|d l] eqn:E;
      [reflexivity|].
    assert (d ∈ filter (fun d => d <= now s + dt) (timers s)) as Hin
      by (rewrite E; left).
    apply (list_elem_of_filter (fun d => d <= now s + dt)) in Hin as [Hle Hin].
    specialize (Hall d Hin). lia. }
  reflexivity.
Qed.

(** 5000 ms after showStatus the class is the neutral one and the text
    is still the message. *)
Lemma status_after_5000 s st message type :
  formStatus s = Some st ->
  formStatus (advance 5000 (fst (showStatus message type s)))
  = Some {| textContent := message; className := neutral |}.
Proof.
  intros Hst. rewrite (showStatus_run s st _ _ Hst). cbn [fst].
  apply (advance_due _ {| textContent := message;
                          className := js "form-status " ++ type |}
           5000 (now s + 5000)).
  - reflexivity.
  - cbn [timers set_timers]. apply elem_of_app. right. left.
  - cbn [now set_timers set_formStatus]. lia.
Qed.

(** Until then, with no older timer pending, the status stays as shown. *)
Lemma status_before_5000 s st message type dt :
  formStatus s = Some st -> timers s = [] -> 0 <= dt < 5000 ->
  formStatus (advance dt (fst (showStatus message type s)))
  = Some {| textContent := message;
            className := js "form-status " ++ type |}.
Proof.
  intros Hst Ht Hdt. rewrite (showStatus_run s st _ _ Hst). cbn [fst].
  rewrite advance_not_due; [reflexivity|].
  cbn [now timers set_timers set_formStatus]. rewrite Ht. cbn [app].
  intros d Hd. apply list_elem_of_singleton in Hd as ->. lia.
Qed.

(** C3, as stated, fails: 5000 ms after a successful submission the
    status element has the neutral class but still holds the success
    message; and a control whose markup gives it a default value is back
    at that value, not empty, after the reset. *)
Lemma status_text_outlives_timer :
  passes (page_of (contact_form (js "A") (js "a@b.com") (js "s") (js "m")))
    = true /\
  formStatus
    (advance 5000
       (fst (settle (Responded true)
          (fst (handleSubmit
             (page_of (contact_form (js "A") (js "a@b.com") (js "s")
                         (js "m"))))))))
    = Some {| textContent := msg_sent; className := neutral |} /\
  passes (page_of prefilled_form) = true /\
  (fun f => value <$> controls f) <$>
    form (fst (settle (Responded true)
                 (fst (handleSubmit (page_of prefilled_form)))))
    = Some [js "Your name"; []; []; []].
Proof. vm_compute. repeat split; reflexivity. Qed.

(** C3 (amended): a submit event whose fields pass validation cancels
    the default action and hands fetch one POST to the form's action URL,
    leaving form and status element as they were.  When the response is a
    success, the success message is shown with the success class and
    every control is reset to its default value (empty when the markup
    gives none); when the response is not a success or the request
    fails, the failure message is shown with the error class and the
    controls keep their values.  In both cases, 5000 ms after the message
    was shown the class of the status element is back to the neutral
    "form-status" while its text is still the message; before that, with
    no older timer pending, the status stays as shown. *)
Theorem submit_lifecycle :
  (forall s f, form s = Some f -> passes s = true ->
     exists s1,
       handleSubmit s = (s1, Normal tt) /\
       defaultPrevented s1 = true /\
       posts s1 = posts s ++ [post_of f] /\
       url (post_of f) = action f /\
       form s1 = Some f /\ formStatus s1 = formStatus s /\
       timers s1 = timers s) /\
  (forall s f st, form s = Some f -> formStatus s = Some st ->
     exists s2,
       settle (Responded true) s = (s2, Normal tt) /\
       formStatus s2 = Some {| textContent := msg_sent;
                               className := js "form-status success" |} /\
       form s2 = Some (reset f) /\
       c_name <$> controls (reset f) = c_name <$> controls f /\
       value <$> controls (reset f) = defaultValue <$> controls f /\
       posts s2 = posts s /\
       formStatus (advance 5000 s2)
       = Some {| textContent := msg_sent; className := neutral |}) /\
  (forall s f st o, form s = Some f -> formStatus s = Some st ->
     o = Responded false \/ o = Failed ->
     exists s2,
       settle o s = (s2, Normal tt) /\
       formStatus s2 = Some {| textContent := msg_failed;
                               className := js "form-status error" |} /\
       form s2 = Some f /\
       posts s2 = posts s /\
       formStatus (advance 5000 s2)
       = Some {| textContent := msg_failed; className := neutral |}) /\
  (forall s st message type dt,
     formStatus s = Some st -> timers s = [] -> 0 <= dt < 5000 ->
     formStatus (advance dt (fst (showStatus message type s)))
     = Some {| textContent := message;
               className := js "form-status " ++ type |}).
Proof.
  split; [|split; [|split]].
  - intros s f Hf Hp. eexists.
    split; [apply (handleSubmit_valid s f Hf Hp)|].
    cbn [defaultPrevented posts form formStatus timers set_posts
         set_defaultPrevented]. repeat split. exact Hf.
  - intros s f st Hf Hst. eexists.
    split; [apply (settle_ok s f st Hf Hst)|].
    cbn [formStatus form posts set_form set_timers set_formStatus].
    split; [reflexivity|]. split; [reflexivity|].
    split; [|split; [|split; [reflexivity|]]].
    + unfold reset. cbn [controls]. rewrite <- list_fmap_compose.
      reflexivity.
    + unfold reset. cbn [controls]. rewrite <- list_fmap_compose.
      reflexivity.
    + apply (advance_due _ {| textContent := msg_sent;
                              className := js "form-status " ++ ty_success |}
               5000 (now s + 5000)).
      * reflexivity.
      * cbn [timers set_form set_timers]. apply elem_of_app. right. left.
      * cbn [now set_form set_timers set_formStatus]. lia.
  - intros s f st o Hf Hst Ho. eexists.
    split; [apply (settle_failed s st o Ho Hst)|].
    cbn [formStatus form posts set_timers set_formStatus].
    split; [reflexivity|]. split; [exact Hf|]. split; [reflexivity|].
    pose proof (status_after_5000 s st msg_failed ty_error Hst) as H.
    rewrite (showStatus_run s st _ _ Hst) in H. exact H.
  - exact status_before_5000.
Qed.

Lemma submit_lifecycle_witness :
  exists s1 s2,
    handleSubmit (page_of prefilled_form) = (s1, Normal tt) /\
    settle (Responded true) s1 = (s2, Normal tt) /\
    form s2 = Some (reset prefilled_form) /\
    formStatus (advance 5000 s2)
    = Some {| textContent := msg_sent; className := neutral |}.
Proof.
  destruct submit_lifecycle as (Hsend & Hok & _ & _).
  destruct (Hsend (page_of prefilled_form) _ eq_refl eq_refl)
    as (s1 & Hrun & _ & _ & _ & Hf1 & Hst1 & _).
  destruct (Hok s1 _ _ Hf1 Hst1) as (s2 & Hset & _ & Hf2 & _ & _ & _ & H5).
  exists s1, s2. repeat split; assumption.
Defined.

Lemma passes_ext s s' : form s = form s' -> passes s = passes s'.
Proof.
  intros E. unfold passes.
  rewrite (validateForm_eta s), (validateForm_eta s').
  rewrite (validateForm_ext s s' E). reflexivity.
Qed.

Lemma passes_run s f cn ce cs cm :
  form s = Some f ->
  control_named (js "name") f = Some cn ->
  control_named (js "email") f = Some ce ->
  control_named (js "subject") f = Some cs ->
  control_named (js "message") f = Some cm ->
  passes s =
    str_truthy (trim (value cn)) && str_truthy (trim (value ce)) &&
    Regex.test emailRegex (trim (value ce)) &&
    str_truthy (trim (value cs)) && str_truthy (trim (value cm)).
Proof.
  intros Hf Hn He Hs Hm. unfold passes.
  rewrite (validateForm_run s f cn ce cs cm Hf Hn He Hs Hm).
  rewrite !truthy_js_and. reflexivity.
Qed.

(** X13: a submit on a form that has the four fields but fails
    validation cancels the default action, hands nothing to fetch,
    leaves every control as it is, and shows "Please fill in all fields
    correctly" with the class "form-status error", scheduling the class
    reset for 5000 ms later. *)
Theorem invalid_submit_sends_nothing s f st cn ce cs cm :
  form s = Some f -> formStatus s = Some st ->
  control_named (js "name") f = Some cn ->
  control_named (js "email") f = Some ce ->
  control_named (js "subject") f = Some cs ->
  control_named (js "message") f = Some cm ->
  passes s = false ->
  exists s',
    handleSubmit s = (s', Normal tt) /\
    defaultPrevented s' = true /\
    posts s' = posts s /\ form s' = Some f /\
    formStatus s' = Some {| textContent := msg_invalid;
                            className := js "form-status error" |} /\
    timers s' = timers s ++ [now s + 5000] /\
    formStatus (advance 5000 s')
    = Some {| textContent := msg_invalid; className := neutral |}.
Proof.
  intros Hf Hst Hn He Hs Hm Hp.
  pose proof (validateForm_run s f cn ce cs cm Hf Hn He Hs Hm) as Hrun.
  unfold passes in Hp. rewrite Hrun in Hp.
  cbv [handleSubmit bind modify]. rewrite validateForm_eta.
  rewrite (validateForm_ext (set_defaultPrevented true s) s) by reflexivity.
  rewrite Hrun. cbn [snd]. rewrite Hp. cbn [negb].
  rewrite (showStatus_run (set_defaultPrevented true s) st) by exact Hst.
  eexists. split; [reflexivity|].
  cbn [defaultPrevented posts form formStatus timers now set_timers
       set_formStatus set_defaultPrevented].
  split; [reflexivity|]. split; [reflexivity|]. split; [exact Hf|].
  split; [reflexivity|]. split; [reflexivity|].
  apply (advance_due _ {| textContent := msg_invalid;
                          className := js "form-status " ++ ty_error |}
           5000 (now s + 5000)).
  - reflexivity.
  - cbn [timers set_timers]. apply elem_of_app. right. left.
  - cbn [now set_timers set_formStatus set_defaultPrevented]. lia.
Qed.

Lemma invalid_submit_sends_nothing_witness :
  exists s',
    handleSubmit (page_of (contact_form (js "A") (js "a@b") (js "s") (js "m")))
      = (s', Normal tt) /\
    posts s' = [].
Proof.
  destruct (invalid_submit_sends_nothing
              (page_of (contact_form (js "A") (js "a@b") (js "s") (js "m")))
              _ _ _ _ _ _ eq_refl eq_refl eq_refl eq_refl eq_refl eq_refl
              eq_refl) as (s' & Hrun & _ & Hposts & _).
  exists s'. split; [exact Hrun | exact Hposts].
Defined.

(** X14: on a form that has the four fields, a name, email, subject or
    message consisting of white space only (or empty) makes the form fail
    validation, whatever the other fields hold. *)
Theorem blank_field_fails s f cn ce cs cm :
  form s = Some f ->
  control_named (js "name") f = Some cn ->
  control_named (js "email") f = Some ce ->
  control_named (js "subject") f = Some cs ->
  control_named (js "message") f = Some cm ->
  Forall (fun c => is_space c = true) (value cn) \/
  Forall (fun c => is_space c = true) (value ce) \/
  Forall (fun c => is_space c = true) (value cs) \/
  Forall (fun c => is_space c = true) (value cm) ->
  passes s = false.
Proof.
  intros Hf Hn He Hs Hm Hblank.
  rewrite (passes_run s f cn ce cs cm Hf Hn He Hs Hm).
  destruct Hblank as [H | [H | [H | H]]];
    rewrite (trim_all_space _ H); cbn [str_truthy andb];
    rewrite ?andb_false_r; reflexivity.
Qed.

Lemma blank_field_fails_witness :
  passes (page_of (contact_form (js "A") (js "a@b.com") (js "s") (js "   ")))
  = false.
Proof.
  apply (blank_field_fails
           (page_of (contact_form (js "A") (js "a@b.com") (js "s") (js "   ")))
           _ _ _ _ _ eq_refl eq_refl eq_refl eq_refl eq_refl).
  right. right. right. repeat constructor.
Defined.

Lemma not_space_at_spec c :
  not_space_at c = true -> is_space c = false /\ c <> 64%N.
Proof.
  unfold not_space_at. rewrite negb_true_iff, orb_false_iff.
  intros [Hs Ha]. split; [exact Hs|]. apply N.eqb_neq. exact Ha.
Qed.

Lemma count_at_none l :
  Forall (fun c => not_space_at c = true) l -> count_at l = 0%nat.
Proof.
  unfold count_at. induction 1 as [|c l Hc _ IH]; [reflexivity|].
  rewrite filter_cons, decide_False; [exact IH|].
  apply not_space_at_spec in Hc. tauto.
Qed.

Lemma count_at_app u v : count_at (u ++ v) = (count_at u + count_at v)%nat.
Proof. unfold count_at. rewrite filter_app, length_app. reflexivity. Qed.

Lemma after_at_skip l r :
  Forall (fun c => not_space_at c = true) l ->
  after_at (l ++ 64%N :: r) = r.
Proof.
  induction 1 as [|c l Hc _ IH]; [reflexivity|].
  cbn [app after_at]. apply not_space_at_spec in Hc as [_ Hc].
  apply N.eqb_neq in Hc. rewrite Hc. exact IH.
Qed.

(** Every string the pattern accepts meets the wording of the
    specification. *)
Lemma email_shape_spec e : email_shape e -> spec_email e.
Proof.
  intros (l & d & t & -> & _ & _ & _ & Hl & Hd & Ht).
  assert (forall u, Forall (fun c => not_space_at c = true) u ->
                    Forall (fun c => is_space c = false) u) as Hns.
  { intros u Hu. eapply Forall_impl; [exact Hu|].
    intros c Hc. apply not_space_at_spec in Hc. tauto. }
  split; [|split].
  - repeat (apply Forall_app; split); auto; repeat constructor.
  - rewrite !count_at_app, (count_at_none l Hl), (count_at_none d Hd),
      (count_at_none t Ht). reflexivity.
  - cbn [app]. rewrite (after_at_skip l _ Hl).
    apply elem_of_app. right. left.
Qed.

(** X15: on a form that has the four fields, whenever validation passes
    all four values are non-empty after trimming and the trimmed email
    holds no white space, exactly one '@' and a '.' somewhere after the
    '@': what the pattern accepts always meets that description (the
    converse fails, e.g. for a@.com). *)
Theorem accepted_form_is_well_formed s f cn ce cs cm :
  form s = Some f ->
  control_named (js "name") f = Some cn ->
  control_named (js "email") f = Some ce ->
  control_named (js "subject") f = Some cs ->
  control_named (js "message") f = Some cm ->
  passes s = true ->
  spec_valid (value cn) (value ce) (value cs) (value cm).
Proof.
  intros Hf Hn He Hs Hm Hp.
  rewrite (passes_run s f cn ce cs cm Hf Hn He Hs Hm) in Hp.
  rewrite !andb_true_iff, !str_truthy_spec, emailRegex_spec in Hp.
  destruct Hp as ((((H1 & H2) & H3) & H4) & H5).
  unfold spec_valid. repeat split; try assumption.
  all: apply email_shape_spec in H3; apply H3.
Qed.

Lemma accepted_form_is_well_formed_witness :
  spec_valid (js " Ada ") (js "ada@example.org ") (js "hi") (js "there").
Proof.
  apply (accepted_form_is_well_formed
           (page_of (contact_form (js " Ada ") (js "ada@example.org ")
                       (js "hi") (js "there")))
           _ _ _ _ _ eq_refl eq_refl eq_refl eq_refl eq_refl).
  vm_compute. reflexivity.
Defined.

(** X16: nothing de-duplicates submissions: two submit events in a row
    on a form that passes validation hand fetch two requests, equal to
    each other, and leave the form as it is. *)
Theorem double_submit_sends_twice s f :
  form s = Some f -> passes s = true ->
  exists s1 s2,
    handleSubmit s = (s1, Normal tt) /\
    handleSubmit s1 = (s2, Normal tt) /\
    posts s2 = posts s ++ [post_of f; post_of f] /\
    form s2 = Some f.
Proof.
  intros Hf Hp.
  pose proof (handleSubmit_valid s f Hf Hp) as H1.
  set (s1 := set_posts (posts s ++ [post_of f]) (set_defaultPrevented true s))
    in *.
  assert (passes s1 = true) as Hp1
    by (rewrite (passes_ext s1 s) by reflexivity; exact Hp).
  pose proof (handleSubmit_valid s1 f Hf Hp1) as H2.
  exists s1. eexists. split; [exact H1|]. split; [exact H2|].
  cbn [posts form set_posts set_defaultPrevented s1].
  rewrite <- app_assoc. split; [reflexivity | exact Hf].
Qed.

Lemma double_submit_sends_twice_witness :
  exists s1 s2,
    handleSubmit (page_of prefilled_form) = (s1, Normal tt) /\
    handleSubmit s1 = (s2, Normal tt) /\
    length (posts s2) = 2%nat.
Proof.
  destruct (double_submit_sends_twice (page_of prefilled_form) _
              eq_refl eq_refl) as (s1 & s2 & H1 & H2 & Hposts & _).
  exists s1, s2. split; [exact H1|]. split; [exact H2|].
  rewrite Hposts. reflexivity.
Defined.

Lemma timers_fire_frame (due : list Z) s :
  let s' := foldl (fun s _ => timer_body s) s due in
  now s' = now s /\ timers s' = timers s /\ form s' = form s /\
  posts s' = posts s.
Proof.
  revert s. induction due as [|d due IH]; intros s; cbv zeta;
    [repeat split|].
  cbn [foldl]. destruct (IH (timer_body s)) as (H1 & H2 & H3 & H4).
  cbv zeta in H1, H2, H3, H4. rewrite H1, H2, H3, H4.
  unfold timer_body. destruct (formStatus s); repeat split.
Qed.

(** The clock and the pending timers after [advance]. *)
Lemma advance_frame dt s :
  now (advance dt s) = now s + dt /\
  timers (advance dt s) = filter (fun d => ~ d <= now s + dt) (timers s) /\
  form (advance dt s) = form s /\ posts (advance dt s) = posts s.
Proof.
  unfold advance.
  destruct (timers_fire_frame
              (filter (fun d => d <= now s + dt) (timers s))
              (set_now (now s + dt)
                 (set_timers (filter (fun d => ~ d <= now s + dt) (timers s))
                    s))) as (H1 & H2 & H3 & H4).
  cbv zeta in H1, H2, H3, H4. rewrite H1, H2, H3, H4. repeat split.
Qed.

(** X17: the status timers are never cancelled.  When a second message
    is shown dt ms (0 < dt < 5000) after a first one, the timer of the
    first still fires 5000 ms after the first was shown: the class of
    the status element is back to neutral only 5000 - dt ms after the
    second message appeared, its text being the second message, and the
    timer of the second message is still pending. *)
Theorem earlier_timer_clears_later_message s st m1 ty1 m2 ty2 dt :
  formStatus s = Some st -> timers s = [] -> 0 < dt < 5000 ->
  let s1 := fst (showStatus m1 ty1 s) in
  let s2 := advance dt s1 in
  let s3 := fst (showStatus m2 ty2 s2) in
  formStatus s2 = Some {| textContent := m1;
                          className := js "form-status " ++ ty1 |} /\
  formStatus s3 = Some {| textContent := m2;
                          className := js "form-status " ++ ty2 |} /\
  formStatus (advance (5000 - dt) s3)
  = Some {| textContent := m2; className := neutral |} /\
  now (advance (5000 - dt) s3) = now s + 5000 /\
  timers (advance (5000 - dt) s3) = [now s + dt + 5000].
Proof.
  intros Hst Ht Hdt. cbv zeta.
  pose proof (status_before_5000 s st m1 ty1 dt Hst Ht) as Hs2.
  rewrite (showStatus_run s st _ _ Hst) in *. cbn [fst] in *.
  rewrite Ht in *. cbn [app] in *.
  set (s1 := set_timers [now s + 5000] _) in *.
  specialize (Hs2 ltac:(lia)).
  destruct (advance_frame dt s1) as (Hn2 & Ht2 & _).
  change (now s1) with (now s) in Hn2, Ht2.
  change (timers s1) with [now s + 5000] in Ht2.
  rewrite (filter_cons (fun d => ~ d <= now s + dt)), decide_True in Ht2
    by lia.
  rewrite filter_nil in Ht2.
  set (s2 := advance dt s1) in *.
  split; [exact Hs2|].
  rewrite (showStatus_run s2 _ m2 ty2 Hs2). cbn [fst].
  set (s3 := set_timers _ _).
  assert (formStatus s3 = Some {| textContent := m2;
                                  className := js "form-status " ++ ty2 |})
    as Hs3 by reflexivity.
  assert (timers s3 = [now s + 5000; now s + dt + 5000]) as Ht3
    by (unfold s3; cbn [timers set_timers]; rewrite Ht2, Hn2; reflexivity).
  assert (now s3 = now s + dt) as Hn3 by exact Hn2.
  split; [exact Hs3|]. split.
  - apply (advance_due s3 _ (5000 - dt) (now s + 5000) Hs3).
    + rewrite Ht3. left.
    + rewrite Hn3. lia.
  - destruct (advance_frame (5000 - dt) s3) as (Hn4 & Ht4 & _).
    rewrite Hn4, Ht4, Hn3, Ht3. split; [lia|].
    rewrite (filter_cons (fun d => ~ d <= now s + dt + (5000 - dt))),
      decide_False by lia.
    rewrite (filter_cons (fun d => ~ d <= now s + dt + (5000 - dt))),
      decide_True by lia.
    reflexivity.
Qed.

Lemma earlier_timer_clears_later_message_witness :
  formStatus
    (advance 2000
       (fst (showStatus msg_sent ty_success
          (advance 3000
             (fst (showStatus msg_invalid ty_error
                (page_of prefilled_form)))))))
  = Some {| textContent := msg_sent; className := neutral |}.
Proof.
  destruct (earlier_timer_clears_later_message (page_of prefilled_form)
              _ msg_invalid ty_error msg_sent ty_success 3000
              eq_refl eq_refl ltac:(lia)) as (_ & _ & H & _).
  exact H.
Defined.

Lemma read_field_cases n o :
  (exists v, read_field n o = Normal v) \/ read_field n o = Throw TypeError.
Proof.
  unfold read_field. destruct o as [f|]; [|auto].
  destruct (control_named n f); eauto.
Qed.

(** X18: when the form lacks any one of the four named fields, a submit
    event cancels the default action and then raises a TypeError: nothing
    is sent, no status is shown and no timer is set. *)
Theorem submit_without_field_raises s f :
  form s = Some f ->
  control_named (js "name") f = None \/
  control_named (js "email") f = None \/
  control_named (js "subject") f = None \/
  control_named (js "message") f = None ->
  handleSubmit s = (set_defaultPrevented true s, Throw TypeError).
Proof.
  intros Hf Hmiss.
  assert (snd (validateForm s) = Throw TypeError) as Hv.
  { cbv [validateForm bind field ret]. rewrite Hf.
    destruct (read_field_cases (js "name") (Some f)) as [[v1 H1] | H1];
      rewrite H1; [|reflexivity].
    destruct (read_field_cases (js "email") (Some f)) as [[v2 H2] | H2];
      rewrite H2; [|reflexivity].
    destruct (read_field_cases (js "subject") (Some f)) as [[v3 H3] | H3];
      rewrite H3; [|reflexivity].
    destruct (read_field_cases (js "message") (Some f)) as [[v4 H4] | H4];
      rewrite H4; [|reflexivity].
    exfalso. unfold read_field in H1, H2, H3, H4.
    destruct Hmiss as [H | [H | [H | H]]]; rewrite H in *; discriminate. }
  cbv [handleSubmit bind modify]. rewrite validateForm_eta.
  rewrite (validateForm_ext (set_defaultPrevented true s) s) by reflexivity.
  rewrite Hv. reflexivity.
Qed.

Lemma submit_without_field_raises_witness :
  snd (handleSubmit (page_of name_only_form)) = Throw TypeError.
Proof.
  rewrite (submit_without_field_raises (page_of name_only_form)
             name_only_form eq_refl);
    [reflexivity | right; left; reflexivity].
Defined.

(** X19: on a page without the status element a passing form is still
    sent, but no outcome can be shown: whatever way the fetch settles,
    the promise chain ends rejected with a TypeError and the page is
    left as it was; in particular a successful response does not reset
    the form.  A submit that fails validation raises as well. *)
Theorem no_status_element_no_feedback s f :
  formStatus s = None -> form s = Some f ->
  (forall o, settle o s = (s, Throw TypeError)) /\
  (passes s = true ->
   handleSubmit s =
     (set_posts (posts s ++ [post_of f]) (set_defaultPrevented true s),
      Normal tt)) /\
  (forall v, snd (validateForm s) = Normal v -> truthy v = false ->
   handleSubmit s = (set_defaultPrevented true s, Throw TypeError)).
Proof.
  intros Hst Hf. split; [|split].
  - intros [[|]|]; cbv [settle catch on_response bind throw showStatus];
      rewrite ?Hst; cbv beta iota; rewrite ?Hst; reflexivity.
  - apply handleSubmit_valid, Hf.
  - intros v Hv Ht. cbv [handleSubmit bind modify]. rewrite validateForm_eta.
    rewrite (validateForm_ext (set_defaultPrevented true s) s) by reflexivity.
    rewrite Hv, Ht. cbn [negb]. unfold showStatus.
    cbn [formStatus set_defaultPrevented]. rewrite Hst. reflexivity.
Qed.

Lemma no_status_element_no_feedback_witness :
  settle (Responded true) (set_formStatus None (page_of prefilled_form))
  = (set_formStatus None (page_of prefilled_form), Throw TypeError).
Proof.
  destruct (no_status_element_no_feedback
              (set_formStatus None (page_of prefilled_form)) _
              eq_refl eq_refl) as (H & _).
  apply H.
Defined.

End FormHandlerFacts.

Module BootFacts.
Import Boot.

Lemma FormHandler_construct_normal s :
  snd (FormHandler.construct s) = Normal tt.
Proof.
  unfold FormHandler.construct, FormHandler.init.
  destruct (FormHandler.form s); reflexivity.
Qed.

Lemma NavigationManager_construct_run s t :
  NavigationManager.mobileToggle s = Some t ->
  snd (NavigationManager.construct s) = Normal tt.
Proof.
  intros Ht. unfold NavigationManager.construct, NavigationManager.init.
  cbv [bind modify]. cbn [NavigationManager.mobileToggle
                          NavigationManager.set_navLinks].
  rewrite Ht. reflexivity.
Qed.

Lemma NavigationManager_construct_null s :
  NavigationManager.mobileToggle s = None ->
  snd (NavigationManager.construct s) = Throw TypeError.
Proof.
  intros Ht. unfold NavigationManager.construct, NavigationManager.init.
  cbv [bind modify]. cbn [NavigationManager.mobileToggle
                          NavigationManager.set_navLinks].
  rewrite Ht. reflexivity.
Qed.

Lemma bind_normal {St A B} (m : M St A) (k : A -> M St B) s s' a :
  m s = (s', Normal a) -> bind m k s = k a s'.
Proof. intros H. unfold bind. rewrite H. reflexivity. Qed.

Lemma bind_throw {St A B} (m : M St A) (k : A -> M St B) s s' e :
  m s = (s', Throw e) -> bind m k s = (s', Throw e).
Proof. intros H. unfold bind. rewrite H. reflexivity. Qed.

Lemma ThemeManager_construct_normal p t :
  ThemeManager.p_themeToggle p = Some t ->
  snd (ThemeManager.construct p) = Normal tt.
Proof.
  intros Ht. rewrite (ThemeManagerFacts.construct_run p t Ht). cbv zeta.
  destruct (_ && _); reflexivity.
Qed.

Lemma new_ThemeManager_run d l :
  new_ThemeManager d l =
    (set_themeManager (Some (fst (ThemeManager.construct (d_theme d)))) l,
     snd (ThemeManager.construct (d_theme d))).
Proof.
  unfold new_ThemeManager.
  destruct (ThemeManager.construct (d_theme d)); reflexivity.
Qed.

Lemma new_NavigationManager_run d l :
  new_NavigationManager d l =
    (set_navigationManager
       (Some (fst (NavigationManager.construct (d_nav d)))) l,
     snd (NavigationManager.construct (d_nav d))).
Proof.
  unfold new_NavigationManager.
  destruct (NavigationManager.construct (d_nav d)); reflexivity.
Qed.

Lemma new_FormHandler_run d l :
  new_FormHandler d l =
    (set_formHandler (Some (fst (FormHandler.construct (d_form d)))) l,
     Normal tt).
Proof.
  unfold new_FormHandler.
  pose proof (FormHandler_construct_normal (d_form d)) as H.
  destruct (FormHandler.construct (d_form d)) as [f r]. cbn [snd] in H.
  subst r. reflexivity.
Qed.

(** The handler completes as soon as the two toggle controls exist,
    whatever else is missing: header, menu container, skills section,
    contact form, status element. *)
Lemma load_completes d t m :
  ThemeManager.p_themeToggle (d_theme d) = Some t ->
  NavigationManager.mobileToggle (d_nav d) = Some m ->
  exists l, DOMContentLoaded d = (l, Normal tt) /\ logged l = true /\
    themeManager l = Some (fst (ThemeManager.construct (d_theme d))) /\
    navigationManager l
      = Some (fst (NavigationManager.construct (d_nav d))) /\
    skillAnimator l = Some (SkillAnimator.construct (d_skills d)) /\
    sectionAnimator l = Some (SectionAnimator.construct (d_sections d)) /\
    formHandler l = Some (fst (FormHandler.construct (d_form d))).
Proof.
  intros Ht Hm. unfold DOMContentLoaded.
  erewrite bind_normal
    by (rewrite new_ThemeManager_run,
          (ThemeManager_construct_normal _ _ Ht); reflexivity).
  erewrite bind_normal
    by (rewrite new_NavigationManager_run,
          (NavigationManager_construct_run _ _ Hm); reflexivity).
  erewrite bind_normal by reflexivity.
  erewrite bind_normal by reflexivity.
  erewrite bind_normal by apply new_FormHandler_run.
  erewrite bind_normal by reflexivity.
  erewrite bind_normal by reflexivity.
  eexists. split; [reflexivity|]. repeat split.
Qed.

(** With both toggles the two helpers are constructed as well, last. *)
Lemma load_constructs_helpers d t m :
  ThemeManager.p_themeToggle (d_theme d) = Some t ->
  NavigationManager.mobileToggle (d_nav d) = Some m ->
  smoothScroll (fst (DOMContentLoaded d))
    = Some (SmoothScroll.construct (d_smooth d)) /\
  lazyLoader (fst (DOMContentLoaded d))
    = Some (LazyLoader.construct (d_lazy d)).
Proof.
  intros Ht Hm. unfold DOMContentLoaded.
  erewrite bind_normal
    by (rewrite new_ThemeManager_run,
          (ThemeManager_construct_normal _ _ Ht); reflexivity).
  erewrite bind_normal
    by (rewrite new_NavigationManager_run,
          (NavigationManager_construct_run _ _ Hm); reflexivity).
  erewrite bind_normal by reflexivity.
  erewrite bind_normal by reflexivity.
  erewrite bind_normal by apply new_FormHandler_run.
  erewrite bind_normal by reflexivity.
  erewrite bind_normal by reflexivity.
  split; reflexivity.
Qed.

(** Without the theme toggle the handler raises in the first
    constructor and constructs nothing else. *)
Lemma load_aborts_without_theme_toggle d :
  ThemeManager.p_themeToggle (d_theme d) = None ->
  exists l, DOMContentLoaded d = (l, Throw TypeError) /\
    navigationManager l = None /\ skillAnimator l = None /\
    sectionAnimator l = None /\ formHandler l = None /\
    smoothScroll l = None /\ lazyLoader l = None /\ logged l = false.
Proof.
  intros Ht. unfold DOMContentLoaded.
  erewrite bind_throw
    by (rewrite new_ThemeManager_run,
          (ThemeManagerFacts.construct_null _ Ht); reflexivity).
  eexists. split; [reflexivity|]. repeat split.
Qed.

(** Without the mobile toggle the handler raises in the second
    constructor: the animators, the form handler and the two helpers are
    never constructed. *)
Lemma load_aborts_without_mobile_toggle d t :
  ThemeManager.p_themeToggle (d_theme d) = Some t ->
  NavigationManager.mobileToggle (d_nav d) = None ->
  exists l, DOMContentLoaded d = (l, Throw TypeError) /\
    skillAnimator l = None /\ sectionAnimator l = None /\
    formHandler l = None /\ smoothScroll l = None /\
    lazyLoader l = None /\ logged l = false.
Proof.
  intros Ht Hm. unfold DOMContentLoaded.
  erewrite bind_normal
    by (rewrite new_ThemeManager_run,
          (ThemeManager_construct_normal _ _ Ht); reflexivity).
  erewrite bind_throw
    by (rewrite new_NavigationManager_run,
          (NavigationManager_construct_null _ Hm); reflexivity).
  eexists. split; [reflexivity|]. repeat split.
Qed.

(** Degraded modes that are not fatal.  Without the header the page
    loads; each scroll event then has the header listener raise while
    the active-link listener still runs. *)
Example header_missing_is_not_fatal :
  snd (DOMContentLoaded
         (with_nav (NavigationManager.set_header None NavigationManager.far_page)
                   full_document)) = Normal tt /\
  (let n := fst (NavigationManager.construct
                   (NavigationManager.set_header None
                      NavigationManager.far_page)) in
   snd (NavigationManager.scroll_to 4950 n) = [TypeError] /\
   NavigationManager.is_active <$>
     NavigationManager.navLinks (fst (NavigationManager.scroll_to 4950 n))
   = [false; true]).
Proof. vm_compute. repeat split; reflexivity. Qed.

(** Without the status element the page loads; a submit that fails
    validation then raises in showStatus, and nothing is sent. *)
Example status_missing_is_not_fatal :
  snd (FormHandler.construct
         (FormHandler.set_formStatus None
            (FormHandler.page_of (FormHandler.contact_form [] [] [] []))))
    = Normal tt /\
  snd (FormHandler.handleSubmit
         (FormHandler.set_formStatus None
            (FormHandler.page_of (FormHandler.contact_form [] [] [] []))))
    = Throw TypeError /\
  FormHandler.posts
    (fst (FormHandler.handleSubmit
            (FormHandler.set_formStatus None
               (FormHandler.page_of (FormHandler.contact_form [] [] [] [])))))
    = [].
Proof. vm_compute. repeat split; reflexivity. Qed.

(** C4 at the failing inputs: on the full document with only the theme
    toggle removed, and on the full document with only the mobile toggle
    removed, the DOMContentLoaded handler raises a TypeError, the form
    handler and the animators are never constructed and the closing log
    line is not reached; on the full document itself it completes. *)
Theorem missing_toggle_aborts_page_load :
  snd (DOMContentLoaded full_document) = Normal tt /\
  snd (DOMContentLoaded without_theme_toggle) = Throw TypeError /\
  navigationManager (fst (DOMContentLoaded without_theme_toggle)) = None /\
  skillAnimator (fst (DOMContentLoaded without_theme_toggle)) = None /\
  sectionAnimator (fst (DOMContentLoaded without_theme_toggle)) = None /\
  formHandler (fst (DOMContentLoaded without_theme_toggle)) = None /\
  logged (fst (DOMContentLoaded without_theme_toggle)) = false /\
  snd (DOMContentLoaded without_mobile_toggle) = Throw TypeError /\
  skillAnimator (fst (DOMContentLoaded without_mobile_toggle)) = None /\
  sectionAnimator (fst (DOMContentLoaded without_mobile_toggle)) = None /\
  formHandler (fst (DOMContentLoaded without_mobile_toggle)) = None /\
  logged (fst (DOMContentLoaded without_mobile_toggle)) = false.
Proof.
  destruct (load_completes full_document _ _ eq_refl eq_refl)
    as (l0 & H0 & _).
  destruct (load_aborts_without_theme_toggle without_theme_toggle eq_refl)
    as (l1 & H1 & Hn1 & Hk1 & Hs1 & Hf1 & _ & _ & Hl1).
  destruct (load_aborts_without_mobile_toggle without_mobile_toggle _
              eq_refl eq_refl)
    as (l2 & H2 & Hk2 & Hs2 & Hf2 & _ & _ & Hl2).
  rewrite H0, H1, H2. cbn [fst snd]. repeat split; assumption.
Qed.

(** X23: the DOMContentLoaded handler completes if and only if the
    document has both the theme toggle and the mobile toggle.  When it
    completes, all seven controllers have been constructed, in order,
    and the closing line is logged, whether or not the header, the menu
    container, the skills section, the contact form or the status
    element exist.  When it does not, it raises a TypeError, the form
    handler, the animators and the two helpers are never constructed,
    and the closing line is not logged. *)
Theorem page_loads_iff_both_toggles d :
  (snd (DOMContentLoaded d) = Normal tt <->
   is_Some (ThemeManager.p_themeToggle (d_theme d)) /\
   is_Some (NavigationManager.mobileToggle (d_nav d))) /\
  (snd (DOMContentLoaded d) = Normal tt ->
   logged (fst (DOMContentLoaded d)) = true /\
   themeManager (fst (DOMContentLoaded d))
     = Some (fst (ThemeManager.construct (d_theme d))) /\
   navigationManager (fst (DOMContentLoaded d))
     = Some (fst (NavigationManager.construct (d_nav d))) /\
   skillAnimator (fst (DOMContentLoaded d))
     = Some (SkillAnimator.construct (d_skills d)) /\
   sectionAnimator (fst (DOMContentLoaded d))
     = Some (SectionAnimator.construct (d_sections d)) /\
   formHandler (fst (DOMContentLoaded d))
     = Some (fst (FormHandler.construct (d_form d))) /\
   smoothScroll (fst (DOMContentLoaded d))
     = Some (SmoothScroll.construct (d_smooth d)) /\
   lazyLoader (fst (DOMContentLoaded d))
     = Some (LazyLoader.construct (d_lazy d))) /\
  (snd (DOMContentLoaded d) <> Normal tt ->
   snd (DOMContentLoaded d) = Throw TypeError /\
   logged (fst (DOMContentLoaded d)) = false /\
   skillAnimator (fst (DOMContentLoaded d)) = None /\
   sectionAnimator (fst (DOMContentLoaded d)) = None /\
   formHandler (fst (DOMContentLoaded d)) = None /\
   smoothScroll (fst (DOMContentLoaded d)) = None /\
   lazyLoader (fst (DOMContentLoaded d)) = None).
Proof.
  destruct (ThemeManager.p_themeToggle (d_theme d)) as [t|] eqn:Ht.
  - destruct (NavigationManager.mobileToggle (d_nav d)) as [m|] eqn:Hm.
    + destruct (load_constructs_helpers d t m Ht Hm) as (Hsm & Hlz).
      destruct (load_completes d t m Ht Hm)
        as (l & Hrun & Hlog & Htm & Hnm & Hsk & Hse & Hfh).
      rewrite Hrun in Hsm, Hlz |- *. cbn [fst snd] in Hsm, Hlz |- *.
      split; [|split].
      * split; [intros _; split; eauto | reflexivity].
      * intros _. repeat split; assumption.
      * intros H. contradiction.
    + destruct (load_aborts_without_mobile_toggle d t Ht Hm)
        as (l & Hrun & Hsk & Hse & Hfh & Hss & Hll & Hlog).
      rewrite Hrun. cbn [fst snd]. split; [|split].
      * split; [discriminate|]. intros [_ [x Hx]]. discriminate.
      * discriminate.
      * intros _. repeat split; assumption.
  - destruct (load_aborts_without_theme_toggle d Ht)
      as (l & Hrun & _ & Hsk & Hse & Hfh & Hss & Hll & Hlog).
    rewrite Hrun. cbn [fst snd]. split; [|split].
    + split; [discriminate|]. intros [[x Hx] _]. discriminate.
    + discriminate.
    + intros _. repeat split; assumption.
Qed.

End BootFacts.

Module LazyLoaderFacts.
Import LazyLoader ObserverFacts.

Lemma lazy_callback_cons e es s :
  callback (e :: es) s = callback es (on_entry e s).
Proof. reflexivity. Qed.

Lemma swapped_idem img : swapped (swapped img) = swapped img.
Proof. reflexivity. Qed.

(** What one callback invocation of the fallback observer does. *)
Lemma lazy_callback_effect entries s :
  nativeLazy (callback entries s) = nativeLazy s /\
  observed (callback entries s)
    = observed s ∖ list_to_set (target <$> filter intersecting entries) /\
  length (images (callback entries s)) = length (images s) /\
  (forall x, images (callback entries s) !! x =
             if bool_decide (x ∈ target <$> filter intersecting entries)
             then swapped <$> images s !! x
             else images s !! x).
Proof.
  revert s. induction entries as [|e es IH]; intros s.
  - cbn. repeat split. set_solver.
  - rewrite lazy_callback_cons.
    destruct (IH (on_entry e s)) as (Hn & Ho & Hl & Hi).
    split; [|split; [|split]].
    + rewrite Hn. unfold on_entry. destruct (isIntersecting e); reflexivity.
    + rewrite Ho. unfold on_entry. rewrite filter_cons.
      destruct (isIntersecting e) eqn:Ei.
      * rewrite decide_True by reflexivity.
        cbn [observed fmap list_fmap]. set_solver.
      * rewrite decide_False by discriminate. reflexivity.
    + rewrite Hl. unfold on_entry.
      destruct (isIntersecting e); [apply length_alter | reflexivity].
    + intros x. rewrite Hi. unfold on_entry. rewrite filter_cons.
      destruct (isIntersecting e) eqn:Ei.
      * rewrite decide_True by reflexivity. cbn [images fmap list_fmap].
        destruct (decide (x = target e)) as [->|Hne].
        -- rewrite (bool_decide_eq_true_2 (target e ∈ target e :: _))
             by left.
           rewrite list_lookup_alter_eq.
           destruct (images s !! target e) as [img|];
             destruct (bool_decide _); reflexivity.
        -- rewrite list_lookup_alter_ne by congruence.
           destruct (bool_decide (x ∈ target <$> filter intersecting es))
             eqn:E.
           ++ apply bool_decide_eq_true in E.
              rewrite bool_decide_eq_true_2 by (right; exact E).
              reflexivity.
           ++ apply bool_decide_eq_false in E.
              rewrite bool_decide_eq_false_2; [reflexivity|].
              intros H. apply elem_of_cons in H as [H|H];
                [congruence | auto].
      * rewrite decide_False by discriminate. reflexivity.
Qed.

Lemma observe_all_images (o : gset nat) (l : list nat) x :
  x ∈ foldl (fun o img => o ∪ {[ img ]}) o l <-> x ∈ o \/ x ∈ l.
Proof.
  revert o. induction l as [|y l IH]; intros o; cbn [foldl].
  - rewrite elem_of_nil. tauto.
  - rewrite IH, elem_of_cons. set_solver.
Qed.

(** The fallback loader over any notifications. *)
Lemma lazy_run_state s0 batches :
  nativeLazy s0 = false -> observed s0 = ∅ ->
  let s := run batches (construct s0) in
  length (images s) = length (images s0) /\
  (forall x, x ∈ observed s <->
             (x < length (images s0))%nat /\ ~ reported x batches) /\
  (forall x, reported x batches ->
             images s !! x = swapped <$> images s0 !! x) /\
  (forall x, ~ reported x batches -> images s !! x = images s0 !! x).
Proof.
  intros Hnat Hobs0.
  assert (construct s0 =
          {| nativeLazy := false; images := images s0;
             observed := foldl (fun o img => o ∪ {[ img ]}) ∅
                               (seq 0 (length (images s0))) |}) as Hc.
  { unfold construct, init. rewrite Hnat. unfold polyfill.
    rewrite Hnat, Hobs0. reflexivity. }
  induction batches as [|batch batches IH] using rev_ind; cbv zeta.
  - cbn [run foldl]. rewrite Hc. cbn [images observed].
    split; [reflexivity|]. split; [|split].
    + intros x. rewrite observe_all_images, elem_of_seq.
      split.
      * intros [H|H]; [set_solver|]. split; [lia | apply reported_nil].
      * intros [H _]. right. lia.
    + intros x Hr. destruct (reported_nil _ Hr).
    + reflexivity.
  - cbv zeta in IH. destruct IH as (Hlen & Hobs & Hset & Hkeep).
    unfold run. rewrite foldl_snoc. fold (run batches (construct s0)).
    set (s := run batches (construct s0)) in *.
    unfold notify.
    destruct (lazy_callback_effect (observed_entries (observed s) batch) s)
      as (_ & Ho & Hl & Hi).
    set (new := target <$> filter intersecting
                             (observed_entries (observed s) batch)) in *.
    assert (forall x, x ∈ new <->
              exists e, e ∈ batch /\ target e = x /\
                        isIntersecting e = true /\ x ∈ observed s) as Hnew.
    { intros x. unfold new. rewrite list_elem_of_fmap. split.
      - intros (e & -> & He).
        apply (list_elem_of_filter intersecting) in He as [Hin He].
        apply observed_entries_elem in He as [Hin' He]. eauto.
      - intros (e & He & <- & Hin & Hin'). exists e. split; [reflexivity|].
        apply (list_elem_of_filter intersecting). split; [exact Hin|].
        apply observed_entries_elem. auto. }
    split; [rewrite Hl; exact Hlen|]. split; [|split].
    + intros x. rewrite Ho, elem_of_difference, elem_of_list_to_set.
      rewrite Hnew, Hobs, reported_snoc. split.
      * intros [[Hlt Hn] Hnn]. split; [exact Hlt|].
        intros [Hr | (e & He & Ht & Hin)]; [contradiction|].
        apply Hnn. exists e. repeat split; try assumption.
        apply Hobs. auto.
      * intros [Hlt Hn]. split; [split; [exact Hlt | tauto]|].
        intros (e & He & Ht & Hin & _). apply Hn. right. eauto.
    + intros x Hr. rewrite Hi.
      destruct (bool_decide (x ∈ new)) eqn:E.
      * destruct (classic_reported x batches) as [Hr' | Hn].
        -- rewrite (Hset x Hr').
           destruct (images s0 !! x); reflexivity.
        -- rewrite (Hkeep x Hn). reflexivity.
      * apply bool_decide_eq_false in E.
        apply reported_snoc in Hr as [Hr | (e & He & Ht & Hin)];
          [apply Hset; assumption|].
        destruct (classic_reported x batches) as [Hr | Hn];
          [apply Hset; assumption|].
        destruct (decide (x < length (images s0))%nat) as [Hlt|Hge].
        -- exfalso. apply E, Hnew. exists e. repeat split; try assumption.
           apply Hobs. auto.
        -- rewrite (Hkeep x Hn).
           rewrite (lookup_ge_None_2 (images s0) x) by lia. reflexivity.
    + intros x Hn. rewrite Hi, bool_decide_eq_false_2.
      * apply Hkeep. intros Hr. apply Hn, reported_snoc. auto.
      * intros Hx. apply Hnew in Hx as (e & He & Ht & Hin & _).
        apply Hn, reported_snoc. right. eauto.
Qed.

(** X20: where the platform loads images lazily by itself, constructing
    the loader changes nothing: every image selected by
    img[loading='lazy'] already has loading="lazy", which is all the
    loader sets, and no observer is created. *)
Theorem native_lazy_loading_is_untouched s :
  nativeLazy s = true ->
  Forall (fun img => loading img = Some (js "lazy")) (images s) ->
  construct s = s.
Proof.
  intros Hnat Hall. unfold construct, init. rewrite Hnat.
  assert ((fun img => {| loading := Some (js "lazy"); src := src img;
                         dataSrc := dataSrc img |}) <$> images s
          = images s) as ->.
  { induction Hall as [|img l Himg _ IH]; [reflexivity|].
    cbn [fmap list_fmap]. f_equal; [|exact IH].
    destruct img as [ld sr ds]. cbn in Himg |- *. rewrite Himg.
    reflexivity. }
  destruct s; cbn in *. subst. reflexivity.
Qed.

Lemma native_lazy_loading_is_untouched_witness :
  construct {| nativeLazy := true;
               images := [ {| loading := Some (js "lazy"); src := None;
                              dataSrc := Some (js "a.png") |} ];
               observed := ∅ |}
  = {| nativeLazy := true;
       images := [ {| loading := Some (js "lazy"); src := None;
                      dataSrc := Some (js "a.png") |} ];
       observed := ∅ |}.
Proof.
  apply native_lazy_loading_is_untouched; [reflexivity|].
  repeat constructor.
Defined.

(** X21: where the platform has no lazy loading, after construction on a
    page without earlier observers and after any sequence of
    notifications: an image that was reported as intersecting has its
    src set to its data-src (to the string "undefined" when it has
    none), has lost its loading attribute and is no longer observed; an
    image never reported is as it was and still observed; images are
    neither added nor removed. *)
Theorem fallback_loads_reported_images s0 batches x img :
  nativeLazy s0 = false -> observed s0 = ∅ ->
  images s0 !! x = Some img ->
  let s := run batches (construct s0) in
  length (images s) = length (images s0) /\
  (reported x batches ->
   images s !! x =
     Some {| loading := None;
             src := Some (match dataSrc img with
                          | Some v => v
                          | None => js "undefined"
                          end);
             dataSrc := dataSrc img |} /\
   x ∉ observed s) /\
  (~ reported x batches -> images s !! x = Some img /\ x ∈ observed s).
Proof.
  intros Hnat Hobs0 Hx. cbv zeta.
  destruct (lazy_run_state s0 batches Hnat Hobs0)
    as (Hlen & Hobs & Hset & Hkeep).
  cbv zeta in Hlen, Hobs, Hset, Hkeep.
  split; [exact Hlen|]. split.
  - intros Hr. split.
    + rewrite (Hset x Hr), Hx. reflexivity.
    + intros Hin. apply Hobs in Hin. tauto.
  - intros Hn. split.
    + rewrite (Hkeep x Hn). exact Hx.
    + apply Hobs. split; [|exact Hn].
      apply lookup_lt_is_Some. rewrite Hx. eauto.
Qed.

Lemma fallback_loads_reported_images_witness :
  images
    (run [ [ {| target := 0; isIntersecting := true |} ] ]
       (construct {| nativeLazy := false;
                     images := [ {| loading := Some (js "lazy");
                                    src := None; dataSrc := None |} ];
                     observed := ∅ |})) !! 0%nat
  = Some {| loading := None; src := Some (js "undefined"); dataSrc := None |}.
Proof.
  destruct (fallback_loads_reported_images
              {| nativeLazy := false;
                 images := [ {| loading := Some (js "lazy");
                                src := None; dataSrc := None |} ];
                 observed := ∅ |}
              [ [ {| target := 0; isIntersecting := true |} ] ] 0%nat _
              eq_refl eq_refl eq_refl) as (_ & Hr & _).
  apply Hr.
  exists [ {| target := 0; isIntersecting := true |} ],
         {| target := 0; isIntersecting := true |}.
  repeat split; left.
Defined.

End LazyLoaderFacts.

Module SmoothScrollFacts.
Import SmoothScroll.

(** X22: for an href other than "#" the fallback click listener does
    what handleNavClick does to the event and the viewport: both cancel
    the default action, both call scrollIntoView exactly when the href
    selects an element, and both raise when the href is not a valid
    selector.  For the href "#" the fallback listener does nothing at
    all and leaves the default action alone. *)
Theorem fallback_click_agrees_with_nav_click s i l :
  NavigationManager.navLinks s !! i = Some l ->
  (NavigationManager.href l <> js "#" ->
   exists c' s' r,
     on_click (NavigationManager.doc s) (NavigationManager.href l) fresh_click
       = (c', r) /\
     NavigationManager.handleNavClick i s = (s', r) /\
     defaultPrevented c' = true /\
     NavigationManager.defaultPrevented s' = true /\
     NavigationManager.scrolledTo s'
       = NavigationManager.scrolledTo s ++ scrolledTo c') /\
  (NavigationManager.href l = js "#" ->
   on_click (NavigationManager.doc s) (NavigationManager.href l) fresh_click
     = (fresh_click, Normal tt)).
Proof.
  intros Hl. split.
  - intros Hne. apply str_eqb_false in Hne.
    unfold on_click. rewrite Hne. cbn [negb]. cbv [bind modify ret].
    cbn [scrolledTo defaultPrevented fresh_click].
    destruct (NavigationManager.querySelector (NavigationManager.doc s)
                (NavigationManager.href l)) as [[b|]|e] eqn:Hq.
    + do 3 eexists. split; [reflexivity|].
      split; [apply (NavigationManagerFacts.handleNavClick_found s i l b Hl Hq)|].
      repeat split.
    + do 3 eexists. split; [reflexivity|].
      split; [apply (NavigationManagerFacts.handleNavClick_null s i l Hl Hq)|].
      cbn. rewrite app_nil_r. repeat split.
    + do 3 eexists. split; [reflexivity|].
      split; [apply (NavigationManagerFacts.handleNavClick_invalid s i l e Hl Hq)|].
      cbn. rewrite app_nil_r. repeat split.
  - intros ->. reflexivity.
Qed.

Lemma fallback_click_agrees_with_nav_click_witness :
  on_click (NavigationManager.doc NavigationManager.dangling_page)
           (js "#contact") fresh_click
  = ({| defaultPrevented := true; scrolledTo := [] |}, Normal tt).
Proof.
  destruct (fallback_click_agrees_with_nav_click
              NavigationManager.dangling_page 0
              (NavigationManager.plain_link (js "#contact")) eq_refl)
    as (H & _).
  destruct (H ltac:(discriminate)) as (c' & s' & r & Hc & _).
  exact (eq_trans Hc ltac:(rewrite <- Hc; reflexivity)).
Defined.

End SmoothScrollFacts.
